(** * Zaawansowane5: midpoint-rule approximation of pi on T threads

    A shallow embedding of [Zaawansowane5.cpp].  The program reads the number
    of subintervals [N] (unsigned long long) and the number of threads [T]
    (int), cuts the index range [0, N) into [T] consecutive pieces, lets one
    [std::thread] per piece add up [f] at the midpoints, joins the threads in
    index order and prints [4 * step * totalSum].

    - integers are [Z] with the wrap-around of the C++ types written out;
    - [double] is the primitive binary64 type of Rocq ([PrimFloat.float]),
      whose operations are specified by [SpecFloat] (round to nearest even);
    - the vectors [threads] and [threadData] are lists updated by index;
    - the threads are a transition system: a schedule picks, at every step,
      which thread (the main one or a worker) moves.

    Left out: the prompts, the formatting of the number by [operator<<], the
    measured time, and the failure of [std::thread] creation for lack of
    resources. *)

From Stdlib Require Import ZArith Lia Floats Reals Lra Psatz.
From stdpp Require Import base tactics option list list_numbers.

Open Scope Z_scope.
Set Warnings "-inexact-float".

(** ** Machine numbers *)

Module Machine.

(** Arithmetic on [unsigned long long] is modulo 2^64. *)
Definition ULLONG_MOD : Z := 2 ^ 64.
Definition INT_MAX : Z := 2 ^ 31 - 1.

Definition wrap64 (z : Z) : Z := z mod ULLONG_MOD.

(** Conversion of an [int] to [unsigned long long] (usual arithmetic
    conversions in [N / T], [N % T] and [i < remainder]). *)
Definition ull_of_int (t : Z) : Z := wrap64 t.

(** [static_cast<double>(n)] for a 64-bit unsigned [n]: the nearest
    binary64 number, ties to even (the default rounding mode). *)
Definition of_ull (n : Z) : float :=
  SF2Prim (binary_normalize prec emax n 0 false).

Definition is_ull (z : Z) : Prop := 0 <= z < ULLONG_MOD.
Definition is_int (z : Z) : Prop := - 2 ^ 31 <= z <= INT_MAX.

Lemma wrap64_small z : is_ull z -> wrap64 z = z.
Proof. unfold is_ull, wrap64. intros. apply Z.mod_small. lia. Qed.

Lemma ull_of_int_nonneg t : 0 <= t <= INT_MAX -> ull_of_int t = t.
Proof.
  unfold ull_of_int, INT_MAX. intros Ht. apply wrap64_small.
  unfold is_ull, ULLONG_MOD. lia.
Qed.

End Machine.
Import Machine.

(** ** The integrand and the per-thread record *)

(** [inline double f(double x) { return std::sqrt(1.0 - x * x); }] *)
Definition f (x : float) : float := PrimFloat.sqrt (1 - x * x).

Record ThreadData := mkThreadData {
  start : Z;      (* unsigned long long *)
  end_ : Z;       (* unsigned long long, the field [end] *)
  sum : float;
  step : float
}.

Definition set_sum (data : ThreadData) (s : float) : ThreadData :=
  {| start := start data; end_ := end_ data; sum := s; step := step data |}.

(** ** [threadFunction], one transition at a time

    The control points of [threadFunction(ThreadData& data)]: before line 60,
    at the loop test of line 61 (with the locals [i] and [partialSum]), and
    after the store of line 65.  [data] is a reference: every read of
    [data.end] and [data.step] goes to the caller's record. *)

Inductive Frame :=
| Entry
| Loop (i : Z) (partialSum : float)
| Return.

(** The midpoint of subinterval [i]: [(static_cast<double>(i) + 0.5) * data.step]. *)
Definition midpoint (i : Z) (h : float) : float :=
  ((of_ull i + 0.5) * h)%float.

Definition threadFunction_step (fr : Frame) (data : ThreadData)
  : option (Frame * ThreadData) :=
  match fr with
  | Entry => Some (Loop (start data) 0%float, data)
  | Loop i partialSum =>
      if i <? end_ data then
        let x := midpoint i (step data) in
        Some (Loop (wrap64 (i + 1)) (partialSum + f x)%float, data)
      else
        Some (Return, set_sum data partialSum)
  | Return => None
  end.

(** Running the function to its return, with a bound on the number of
    transitions. *)
Fixpoint threadFunction_from (fuel : nat) (fr : Frame) (data : ThreadData)
  : option ThreadData :=
  match fr with
  | Return => Some data
  | _ =>
      match fuel with
      | O => None
      | S fuel' =>
          match threadFunction_step fr data with
          | Some (fr', data') => threadFunction_from fuel' fr' data'
          | None => None
          end
      end
  end.

Definition threadFunction (fuel : nat) (data : ThreadData) : option ThreadData :=
  threadFunction_from fuel Entry data.

(** ** [main] with its threads *)

(** What a run of the program ends in: the value of [return] together with
    the double handed to [std::cout] on line 139, or a failure.  The two
    failures come before any thread exists:
    [std::vector<std::thread> threads(T)] with a negative [T] asks for more
    than [max_size()] elements (the conversion to [size_type] wraps), and
    [N / T] with [T == 0] divides by zero, which is undefined behaviour. *)
Inductive Failure := LengthError | DivisionByZero.

Inductive Outcome :=
| Returned (code : Z) (pi_approx : float)
| Failed (why : Failure).

(** A [std::thread] of the vector [threads]. *)
Inductive Thread :=
| Unstarted                      (* default-constructed by [threads(T)] *)
| Running (fr : Frame)           (* created on line 118 *)
| Completed.                     (* [threadFunction] has returned *)

(** Where the main thread is: at the loop test of line 102, at the loop test
    of line 125, or past [return 0]. *)
Inductive MainPc :=
| Partitioning (i : Z) (currentStart : Z)
| Reducing (i : Z) (totalSum : float)
| Exited (o : Outcome).

Record State := mkState {
  threads : list Thread;
  threadData : list ThreadData;
  pc : MainPc
}.

Section Main.

(** The values read on lines 83 and 85. *)
Variables (N T : Z).

(** Line 90. *)
Definition main_step_width : float := (1 / of_ull N)%float.
(** Lines 97 and 98: both operands are [unsigned long long]. *)
Definition chunk : Z := N / ull_of_int T.
Definition remainder : Z := N mod ull_of_int T.

(** Value-initialised element of [threadData(T)]. *)
Definition zero_data : ThreadData :=
  {| start := 0; end_ := 0; sum := 0%float; step := 0%float |}.

Definition initial : State :=
  {| threads := replicate (Z.to_nat T) Unstarted;
     threadData := replicate (Z.to_nat T) zero_data;
     pc := Partitioning 0 0 |}.

(** Lines 107-110. *)
Definition current_end (i currentStart : Z) : Z :=
  let currentEnd := wrap64 (currentStart + chunk) in
  if ull_of_int i <? remainder then wrap64 (currentEnd + 1) else currentEnd.

(** One transition of the main thread.  [join] on a thread that has not
    completed blocks: the transition is not enabled. *)
Definition main_step (st : State) : option State :=
  match pc st with
  | Partitioning i currentStart =>
      if i <? T then
        let currentEnd := current_end i currentStart in
        let data := {| start := currentStart; end_ := currentEnd;
                       sum := 0%float; step := main_step_width |} in
        Some {| threads := <[Z.to_nat i := Running Entry]> (threads st);
                threadData := <[Z.to_nat i := data]> (threadData st);
                pc := Partitioning (i + 1) currentEnd |}
      else
        Some {| threads := threads st; threadData := threadData st;
                pc := Reducing 0 0%float |}
  | Reducing i totalSum =>
      if i <? T then
        match threads st !! Z.to_nat i, threadData st !! Z.to_nat i with
        | Some Completed, Some data =>
            Some {| threads := threads st; threadData := threadData st;
                    pc := Reducing (i + 1) (totalSum + sum data)%float |}
        | _, _ => None
        end
      else
        let integralValue := (main_step_width * totalSum)%float in
        let pi_approx := (4 * integralValue)%float in
        Some {| threads := threads st; threadData := threadData st;
                pc := Exited (Returned 0 pi_approx) |}
  | Exited _ => None
  end.

(** One transition of worker [k], on its own element of [threadData]. *)
Definition worker_step (k : nat) (st : State) : option State :=
  match threads st !! k, threadData st !! k with
  | Some (Running fr), Some data =>
      match threadFunction_step fr data with
      | Some (Return, data') =>
          Some {| threads := <[k := Completed]> (threads st);
                  threadData := <[k := data']> (threadData st);
                  pc := pc st |}
      | Some (fr', data') =>
          Some {| threads := <[k := Running fr']> (threads st);
                  threadData := <[k := data']> (threadData st);
                  pc := pc st |}
      | None => None
      end
  | _, _ => None
  end.

Inductive Actor := MainThread | Worker (k : nat).

Definition system_step (a : Actor) (st : State) : option State :=
  match a with
  | MainThread => main_step st
  | Worker k => worker_step k st
  end.

(** A schedule is the order in which the threads move. *)
Fixpoint exec (sched : list Actor) (st : State) : option State :=
  match sched with
  | [] => Some st
  | a :: sched' =>
      match system_step a st with
      | Some st' => exec sched' st'
      | None => None
      end
  end.

(** The program under a schedule: [None] when the schedule is not a
    complete run (it moves a thread that cannot move, or stops early). *)
Definition main (sched : list Actor) : option Outcome :=
  if T <? 0 then Some (Failed LengthError)
  else if T =? 0 then Some (Failed DivisionByZero)
  else
    match exec sched initial with
    | Some st => match pc st with Exited o => Some o | _ => None end
    | None => None
    end.

End Main.

(** ** Reference values

    Closed forms against which the transition system is checked: the bounds
    of the [k]-th range, the midpoint sum over a range, and the total. *)

Definition range_start (N T k : Z) : Z :=
  k * chunk N T + Z.min k (remainder N T).

Definition range_end (N T k : Z) : Z := range_start N T (k + 1).

(** The running sum [((0 + f x_a) + f x_(a+1)) + ... + f x_(b-1)]. *)
Definition midpoint_sum (a b : Z) (h : float) : float :=
  foldl (fun acc i => (acc + f (midpoint i h))%float) 0%float (seqZ a (b - a)).

(** The record of worker [k] as line 112-115 fill it. *)
Definition task (N T k : Z) : ThreadData :=
  {| start := range_start N T k; end_ := range_end N T k;
     sum := 0%float; step := main_step_width N |}.

Definition partial_sum (N T k : Z) : float :=
  midpoint_sum (range_start N T k) (range_end N T k) (main_step_width N).

(** [totalSum] after the first [n] joins. *)
Definition total_sum (N T n : Z) : float :=
  foldl (fun acc k => (acc + partial_sum N T k)%float) 0%float (seqZ 0 n).

Definition pi_approx_of (N T : Z) : float :=
  (4 * (main_step_width N * total_sum N T T))%float.

(** ** Binary64 arithmetic

    What the program needs to know about round-to-nearest-even: the
    specification functions of [SpecFloat] are related to the real numbers,
    and the rounding they perform is shown to be monotone, to stay within
    the binary64 numbers that bracket the real, and to be within [2^-53] of
    it in relative terms. *)

Module Binary64.

(** Powers of two as reals. *)
Definition bpow (e : Z) : R := powerRZ 2 e.

Arguments bpow : simpl never.

Lemma bpow_pos e : (0 < bpow e)%R.
Proof. apply powerRZ_lt. lra. Qed.

Lemma bpow_add e1 e2 : bpow (e1 + e2) = (bpow e1 * bpow e2)%R.
Proof. apply powerRZ_add. lra. Qed.

Lemma bpow_0 : bpow 0 = 1%R.
Proof. reflexivity. Qed.

Lemma bpow_1 : bpow 1 = 2%R.
Proof. unfold bpow. simpl. lra. Qed.

Lemma bpow_succ e : bpow (e + 1) = (2 * bpow e)%R.
Proof. rewrite bpow_add, bpow_1. lra. Qed.

Lemma bpow_pred e : bpow (e - 1) = (bpow e / 2)%R.
Proof.
  pose proof (bpow_succ (e - 1)) as H.
  replace (e - 1 + 1) with e in H by lia. lra.
Qed.

Lemma bpow_IZR (n : Z) : 0 <= n -> bpow n = IZR (2 ^ n).
Proof.
  intros Hn. unfold bpow. rewrite <- (Z2Nat.id n) by lia.
  rewrite <- pow_powerRZ. by rewrite pow_IZR.
Qed.

Lemma bpow_le e1 e2 : e1 <= e2 -> (bpow e1 <= bpow e2)%R.
Proof.
  intros He. replace e2 with (e1 + (e2 - e1)) by lia.
  rewrite bpow_add, (bpow_IZR (e2 - e1)) by lia.
  assert (1 <= 2 ^ (e2 - e1)) by (apply Z.pow_le_mono_r with (b := 0); lia).
  pose proof (bpow_pos e1). apply IZR_le in H. nra.
Qed.

Lemma bpow_lt e1 e2 : e1 < e2 -> (bpow e1 < bpow e2)%R.
Proof.
  intros He. pose proof (bpow_le (e1 + 1) e2 ltac:(lia)) as Hle.
  rewrite bpow_succ in Hle. pose proof (bpow_pos e1). lra.
Qed.

(** The real number [m * 2^e]. *)
Definition F2R (m e : Z) : R := (IZR m * bpow e)%R.
Arguments F2R : simpl never.

(** Changing the exponent of [m * 2^e]. *)
Lemma F2R_shift m e e0 :
  e0 <= e -> F2R m e = F2R (m * 2 ^ (e - e0)) e0.
Proof.
  intros He. unfold F2R. rewrite mult_IZR, <- bpow_IZR by lia.
  replace e with ((e - e0) + e0) at 1 by lia. rewrite bpow_add. lra.
Qed.

Lemma F2R_le m1 m2 e : m1 <= m2 -> (F2R m1 e <= F2R m2 e)%R.
Proof.
  intros H. unfold F2R. apply IZR_le in H. pose proof (bpow_pos e). nra.
Qed.

Lemma F2R_lt m1 m2 e : m1 < m2 -> (F2R m1 e < F2R m2 e)%R.
Proof.
  intros H. unfold F2R. apply IZR_lt in H. pose proof (bpow_pos e). nra.
Qed.

Lemma F2R_le_inv m1 m2 e : (F2R m1 e <= F2R m2 e)%R -> m1 <= m2.
Proof.
  intros H. destruct (Z.le_gt_cases m1 m2) as [|Hgt]; [done|].
  apply (F2R_lt _ _ e) in Hgt. lra.
Qed.

Lemma F2R_lt_inv m1 m2 e : (F2R m1 e < F2R m2 e)%R -> m1 < m2.
Proof.
  intros H. destruct (Z.lt_ge_cases m1 m2) as [|Hge]; [done|].
  apply (F2R_le _ _ e) in Hge. lra.
Qed.

Lemma F2R_succ m e : F2R (m + 1) e = (F2R m e + bpow e)%R.
Proof. unfold F2R. rewrite plus_IZR. lra. Qed.

(** ** Number of binary digits *)

Lemma digits2_pos_size p : digits2_pos p = Pos.size p.
Proof. induction p; simpl; congruence. Qed.

Lemma Zdigits2_bounds m :
  0 < m -> 2 ^ (Zdigits2 m - 1) <= m < 2 ^ Zdigits2 m.
Proof.
  destruct m as [|p|p]; try lia. intros _. simpl.
  rewrite digits2_pos_size.
  pose proof (Pos.size_gt p) as Hgt. pose proof (Pos.size_le p) as Hle.
  apply Pos2Z.pos_lt_pos in Hgt. apply Pos2Z.pos_le_pos in Hle.
  rewrite Pos2Z.inj_pow in Hgt, Hle.
  replace (Z.pos (Pos.size p)) with (Z.pos (Pos.size p) - 1 + 1) in Hle at 1
    by lia.
  rewrite Z.pow_add_r in Hle by lia. lia.
Qed.

Lemma Zdigits2_nonneg m : 0 <= Zdigits2 m.
Proof. destruct m; simpl; lia. Qed.

Lemma Zdigits2_unique m d :
  2 ^ (d - 1) <= m < 2 ^ d -> 0 < m -> Zdigits2 m = d.
Proof.
  intros Hm Hpos. pose proof (Zdigits2_bounds m Hpos) as Hb.
  pose proof (Zdigits2_nonneg m).
  assert (0 < d).
  { destruct (Z.lt_ge_cases 0 d); [done|].
    destruct (Z.eq_dec d 0) as [->|]; [simpl in Hm; lia|].
    rewrite (Z.pow_neg_r 2 d) in Hm by lia. lia. }
  destruct (Z.lt_trichotomy (Zdigits2 m) d) as [Hlt|[Heq|Hgt]]; [|done|].
  - assert (2 ^ Zdigits2 m <= 2 ^ (d - 1)) by (apply Z.pow_le_mono_r; lia). lia.
  - assert (2 ^ d <= 2 ^ (Zdigits2 m - 1)) by (apply Z.pow_le_mono_r; lia). lia.
Qed.


(** ** Shifting right with a round bit and a sticky bit *)

(** Where the real [v] lies between [m * 2^e] and [(m + 1) * 2^e]. *)
Definition located (v : R) (m e : Z) (l : location) : Prop :=
  match l with
  | loc_Exact => v = F2R m e
  | loc_Inexact Lt => (F2R m e < v < F2R m e + bpow e / 2)%R
  | loc_Inexact Eq => v = (F2R m e + bpow e / 2)%R
  | loc_Inexact Gt => (F2R m e + bpow e / 2 < v < F2R m e + bpow e)%R
  end.

Lemma located_bounds v m e l :
  located v m e l -> (F2R m e <= v < F2R m e + bpow e)%R.
Proof.
  pose proof (bpow_pos e). destruct l as [|[| |]]; simpl; lra.
Qed.

(** The location is determined by the cell and the real. *)
Lemma located_unique v m e l1 l2 :
  located v m e l1 -> located v m e l2 -> l1 = l2.
Proof.
  pose proof (bpow_pos e).
  destruct l1 as [|[| |]], l2 as [|[| |]]; simpl; intros; try done; lra.
Qed.

Lemma iter_pos_nat {A} (g : A -> A) p : forall x,
  SpecFloat.iter_pos g p x = Nat.iter (Pos.to_nat p) g x.
Proof.
  induction p as [p IH|p IH|]; intros x; cbn [SpecFloat.iter_pos].
  - rewrite !IH, Pos2Nat.inj_xI.
    replace (S (2 * Pos.to_nat p)) with (Pos.to_nat p + (Pos.to_nat p + 1))%nat
      by lia.
    rewrite !Nat.iter_add. reflexivity.
  - rewrite !IH, Pos2Nat.inj_xO.
    replace (2 * Pos.to_nat p)%nat with (Pos.to_nat p + Pos.to_nat p)%nat
      by lia.
    rewrite Nat.iter_add. reflexivity.
  - reflexivity.
Qed.

Lemma shr_1_spec mrs v e :
  0 <= shr_m mrs ->
  located v (shr_m mrs) e (loc_of_shr_record mrs) ->
  shr_m (shr_1 mrs) = shr_m mrs / 2 /\
  located v (shr_m (shr_1 mrs)) (e + 1) (loc_of_shr_record (shr_1 mrs)).
Proof.
  destruct mrs as [m r s]. simpl. intros Hm Hloc.
  assert (forall q b, m = 2 * q + b -> 0 <= b < 2 -> q = m / 2) as Hdiv.
  { intros q b -> Hb. apply (Z.div_unique _ 2 q b); lia. }
  assert (forall q b : Z, m = 2 * q + b ->
    F2R m e = (F2R q (e + 1) + IZR b * bpow e)%R) as Hval.
  { intros q b ->. unfold F2R. rewrite bpow_succ, plus_IZR, mult_IZR. lra. }
  pose proof (bpow_pos e) as Hpos. pose proof (bpow_succ e) as Hsucc.
  assert (F2R 0 (e + 1) = 0%R) as Hz by (unfold F2R; lra).
  destruct m as [|[p|p|]|p]; try lia.
  - split; [reflexivity|]. pose proof (Hval 0 0 eq_refl) as Hv.
    destruct r, s; simpl in *; lra.
  - split; [apply (Hdiv (Z.pos p) 1); lia|].
    pose proof (Hval (Z.pos p) 1 eq_refl) as Hv.
    destruct r, s; simpl in *; lra.
  - split; [apply (Hdiv (Z.pos p) 0); lia|].
    pose proof (Hval (Z.pos p) 0 eq_refl) as Hv.
    destruct r, s; simpl in *; lra.
  - split; [reflexivity|]. pose proof (Hval 0 1 eq_refl) as Hv.
    destruct r, s; simpl in *; lra.
Qed.

Lemma shr_iter_spec (n : nat) : forall mrs v e,
  0 <= shr_m mrs ->
  located v (shr_m mrs) e (loc_of_shr_record mrs) ->
  shr_m (Nat.iter n shr_1 mrs) = shr_m mrs / 2 ^ Z.of_nat n /\
  located v (shr_m (Nat.iter n shr_1 mrs)) (e + Z.of_nat n)
          (loc_of_shr_record (Nat.iter n shr_1 mrs)).
Proof.
  induction n as [|n IH]; intros mrs v e Hm Hloc.
  - simpl. rewrite Z.div_1_r, Z.add_0_r. done.
  - destruct (IH mrs v e Hm Hloc) as [Hm' Hloc'].
    rewrite Nat.iter_succ.
    destruct (shr_1_spec (Nat.iter n shr_1 mrs) v (e + Z.of_nat n))
      as [Hm1 Hloc1]; [|done|].
    { rewrite Hm'. apply Z.div_pos; lia. }
    split.
    + rewrite Hm1, Hm'. rewrite Z.div_div by lia.
      f_equal. rewrite Nat2Z.inj_succ, Z.pow_succ_r by lia. lia.
    + replace (e + Z.of_nat (S n)) with (e + Z.of_nat n + 1) by lia. done.
Qed.

Lemma loc_of_shr_record_of_loc m l :
  loc_of_shr_record (shr_record_of_loc m l) = l.
Proof. by destruct l as [|[| |]]. Qed.

Lemma shr_m_of_loc m l : shr_m (shr_record_of_loc m l) = m.
Proof. by destruct l as [|[| |]]. Qed.

(** [shr] by [n] divides the mantissa by [2^n] and keeps track of where the
    real is. *)
Lemma shr_spec m e l n v :
  0 <= m -> located v m e l ->
  let '(mrs, e') := shr (shr_record_of_loc m l) e n in
  shr_m mrs = m / 2 ^ Z.max 0 n /\ e' = e + Z.max 0 n /\
  located v (shr_m mrs) e' (loc_of_shr_record mrs).
Proof.
  intros Hm Hloc. unfold shr. destruct n as [|p|p].
  - simpl. rewrite Z.div_1_r, Z.add_0_r, shr_m_of_loc, loc_of_shr_record_of_loc.
    done.
  - rewrite iter_pos_nat. rewrite Z.max_r by lia.
    destruct (shr_iter_spec (Pos.to_nat p) (shr_record_of_loc m l) v e)
      as [Hm' Hloc'].
    + by rewrite shr_m_of_loc.
    + by rewrite shr_m_of_loc, loc_of_shr_record_of_loc.
    + rewrite shr_m_of_loc, positive_nat_Z in *. done.
  - rewrite Z.max_l by lia. simpl.
    rewrite Z.div_1_r, Z.add_0_r, shr_m_of_loc, loc_of_shr_record_of_loc.
    done.
Qed.


(** ** Rounding to nearest, ties to even *)

Lemma fexp_eq e : fexp prec emax e = Z.max (e - 53) (-1074).
Proof. reflexivity. Qed.

Lemma fexp_mono e1 e2 : e1 <= e2 -> fexp prec emax e1 <= fexp prec emax e2.
Proof. rewrite !fexp_eq. lia. Qed.

(** What [binary_round_aux] returns once the mantissa has been rounded to
    [m <= 2^53] at exponent [e]. *)
Definition finish (s : bool) (m e : Z) : spec_float :=
  if m =? 0 then S754_zero s
  else if m =? 2 ^ 53 then
    if e + 1 <=? 971 then S754_finite s (2 ^ 52)%positive (e + 1)
    else S754_infinity s
  else if e <=? 971 then S754_finite s (Z.to_pos m) e
  else S754_infinity s.

Lemma round_nearest_even_cases m l :
  round_nearest_even m l = m \/ round_nearest_even m l = m + 1.
Proof. destruct l as [|[| |]]; simpl; auto. destruct (Z.even m); auto. Qed.

Lemma div_pow2_lt m a b : 0 <= m < 2 ^ a -> 0 <= b -> m / 2 ^ b < 2 ^ Z.max 0 (a - b).
Proof.
  intros Hm Hb. assert (0 < 2 ^ b) by (apply Z.pow_pos_nonneg; lia).
  apply Z.div_lt_upper_bound; [done|].
  destruct (Z.le_gt_cases b a).
  - rewrite Z.max_r by lia. rewrite <- Z.pow_add_r by lia.
    replace (b + (a - b)) with a by lia. lia.
  - rewrite Z.max_l by lia. simpl.
    assert (2 ^ a <= 2 ^ b) by (apply Z.pow_le_mono_r; lia). lia.
Qed.

Lemma div_pow2_ge m a b : 2 ^ a <= m -> 0 <= b <= a -> 2 ^ (a - b) <= m / 2 ^ b.
Proof.
  intros Hm Hb. assert (0 < 2 ^ b) by (apply Z.pow_pos_nonneg; lia).
  apply Z.div_le_lower_bound; [done|].
  rewrite <- Z.pow_add_r by lia. replace (b + (a - b)) with a by lia. lia.
Qed.

(** The first shift of [binary_round_aux]: the mantissa is cut down to at
    most 53 bits, at the exponent the format gives to numbers of this size. *)
Lemma shr_fexp_spec mx ex lx v :
  0 <= mx -> ex <= fexp prec emax (Zdigits2 mx + ex) ->
  located v mx ex lx ->
  exists mrs,
    shr_fexp prec emax mx ex lx = (mrs, fexp prec emax (Zdigits2 mx + ex)) /\
    located v (shr_m mrs) (fexp prec emax (Zdigits2 mx + ex))
            (loc_of_shr_record mrs) /\
    0 <= shr_m mrs < 2 ^ 53 /\
    (2 ^ 52 <= shr_m mrs \/ fexp prec emax (Zdigits2 mx + ex) = -1074).
Proof.
  intros Hmx Hex Hloc. unfold shr_fexp.
  set (e1 := fexp prec emax (Zdigits2 mx + ex)) in *.
  pose proof (shr_spec mx ex lx (e1 - ex) v Hmx Hloc) as Hshr.
  destruct (shr (shr_record_of_loc mx lx) ex (e1 - ex)) as [mrs e'].
  destruct Hshr as (Hm & He & Hloc'). rewrite Z.max_r in Hm, He by lia.
  exists mrs. replace e' with e1 in * by lia. split; [done|]. split; [done|].
  assert (0 < 2 ^ (e1 - ex)) by (apply Z.pow_pos_nonneg; lia).
  destruct (Z.eq_dec mx 0) as [->|Hne].
  - rewrite Hm, Z.div_0_l by lia. split; [lia|]. right.
    subst e1. simpl in *. rewrite fexp_eq in *. lia.
  - pose proof (Zdigits2_bounds mx ltac:(lia)) as Hd.
    pose proof (Zdigits2_nonneg mx) as Hd0.
    assert (0 < Zdigits2 mx).
    { destruct mx; simpl in *; lia. }
    subst e1. rewrite fexp_eq in *. split.
    + rewrite Hm. split; [apply Z.div_pos; lia|].
      eapply Z.lt_le_trans; [apply (div_pow2_lt mx (Zdigits2 mx)); lia|].
      apply Z.pow_le_mono_r; lia.
    + destruct (Z.le_gt_cases (-1074) (Zdigits2 mx + ex - 53)); [|right; lia].
      left. rewrite Hm. rewrite Z.max_l in * by lia.
      replace 52 with ((Zdigits2 mx - 1) - (Zdigits2 mx + ex - 53 - ex)) by lia.
      apply div_pow2_ge; lia.
Qed.

Lemma binary_round_aux_spec s mx ex lx v :
  0 <= mx -> ex <= fexp prec emax (Zdigits2 mx + ex) ->
  located v mx ex lx ->
  exists m1 l1,
    located v m1 (fexp prec emax (Zdigits2 mx + ex)) l1 /\
    0 <= m1 < 2 ^ 53 /\
    (2 ^ 52 <= m1 \/ fexp prec emax (Zdigits2 mx + ex) = -1074) /\
    binary_round_aux prec emax s mx ex lx =
      finish s (round_nearest_even m1 l1) (fexp prec emax (Zdigits2 mx + ex)).
Proof.
  intros Hmx Hex Hloc.
  destruct (shr_fexp_spec mx ex lx v Hmx Hex Hloc)
    as (mrs & Hshr & Hloc1 & Hm1 & Hnorm).
  set (e1 := fexp prec emax (Zdigits2 mx + ex)) in *.
  exists (shr_m mrs), (loc_of_shr_record mrs).
  split; [done|]. split; [done|]. split; [done|].
  unfold binary_round_aux. rewrite Hshr.
  set (m2 := round_nearest_even (shr_m mrs) (loc_of_shr_record mrs)).
  assert (0 <= m2 <= 2 ^ 53) as Hm2.
  { destruct (round_nearest_even_cases (shr_m mrs) (loc_of_shr_record mrs));
      fold m2 in H; lia. }
  assert (-1074 <= e1) as He1 by (subst e1; rewrite fexp_eq; lia).
  unfold shr_fexp.
  pose proof (shr_spec m2 e1 loc_Exact
                (fexp prec emax (Zdigits2 m2 + e1) - e1) (F2R m2 e1)
                ltac:(lia) eq_refl) as Hshr2.
  destruct (shr (shr_record_of_loc m2 loc_Exact) e1
              (fexp prec emax (Zdigits2 m2 + e1) - e1)) as [mrs2 e2].
  destruct Hshr2 as (Hm3 & He3 & _). unfold finish.
  destruct (Z.eqb_spec m2 0) as [Hz|Hnz].
  - rewrite Hm3, Hz, Z.div_0_l; [done|].
    apply Z.pow_nonzero; lia.
  - destruct (Z.eqb_spec m2 (2 ^ 53)) as [Hcarry|Hnc].
    + rewrite Hcarry in Hm3, He3. change (Zdigits2 (2 ^ 53)) with 54 in *.
      rewrite fexp_eq in Hm3, He3.
      replace (Z.max (54 + e1 - 53) (-1074) - e1) with 1 in * by lia.
      change (2 ^ 53 / 2 ^ Z.max 0 1) with (2 ^ 52) in Hm3.
      rewrite Hm3. change (2 ^ 52) with (Z.pos (2 ^ 52)).
      replace e2 with (e1 + 1) by lia. done.
    + assert (0 < m2 < 2 ^ 53) as Hm2' by lia.
      pose proof (Zdigits2_bounds m2 ltac:(lia)) as Hd.
      assert (Zdigits2 m2 <= 53).
      { destruct (Z.le_gt_cases (Zdigits2 m2) 53); [done|].
        assert (2 ^ 53 <= 2 ^ (Zdigits2 m2 - 1))
          by (apply Z.pow_le_mono_r; lia). lia. }
      rewrite fexp_eq in Hm3, He3.
      rewrite Z.max_l in Hm3, He3 by lia.
      rewrite Z.div_1_r in Hm3. rewrite Hm3.
      replace e2 with e1 by lia.
      destruct m2 as [|p|p]; try lia. done.
Qed.


(** ** The grid of binary64 numbers *)

(** The real value of a specification float (0 for infinities and NaN). *)
Definition SF2R (x : spec_float) : R :=
  match x with
  | S754_finite s m e => if s then (- F2R (Z.pos m) e)%R else F2R (Z.pos m) e
  | _ => 0%R
  end.

(** [m * 2^e] is a nonnegative binary64 number in canonical form: at most
    53 bits, and exactly 53 unless the exponent is the smallest one. *)
Definition cell (m e : Z) : Prop :=
  0 <= m < 2 ^ 53 /\ -1074 <= e /\ (2 ^ 52 <= m \/ e = -1074).

Lemma pow2_ge_2 k : 0 < k -> 2 <= 2 ^ k.
Proof.
  intros Hk. change 2 with (2 ^ 1) at 1. apply Z.pow_le_mono_r; lia.
Qed.

(** No multiple of [2^eB] with [mB <= 2^53] lies strictly inside a cell. *)
Lemma grid_above m e mB eB :
  cell m e -> 0 <= mB <= 2 ^ 53 -> -1074 <= eB ->
  (F2R m e < F2R mB eB)%R -> (F2R (m + 1) e <= F2R mB eB)%R.
Proof.
  intros (Hm & He & Hn) HmB HeB Hlt.
  destruct (Z.le_gt_cases e eB) as [Hle|Hgt].
  - rewrite (F2R_shift mB eB e) in * by done.
    apply F2R_lt_inv in Hlt. apply F2R_le. lia.
  - rewrite (F2R_shift m e eB) in Hlt by lia.
    apply F2R_lt_inv in Hlt.
    pose proof (pow2_ge_2 (e - eB) ltac:(lia)). nia.
Qed.

Lemma grid_below m e mB eB :
  cell m e -> 0 <= mB <= 2 ^ 53 -> -1074 <= eB ->
  (F2R mB eB < F2R (m + 1) e)%R -> (F2R mB eB <= F2R m e)%R.
Proof.
  intros (Hm & He & Hn) HmB HeB Hlt.
  destruct (Z.le_gt_cases e eB) as [Hle|Hgt].
  - rewrite (F2R_shift mB eB e) in * by done.
    apply F2R_lt_inv in Hlt. apply F2R_le. lia.
  - rewrite (F2R_shift m e eB) by lia. apply F2R_le.
    pose proof (pow2_ge_2 (e - eB) ltac:(lia)). nia.
Qed.

Lemma cell_unique v m e m' e' :
  cell m e -> cell m' e' ->
  (F2R m e <= v < F2R (m + 1) e)%R -> (F2R m' e' <= v < F2R (m' + 1) e')%R ->
  m = m' /\ e = e'.
Proof.
  intros Hc Hc' Hv Hv'.
  assert (F2R m e <= F2R m' e')%R as H1.
  { apply grid_below; [done| |destruct Hc as (? & ? & ?); lia|lra].
    destruct Hc as (? & ? & ?); lia. }
  assert (F2R m' e' <= F2R m e)%R as H2.
  { apply grid_below; [done| |destruct Hc' as (? & ? & ?); lia|lra].
    destruct Hc' as (? & ? & ?); lia. }
  assert (F2R m e = F2R m' e') as Heq by lra. clear H1 H2 Hv Hv'.
  destruct Hc as (Hm & He & Hn), Hc' as (Hm' & He' & Hn').
  destruct (Z.lt_trichotomy e e') as [Hlt|[->|Hgt]].
  - rewrite (F2R_shift m' e' e) in Heq by lia.
    assert (m = m' * 2 ^ (e' - e)).
    { apply Z.le_antisymm; apply (F2R_le_inv _ _ e); lra. }
    pose proof (pow2_ge_2 (e' - e) ltac:(lia)). nia.
  - split; [|done]. apply Z.le_antisymm; apply (F2R_le_inv _ _ e'); lra.
  - rewrite (F2R_shift m e e') in Heq by lia.
    assert (m' = m * 2 ^ (e - e')).
    { apply Z.le_antisymm; apply (F2R_le_inv _ _ e'); lra. }
    pose proof (pow2_ge_2 (e - e') ltac:(lia)). nia.
Qed.

(** [x] is the binary64 number nearest to the nonnegative real [v], the
    one with an even mantissa when two are as near. *)
Definition rounds_to (v : R) (x : spec_float) : Prop :=
  exists m e l,
    cell m e /\ located v m e l /\
    x = finish false (round_nearest_even m l) e.

Lemma located_succ v m e l :
  located v m e l -> (F2R m e <= v < F2R (m + 1) e)%R.
Proof. intros H. rewrite F2R_succ. by apply located_bounds in H. Qed.

(** [rounds_to] is a function of the real. *)
Lemma rounds_to_cell v x m e l :
  rounds_to v x -> cell m e -> located v m e l ->
  x = finish false (round_nearest_even m l) e.
Proof.
  intros (m' & e' & l' & Hc' & Hl' & ->) Hc Hl.
  destruct (cell_unique v m e m' e' Hc Hc') as [-> ->];
    [by apply (located_succ v m e l)|by apply (located_succ v m' e' l')|].
  by rewrite (located_unique v m' e' l l' Hl Hl').
Qed.

Lemma rounds_to_unique v x y : rounds_to v x -> rounds_to v y -> x = y.
Proof.
  intros Hx (m & e & l & Hc & Hl & ->). by apply (rounds_to_cell v).
Qed.

Lemma binary_round_aux_rounds mx ex lx v :
  0 <= mx -> ex <= fexp prec emax (Zdigits2 mx + ex) ->
  located v mx ex lx ->
  rounds_to v (binary_round_aux prec emax false mx ex lx).
Proof.
  intros Hmx Hex Hloc.
  destruct (binary_round_aux_spec false mx ex lx v Hmx Hex Hloc)
    as (m1 & l1 & Hloc1 & Hm1 & Hn & ->).
  exists m1, (fexp prec emax (Zdigits2 mx + ex)), l1.
  split; [|done]. split; [done|]. split; [|done]. rewrite fexp_eq. lia.
Qed.


(** ** Properties of the rounded value *)

(** Zero or a positive finite number: neither infinite nor NaN, sign +. *)
Definition finite_nonneg (x : spec_float) : Prop :=
  match x with
  | S754_zero false | S754_finite false _ _ => True
  | _ => False
  end.

Lemma F2R_pow2 k e : 0 <= k -> F2R (2 ^ k) e = bpow (k + e).
Proof. intros Hk. unfold F2R. by rewrite <- bpow_IZR, bpow_add. Qed.

Lemma finish_cases m e :
  0 <= m <= 2 ^ 53 ->
  (finish false m e = S754_infinity false /\ m <> 0 /\
   971 < e + (if m =? 2 ^ 53 then 1 else 0)) \/
  (finite_nonneg (finish false m e) /\ SF2R (finish false m e) = F2R m e).
Proof.
  intros Hm. unfold finish.
  destruct (Z.eqb_spec m 0) as [->|Hnz].
  - right. split; [done|]. unfold F2R. simpl. lra.
  - destruct (Z.eqb_spec m (2 ^ 53)) as [->|Hnc].
    + destruct (Z.leb_spec (e + 1) 971); [right|left; split; [done|lia]].
      split; [done|]. simpl.
      change (Z.pos (2 ^ 52)) with (2 ^ 52).
      rewrite !F2R_pow2 by lia. f_equal. lia.
    + destruct (Z.leb_spec e 971); [right|left; split; [done|lia]].
      split; [done|]. simpl. by rewrite Z2Pos.id by lia.
Qed.

Lemma round_nearest_even_located v m e l :
  located v m e l ->
  (round_nearest_even m l = m /\ (v <= F2R m e + bpow e / 2)%R) \/
  (round_nearest_even m l = m + 1 /\ (F2R m e + bpow e / 2 <= v)%R).
Proof.
  pose proof (bpow_pos e).
  destruct l as [|[| |]]; simpl; intros Hl.
  - left. split; [done|lra].
  - destruct (Z.even m); [left|right]; (split; [done|lra]).
  - left. split; [done|lra].
  - right. split; [done|lra].
Qed.

Lemma finite_nonneg_lt_overflow m e :
  0 <= m <= 2 ^ 53 -> finite_nonneg (finish false m e) ->
  (F2R m e < bpow 1024)%R.
Proof.
  intros Hm. unfold finish.
  destruct (Z.eqb_spec m 0) as [->|Hnz].
  - intros _. unfold F2R. pose proof (bpow_pos 1024). lra.
  - destruct (Z.eqb_spec m (2 ^ 53)) as [->|Hnc].
    + destruct (Z.leb_spec (e + 1) 971); [|done]. intros _.
      rewrite F2R_pow2 by lia. apply bpow_lt. lia.
    + destruct (Z.leb_spec e 971); [|done]. intros _.
      apply Rlt_le_trans with (F2R (2 ^ 53) e); [apply F2R_lt; lia|].
      rewrite F2R_pow2 by lia. apply bpow_le. lia.
Qed.

Lemma overflow_ge m e :
  cell m e -> forall m2, m <= m2 <= 2 ^ 53 -> m2 <> 0 ->
  971 < e + (if m2 =? 2 ^ 53 then 1 else 0) ->
  (bpow 1024 <= F2R m2 e)%R.
Proof.
  intros (Hm & He & Hn) m2 Hm2 Hnz Hov.
  destruct (Z.eqb_spec m2 (2 ^ 53)) as [->|Hnc].
  - rewrite F2R_pow2 by lia. apply bpow_le. lia.
  - apply Rle_trans with (F2R (2 ^ 52) e); [|apply F2R_le; lia].
    rewrite F2R_pow2 by lia. apply bpow_le. lia.
Qed.

(** Rounding does not cross a binary64 number above the real. *)
Lemma rounds_to_le v x mB eB :
  rounds_to v x -> 0 <= mB <= 2 ^ 53 -> -1074 <= eB ->
  (F2R mB eB < bpow 1024)%R -> (v <= F2R mB eB)%R ->
  finite_nonneg x /\ (SF2R x <= F2R mB eB)%R.
Proof.
  intros (m & e & l & Hc & Hl & ->) HmB HeB Hmax Hv.
  set (m2 := round_nearest_even m l).
  pose proof (located_succ v m e l Hl) as Hb.
  pose proof (bpow_pos e) as Hpos.
  assert (m <= m2 <= m + 1 /\ (F2R m2 e <= F2R mB eB)%R) as [Hm2 Hle].
  { destruct (round_nearest_even_located v m e l Hl) as [[Hr Hv']|[Hr Hv']];
      fold m2 in Hr; rewrite Hr.
    - split; [lia|lra].
    - split; [lia|]. apply grid_above; [done|done|done|lra]. }
  destruct Hc as (Hm & He & Hn).
  destruct (finish_cases m2 e ltac:(lia)) as [(_ & Hnz & Hov)|[Hfin Hval]].
  - pose proof (overflow_ge m e ltac:(done) m2 ltac:(lia) Hnz Hov). lra.
  - split; [done|]. by rewrite Hval.
Qed.

(** Rounding does not cross a binary64 number below the real. *)
Lemma rounds_to_ge v x mB eB :
  rounds_to v x -> 0 <= mB <= 2 ^ 53 -> -1074 <= eB ->
  (F2R mB eB <= v)%R ->
  x = S754_infinity false \/
  (finite_nonneg x /\ (F2R mB eB <= SF2R x)%R).
Proof.
  intros (m & e & l & Hc & Hl & ->) HmB HeB Hv.
  set (m2 := round_nearest_even m l).
  pose proof (located_succ v m e l Hl) as Hb.
  assert (F2R mB eB <= F2R m e)%R as Hle
    by (apply grid_below; [done|done|done|lra]).
  assert (m <= m2 <= m + 1) as Hm2.
  { destruct (round_nearest_even_cases m l) as [Hr|Hr]; fold m2 in Hr; lia. }
  destruct Hc as (Hm & He & Hn).
  destruct (finish_cases m2 e ltac:(lia)) as [(Hinf & _)|[Hfin Hval]].
  - by left.
  - right. split; [done|]. rewrite Hval.
    apply Rle_trans with (F2R m e); [done|apply F2R_le; lia].
Qed.

Lemma rounds_to_finite_lt_overflow v x :
  rounds_to v x -> finite_nonneg x -> (SF2R x < bpow 1024)%R.
Proof.
  intros (m & e & l & Hc & Hl & ->) Hfin.
  assert (0 <= round_nearest_even m l <= 2 ^ 53) as Hm2.
  { destruct Hc as (Hm & _).
    destruct (round_nearest_even_cases m l) as [Hr|Hr]; lia. }
  destruct (finish_cases _ e Hm2) as [(Hinf & _)|[_ Hval]].
  - by rewrite Hinf in Hfin.
  - rewrite Hval. by apply finite_nonneg_lt_overflow.
Qed.

Lemma rounds_to_nonneg v x : rounds_to v x -> (0 <= SF2R x)%R.
Proof.
  intros (m & e & l & Hc & Hl & ->).
  assert (0 <= round_nearest_even m l <= 2 ^ 53) as Hm2.
  { destruct Hc as (Hm & _).
    destruct (round_nearest_even_cases m l) as [Hr|Hr]; lia. }
  destruct (finish_cases _ e Hm2) as [(-> & _)|[_ ->]]; [simpl; lra|].
  unfold F2R. pose proof (bpow_pos e).
  assert (0 <= IZR (round_nearest_even m l))%R by (apply IZR_le; lia). nra.
Qed.

(** Rounding is monotone. *)
Lemma rounds_to_mono v1 x1 v2 x2 :
  rounds_to v1 x1 -> rounds_to v2 x2 -> (v1 <= v2)%R ->
  finite_nonneg x2 ->
  finite_nonneg x1 /\ (SF2R x1 <= SF2R x2)%R.
Proof.
  intros H1 H2 Hv Hfin2.
  pose proof (rounds_to_finite_lt_overflow v2 x2 H2 Hfin2) as Hmax.
  destruct H2 as (m & e & l & Hc & Hl & ->).
  set (m2 := round_nearest_even m l) in *.
  assert (0 <= m2 <= 2 ^ 53) as Hm2.
  { destruct Hc as (Hm & _).
    destruct (round_nearest_even_cases m l) as [Hr|Hr]; fold m2 in Hr; lia. }
  destruct (finish_cases m2 e Hm2) as [(Hinf & _)|[_ Hval]];
    [by rewrite Hinf in Hfin2|].
  rewrite Hval in *.
  destruct (Rle_lt_dec v1 (F2R m2 e)) as [Hle|Hgt].
  - apply (rounds_to_le v1 x1 m2 e); [done|done| |done|done].
    destruct Hc as (_ & He & _). lia.
  - pose proof (located_succ v2 m e l Hl) as Hb.
    pose proof (bpow_pos e) as Hpos.
    destruct (round_nearest_even_located v2 m e l Hl) as [[Hr Hv2]|[Hr Hv2]];
      fold m2 in Hr.
    2: { rewrite Hr in Hgt. lra. }
    assert (round_nearest_even m l = m) as Hrne by exact Hr.
    rewrite Hr in *.
    assert (exists l1, located v1 m e l1 /\ round_nearest_even m l1 = m)
      as (l1 & Hl1 & Hr1).
    { destruct l as [|[| |]]; simpl in Hl, Hrne.
      - lra.
      - destruct (Req_dec v1 (F2R m e + bpow e / 2)) as [Heq|Hne].
        + exists (loc_Inexact Eq). done.
        + exists (loc_Inexact Lt). split; [simpl; lra|done].
      - exists (loc_Inexact Lt). split; [simpl; lra|done].
      - lia. }
    rewrite (rounds_to_cell v1 x1 m e l1 H1 Hc Hl1), Hr1.
    split; [|rewrite Hval; lra]. done.
Qed.


(** In the normal range, rounding up adds at most [2^-53] of the real. *)
Lemma rounds_to_relerr v x :
  rounds_to v x -> finite_nonneg x -> (bpow (-1022) <= v)%R ->
  (SF2R x <= v * (1 + bpow (-53)))%R.
Proof.
  intros (m & e & l & Hc & Hl & ->) Hfin Hnormal.
  set (m2 := round_nearest_even m l) in *.
  pose proof (located_succ v m e l Hl) as Hb.
  pose proof (bpow_pos e) as Hpos. pose proof (bpow_pos (-53)) as Hpos53.
  assert (0 <= m2 <= 2 ^ 53) as Hm2.
  { destruct Hc as (Hm & _).
    destruct (round_nearest_even_cases m l) as [Hr|Hr]; fold m2 in Hr; lia. }
  destruct (finish_cases m2 e Hm2) as [(Hinf & _)|[_ ->]];
    [by rewrite Hinf in Hfin|].
  assert (0 <= F2R m e)%R.
  { unfold F2R. destruct Hc as (Hm & _).
    assert (0 <= IZR m)%R by (apply IZR_le; lia). nra. }
  destruct (round_nearest_even_located v m e l Hl) as [[Hr Hv]|[Hr Hv]];
    fold m2 in Hr; rewrite Hr.
  - nra.
  - rewrite F2R_succ. destruct Hc as (Hm & He & Hn).
    destruct (Z.le_gt_cases (2 ^ 52) m) as [Hn'|Hsub].
    + assert (bpow e / 2 <= F2R m e * bpow (-53))%R; [|nra].
      apply Rle_trans with (F2R (2 ^ 52) e * bpow (-53))%R.
      * rewrite F2R_pow2 by lia. rewrite <- bpow_add.
        replace (52 + e + -53) with (e - 1) by lia. rewrite bpow_pred. lra.
      * apply Rmult_le_compat_r; [lra|]. apply F2R_le. lia.
    + assert (e = -1074) as -> by lia.
      assert (F2R (m + 1) (-1074) <= F2R (2 ^ 52) (-1074))%R
        by (apply F2R_le; lia).
      rewrite F2R_pow2 in H0 by lia. change (52 + -1074) with (-1022) in H0.
      lra.
Qed.

Lemma F2R_one : F2R (2 ^ 52) (-52) = 1%R.
Proof. rewrite F2R_pow2 by lia. reflexivity. Qed.

Definition SF_one : spec_float := S754_finite false (2 ^ 52) (-52).

(** A real up to the midpoint between 1 and its successor rounds to at
    most 1. *)
Lemma rounds_to_le_one v x :
  rounds_to v x -> (v <= 1 + bpow (-53))%R ->
  finite_nonneg x /\ (SF2R x <= 1)%R.
Proof.
  intros Hx Hv. destruct (Rle_lt_dec v 1) as [Hle|Hgt].
  - rewrite <- F2R_one.
    apply (rounds_to_le v x); [done|lia|lia| |by rewrite F2R_one].
    rewrite F2R_one. change 1%R with (bpow 0). apply bpow_lt. lia.
  - assert (cell (2 ^ 52) (-52)) as Hc by (unfold cell; lia).
    assert (bpow (-52) / 2 = bpow (-53))%R as Hhalf.
    { change (-53) with (-52 - 1). rewrite bpow_pred. lra. }
    assert (exists l, located v (2 ^ 52) (-52) l /\
                      round_nearest_even (2 ^ 52) l = 2 ^ 52)
      as (l & Hl & Hr).
    { destruct (Req_dec v (1 + bpow (-53))) as [Heq|Hne].
      - exists (loc_Inexact Eq). split; [|done]. simpl.
        rewrite F2R_one, Hhalf. done.
      - exists (loc_Inexact Lt). split; [|done]. simpl.
        rewrite F2R_one, Hhalf. lra. }
    rewrite (rounds_to_cell v x _ _ l Hx Hc Hl), Hr.
    change (finish false (2 ^ 52) (-52)) with SF_one.
    split; [done|]. simpl. change (Z.pos (2 ^ 52)) with (2 ^ 52).
    rewrite F2R_one. lra.
Qed.

(** A real in the lower half of a cell rounds to the lower end. *)
Lemma rounds_to_near v x m e :
  rounds_to v x -> cell m e ->
  (F2R m e <= v < F2R m e + bpow e / 2)%R ->
  x = finish false m e.
Proof.
  intros Hx Hc Hv. destruct (Req_dec v (F2R m e)) as [Heq|Hne].
  - by rewrite (rounds_to_cell v x m e loc_Exact Hx Hc Heq).
  - rewrite (rounds_to_cell v x m e (loc_Inexact Lt) Hx Hc); [done|].
    simpl. lra.
Qed.

(** The result of a rounding is a valid binary64 number. *)
Lemma rounds_to_valid v x : rounds_to v x -> valid_binary x = true.
Proof.
  intros (m & e & l & (Hm & He & Hn) & Hl & ->).
  set (m2 := round_nearest_even m l).
  assert (m <= m2 <= m + 1) as Hm2.
  { destruct (round_nearest_even_cases m l) as [Hr|Hr]; fold m2 in Hr; lia. }
  unfold finish. destruct (Z.eqb_spec m2 0) as [Hz|Hnz]; [done|].
  destruct (Z.eqb_spec m2 (2 ^ 53)) as [Hcarry|Hnc].
  - destruct (Z.leb_spec (e + 1) 971) as [Hle|]; [|done].
    simpl. unfold SpecFloat.bounded, canonical_mantissa.
    change (Z.pos (digits2_pos (2 ^ 52))) with 53. rewrite fexp_eq.
    change (emax - prec) with 971.
    apply andb_true_intro. split; [apply Z.eqb_eq|apply Z.leb_le]; lia.
  - destruct (Z.leb_spec e 971) as [Hle|]; [|done].
    simpl. unfold SpecFloat.bounded, canonical_mantissa.
    assert (Z.pos (digits2_pos (Z.to_pos m2)) = Zdigits2 m2) as ->
      by (destruct m2; try lia; done).
    pose proof (Zdigits2_bounds m2 ltac:(lia)) as Hd.
    assert (Zdigits2 m2 <= 53).
    { destruct (Z.le_gt_cases (Zdigits2 m2) 53); [done|].
      assert (2 ^ 53 <= 2 ^ (Zdigits2 m2 - 1))
        by (apply Z.pow_le_mono_r; lia). lia. }
    rewrite fexp_eq. change (emax - prec) with 971.
    apply andb_true_intro. split; [apply Z.eqb_eq|apply Z.leb_le; lia].
    destruct Hn as [Hn|Hn]; [|lia].
    assert (53 <= Zdigits2 m2); [|lia].
    destruct (Z.le_gt_cases 53 (Zdigits2 m2)); [done|].
    assert (2 ^ Zdigits2 m2 <= 2 ^ 52) by (apply Z.pow_le_mono_r; lia). lia.
Qed.

Lemma located_exists m e l : exists v, located v m e l.
Proof.
  pose proof (bpow_pos e).
  destruct l as [|[| |]]; simpl.
  - by eexists.
  - by eexists.
  - exists (F2R m e + bpow e / 4)%R. lra.
  - exists (F2R m e + 3 * bpow e / 4)%R. lra.
Qed.

(** Rounding a nonnegative mantissa never gives NaN (nor a negative
    zero, for the sign +). *)
Lemma binary_round_aux_not_nan s mx ex lx :
  0 <= mx ->
  match binary_round_aux prec emax s mx ex lx with
  | S754_nan => False
  | S754_zero s' | S754_infinity s' | S754_finite s' _ _ => s' = s
  end.
Proof.
  intros Hmx. unfold binary_round_aux, shr_fexp.
  destruct (located_exists mx ex lx) as [v Hv].
  pose proof (shr_spec mx ex lx
                (fexp prec emax (Zdigits2 mx + ex) - ex) v Hmx Hv) as H1.
  destruct (shr (shr_record_of_loc mx lx) ex
              (fexp prec emax (Zdigits2 mx + ex) - ex)) as [mrs e1].
  destruct H1 as (Hm1 & _ & _).
  set (m2 := round_nearest_even (shr_m mrs) (loc_of_shr_record mrs)).
  assert (0 <= m2) as Hm2.
  { assert (0 <= shr_m mrs).
    { rewrite Hm1. apply Z.div_pos; [done|]. apply Z.pow_pos_nonneg; lia. }
    destruct (round_nearest_even_cases (shr_m mrs) (loc_of_shr_record mrs))
      as [Hr|Hr]; fold m2 in Hr; lia. }
  pose proof (shr_spec m2 e1 loc_Exact
                (fexp prec emax (Zdigits2 m2 + e1) - e1) (F2R m2 e1)
                Hm2 eq_refl) as H2.
  destruct (shr (shr_record_of_loc m2 loc_Exact) e1
              (fexp prec emax (Zdigits2 m2 + e1) - e1)) as [mrs2 e2].
  destruct H2 as (Hm3 & _ & _).
  assert (0 <= shr_m mrs2).
  { rewrite Hm3. apply Z.div_pos; [done|]. apply Z.pow_pos_nonneg; lia. }
  destruct (shr_m mrs2); try lia; [done|].
  by destruct (e2 <=? emax - prec).
Qed.


(** ** The operations on nonnegative numbers *)

Lemma bounded_cell m e :
  SpecFloat.bounded prec emax m e = true -> cell (Z.pos m) e /\ e <= 971.
Proof.
  unfold SpecFloat.bounded, canonical_mantissa. rewrite fexp_eq.
  change (emax - prec) with 971.
  intros [Hc He]%andb_true_iff. apply Z.eqb_eq in Hc. apply Z.leb_le in He.
  pose proof (Zdigits2_bounds (Z.pos m) ltac:(lia)) as Hd.
  change (Zdigits2 (Z.pos m)) with (Z.pos (digits2_pos m)) in Hd.
  set (d := Z.pos (digits2_pos m)) in *.
  split; [|done]. unfold cell. split; [|split; [lia|]].
  - split; [lia|].
    assert (2 ^ d <= 2 ^ 53) by (apply Z.pow_le_mono_r; lia). lia.
  - destruct (Z.eq_dec e (-1074)); [by right|left].
    assert (d = 53) as Hd53 by lia. rewrite Hd53 in Hd. simpl in Hd. lia.
Qed.

Lemma finish_cell m e :
  cell (Z.pos m) e -> e <= 971 ->
  finish false (Z.pos m) e = S754_finite false m e.
Proof.
  intros (Hm & He & Hn) Hle. unfold finish.
  destruct (Z.eqb_spec (Z.pos m) 0); [lia|].
  destruct (Z.eqb_spec (Z.pos m) (2 ^ 53)); [lia|].
  by destruct (Z.leb_spec e 971); [|lia].
Qed.

Lemma rounds_to_zero : rounds_to 0 (S754_zero false).
Proof.
  exists 0, (-1074), loc_Exact. split; [unfold cell; lia|].
  split; [|done]. simpl. unfold F2R. lra.
Qed.

(** A valid nonnegative number is its own rounding. *)
Lemma rounds_to_self x :
  finite_nonneg x -> valid_binary x = true -> rounds_to (SF2R x) x.
Proof.
  destruct x as [[|]|[|]| |[|] m e]; try done; intros _ Hv.
  - apply rounds_to_zero.
  - simpl in Hv. apply bounded_cell in Hv as [Hc He].
    exists (Z.pos m), e, loc_Exact. split; [done|]. split; [done|].
    simpl. by rewrite finish_cell.
Qed.

Lemma Zdigits2_ge m k : 0 <= k -> 2 ^ k <= m -> k + 1 <= Zdigits2 m.
Proof.
  intros Hk Hm. assert (0 < 2 ^ k) by (apply Z.pow_pos_nonneg; lia).
  pose proof (Zdigits2_bounds m ltac:(lia)) as Hd.
  destruct (Z.le_gt_cases (k + 1) (Zdigits2 m)); [done|].
  assert (2 ^ Zdigits2 m <= 2 ^ k).
  { apply Z.pow_le_mono_r; lia. }
  lia.
Qed.

Lemma mul_rounds x y :
  finite_nonneg x -> finite_nonneg y ->
  valid_binary x = true -> valid_binary y = true ->
  rounds_to (SF2R x * SF2R y) (SF64mul x y).
Proof.
  destruct x as [[|]|[|]| |[|] mx ex], y as [[|]|[|]| |[|] my ey]; try done;
    intros _ _ Hvx Hvy; simpl.
  - rewrite Rmult_0_l. apply rounds_to_zero.
  - rewrite Rmult_0_l. apply rounds_to_zero.
  - rewrite Rmult_0_r. apply rounds_to_zero.
  - simpl in Hvx, Hvy.
    apply bounded_cell in Hvx as [(Hmx & Hex & Hnx) _].
    apply bounded_cell in Hvy as [(Hmy & Hey & Hny) _].
    apply binary_round_aux_rounds; [lia| |].
    + rewrite fexp_eq.
      destruct (Z.le_gt_cases (2 ^ 52) (Z.pos (mx * my))) as [Hbig|Hsmall].
      * pose proof (Zdigits2_ge (Z.pos (mx * my)) 52 ltac:(lia) Hbig). lia.
      * assert (ex = -1074 /\ ey = -1074) as [-> ->]; [|lia].
        rewrite Pos2Z.inj_mul in Hsmall. split.
        -- destruct Hnx as [Hnx|]; [|done]. nia.
        -- destruct Hny as [Hny|]; [|done]. nia.
    + simpl. unfold F2R. rewrite Pos2Z.inj_mul, mult_IZR, bpow_add. lra.
Qed.


Lemma iter_xO_pow2 m d : Z.pos (Pos.iter xO m d) = Z.pos m * 2 ^ Z.pos d.
Proof.
  rewrite (Pos.iter_swap_gen _ _ Z.pos xO (Z.mul 2)) by done.
  change (Pos.iter (Z.mul 2) (Z.pos m) d) with (Z.shiftl (Z.pos m) (Z.pos d)).
  apply Z.shiftl_mul_pow2. lia.
Qed.

Lemma shl_align_spec mx ex ex' :
  let '(m', e') := shl_align mx ex ex' in
  e' = Z.min ex ex' /\ Z.pos m' = Z.pos mx * 2 ^ (ex - e').
Proof.
  unfold shl_align. destruct (ex' - ex) as [|d|d] eqn:Hd.
  - split; [lia|]. rewrite Z.sub_diag. lia.
  - split; [lia|]. rewrite Z.sub_diag. lia.
  - split; [lia|]. rewrite iter_xO_pow2. do 2 f_equal. lia.
Qed.

Lemma Zdigits2_shift m k :
  0 < m -> 0 <= k -> Zdigits2 (m * 2 ^ k) = Zdigits2 m + k.
Proof.
  intros Hm Hk. pose proof (Zdigits2_bounds m Hm) as Hd.
  assert (0 < Zdigits2 m) by (destruct m; simpl; lia).
  assert (0 < 2 ^ k) by (apply Z.pow_pos_nonneg; lia).
  apply Zdigits2_unique; [|lia].
  replace (Zdigits2 m + k - 1) with (Zdigits2 m - 1 + k) by lia.
  rewrite !Z.pow_add_r by lia. nia.
Qed.

(** [binary_round] rounds [m * 2^e], whatever [m] and [e]. *)
Lemma binary_round_rounds m e :
  rounds_to (F2R (Z.pos m) e) (binary_round prec emax false m e).
Proof.
  unfold binary_round.
  pose proof (shl_align_spec m e (fexp prec emax (Z.pos (digits2_pos m) + e)))
    as Hal.
  destruct (shl_align m e (fexp prec emax (Z.pos (digits2_pos m) + e)))
    as [mz ez].
  destruct Hal as [Hez Hmz].
  apply binary_round_aux_rounds; [lia| |].
  - rewrite Hmz, Zdigits2_shift by lia.
    change (Zdigits2 (Z.pos m)) with (Z.pos (digits2_pos m)).
    replace (Z.pos (digits2_pos m) + (e - ez) + ez)
      with (Z.pos (digits2_pos m) + e) by lia. lia.
  - simpl. rewrite Hmz. apply F2R_shift. lia.
Qed.

Lemma add_rounds x y :
  finite_nonneg x -> finite_nonneg y ->
  valid_binary x = true -> valid_binary y = true ->
  rounds_to (SF2R x + SF2R y) (SF64add x y).
Proof.
  destruct x as [[|]|[|]| |[|] mx ex], y as [[|]|[|]| |[|] my ey]; try done;
    intros _ _ Hvx Hvy.
  - simpl. rewrite Rplus_0_l. apply rounds_to_zero.
  - change (SF64add (S754_zero false) (S754_finite false my ey))
      with (S754_finite false my ey).
    simpl (SF2R (S754_zero false)). rewrite Rplus_0_l.
    by apply rounds_to_self.
  - change (SF64add (S754_finite false mx ex) (S754_zero false))
      with (S754_finite false mx ex).
    simpl (SF2R (S754_zero false)). rewrite Rplus_0_r.
    by apply rounds_to_self.
  - unfold SF64add, SFadd, cond_Zopp.
    pose proof (shl_align_spec mx ex (Z.min ex ey)) as Hax.
    pose proof (shl_align_spec my ey (Z.min ex ey)) as Hay.
    destruct (shl_align mx ex (Z.min ex ey)) as [mx' ex'].
    destruct (shl_align my ey (Z.min ex ey)) as [my' ey'].
    destruct Hax as [Hex' Hmx'], Hay as [Hey' Hmy']. simpl fst.
    change (Z.pos mx' + Z.pos my') with (Z.pos (mx' + my')).
    cbn [binary_normalize].
    replace (SF2R _ + SF2R _)%R with (F2R (Z.pos (mx' + my')) (Z.min ex ey)).
    + apply binary_round_rounds.
    + simpl. rewrite (F2R_shift (Z.pos mx) ex (Z.min ex ey)) by lia.
      rewrite (F2R_shift (Z.pos my) ey (Z.min ex ey)) by lia.
      replace ex' with (Z.min ex ey) in Hmx' by lia.
      replace ey' with (Z.min ex ey) in Hmy' by lia.
      rewrite <- Hmx', <- Hmy'. unfold F2R.
      rewrite Pos2Z.inj_add, plus_IZR. lra.
Qed.

(** [1 - y] for [0 <= y <= 1] is a nonnegative number. *)
Lemma sub_one_nonneg y :
  finite_nonneg y -> (SF2R y <= 1)%R -> finite_nonneg (SF64sub SF_one y).
Proof.
  destruct y as [[|]|[|]| |[|] my ey]; try done; intros _ Hy.
  unfold SF64sub, SF_one, SFsub, cond_Zopp.
  pose proof (shl_align_spec (2 ^ 52) (-52) (Z.min (-52) ey)) as Hax.
  pose proof (shl_align_spec my ey (Z.min (-52) ey)) as Hay.
  destruct (shl_align (2 ^ 52) (-52) (Z.min (-52) ey)) as [mx' ex'].
  destruct (shl_align my ey (Z.min (-52) ey)) as [my' ey'].
  destruct Hax as [Hex' Hmx'], Hay as [Hey' Hmy']. simpl fst.
  replace ex' with (Z.min (-52) ey) in Hmx' by lia.
  replace ey' with (Z.min (-52) ey) in Hmy' by lia.
  set (ez := Z.min (-52) ey) in *.
  assert (F2R (Z.pos mx') ez = 1%R) as H1.
  { rewrite Hmx', <- (F2R_shift _ (-52) ez) by lia. apply F2R_one. }
  assert (F2R (Z.pos my') ez = F2R (Z.pos my) ey) as H2.
  { rewrite Hmy'. symmetry. apply F2R_shift. lia. }
  simpl in Hy.
  assert (Z.pos my' <= Z.pos mx') as Hle.
  { apply (F2R_le_inv _ _ ez). lra. }
  destruct (Z.pos mx' - Z.pos my') as [|p|p] eqn:Hd; try lia; [done|].
  cbn [binary_normalize].
  apply (rounds_to_le (F2R (Z.pos p) ez) _ (2 ^ 52) (-52));
    [apply binary_round_rounds|lia|lia| |].
  - rewrite F2R_one. change 1%R with (bpow 0). apply bpow_lt. lia.
  - rewrite F2R_one. rewrite <- Hd. unfold F2R in *.
    rewrite minus_IZR.
    assert (0 <= IZR (Z.pos my') * bpow ez)%R; [|lra].
    pose proof (bpow_pos ez). assert (0 <= IZR (Z.pos my'))%R; [|nra].
    apply IZR_le. lia.
Qed.

(** Not NaN, and not negative: [+0], a positive number or [+infinity]. *)
Definition nonneg_class (x : spec_float) : Prop :=
  match x with
  | S754_zero false | S754_infinity false | S754_finite false _ _ => True
  | _ => False
  end.

Lemma finite_nonneg_class x : finite_nonneg x -> nonneg_class x.
Proof. by destruct x as [[|]|[|]| |[|] m e]. Qed.

Lemma binary_round_aux_nonneg_class mx ex lx :
  0 <= mx -> nonneg_class (binary_round_aux prec emax false mx ex lx).
Proof.
  intros Hmx. pose proof (binary_round_aux_not_nan false mx ex lx Hmx) as H.
  destruct (binary_round_aux prec emax false mx ex lx)
    as [[|]|[|]| |[|] m e]; done.
Qed.

(** The square root of a nonnegative number is not NaN. *)
Lemma sqrt_nonneg_class x : finite_nonneg x -> nonneg_class (SF64sqrt x).
Proof.
  destruct x as [[|]|[|]| |[|] mx ex]; try done; intros _.
  unfold SF64sqrt, SFsqrt, SFsqrt_core_binary.
  set (m' := match ex - 2 * _ with
             | 0 => Z.pos mx
             | Z.pos _ => Z.shiftl (Z.pos mx) _
             | Z.neg _ => 0
             end).
  assert (0 <= m') as Hm'.
  { subst m'. destruct (ex - 2 * _); [lia| |lia].
    apply Z.shiftl_nonneg. lia. }
  pose proof (Z.sqrtrem_spec m' Hm') as Hs.
  destruct (Z.sqrtrem m') as [q r].
  apply binary_round_aux_nonneg_class. nia.
Qed.


Lemma binary_round_nonneg_class m e :
  nonneg_class (binary_round prec emax false m e).
Proof.
  unfold binary_round. destruct (shl_align m e _) as [mz ez].
  apply binary_round_aux_nonneg_class. lia.
Qed.

(** Sums of numbers that are neither negative nor NaN are neither. *)
Lemma add_nonneg_class x y :
  nonneg_class x -> nonneg_class y -> nonneg_class (SF64add x y).
Proof.
  destruct x as [[|]|[|]| |[|] mx ex], y as [[|]|[|]| |[|] my ey]; try done;
    intros _ _.
  unfold SF64add, SFadd, cond_Zopp.
  destruct (shl_align mx ex (Z.min ex ey)) as [mx' ex'].
  destruct (shl_align my ey (Z.min ex ey)) as [my' ey']. simpl fst.
  change (Z.pos mx' + Z.pos my') with (Z.pos (mx' + my')).
  cbn [binary_normalize]. apply binary_round_nonneg_class.
Qed.

(** ** Division *)

Lemma new_location_spec nb k :
  0 <= k < nb ->
  match new_location nb k with
  | loc_Exact => k = 0
  | loc_Inexact Lt => 0 < 2 * k < nb
  | loc_Inexact Eq => 2 * k = nb
  | loc_Inexact Gt => nb < 2 * k
  end.
Proof.
  intros Hk. unfold new_location, new_location_even, new_location_odd.
  destruct (Z.even nb) eqn:Heven; destruct (Z.eqb_spec k 0) as [|Hnz];
    try done.
  - destruct (Z.compare_spec (2 * k) nb); lia.
  - assert (Z.odd nb = true) as Hodd by (by rewrite <- Z.negb_even, Heven).
    apply Z.odd_spec in Hodd as [j Hj].
    destruct (Z.compare_spec (2 * k + 1) nb); lia.
Qed.

Lemma div_core_spec m1 e1 m2 e2 :
  0 < m1 -> 0 < m2 ->
  let '(q, e', l) := SFdiv_core_binary prec emax m1 e1 m2 e2 in
  0 <= q /\ located (F2R m1 e1 / F2R m2 e2) q e' l /\
  e' <= fexp prec emax (Zdigits2 q + e').
Proof.
  intros Hm1 Hm2. unfold SFdiv_core_binary.
  set (D := Zdigits2 m1 + e1 - (Zdigits2 m2 + e2)).
  set (e' := Z.min (fexp prec emax D) (e1 - e2)).
  set (s := e1 - e2 - e').
  assert (0 <= s) as Hs by lia.
  set (m' := match s with
             | 0 => m1
             | Z.pos _ => Z.shiftl m1 s
             | Z.neg _ => 0
             end).
  assert (m' = m1 * 2 ^ s) as Hm'.
  { subst m'. destruct s as [|p|p] eqn:Hsp; [lia| |lia].
    apply Z.shiftl_mul_pow2. lia. }
  pose proof (Z_div_mod m' m2 ltac:(lia)) as Hdiv.
  destruct (Z.div_eucl m' m2) as [q r]. destruct Hdiv as [Hqr Hr].
  assert (0 < 2 ^ s) as Hpow by (apply Z.pow_pos_nonneg; lia).
  assert (0 <= q) as Hq by nia.
  split; [done|]. split.
  - assert (F2R m1 e1 / F2R m2 e2 =
            F2R q e' + IZR r / IZR m2 * bpow e')%R as ->.
    { rewrite (F2R_shift m1 e1 (e' + e2)) by lia.
      replace (e1 - (e' + e2)) with s by lia. rewrite <- Hm', Hqr.
      unfold F2R. rewrite bpow_add, plus_IZR, mult_IZR.
      pose proof (bpow_pos e2). pose proof (bpow_pos e').
      assert (0 < IZR m2)%R by (apply IZR_lt; lia). field. lra. }
    pose proof (new_location_spec m2 r Hr) as Hloc.
    pose proof (bpow_pos e') as Hpe.
    assert (0 < IZR m2)%R as Hb by (apply IZR_lt; lia).
    set (rho := (IZR r / IZR m2)%R).
    assert (rho * IZR m2 = IZR r)%R as Hrho by (unfold rho; field; lra).
    destruct (new_location m2 r) as [|[| |]]; simpl in Hloc |- *.
    + subst r. unfold rho. simpl. lra.
    + assert (2 * IZR r = IZR m2)%R as H1
        by (rewrite <- mult_IZR; f_equal; lia).
      assert (rho = 1 / 2)%R by nra. nra.
    + assert (0 < IZR r /\ 2 * IZR r < IZR m2)%R as [H1 H2].
      { split; [apply IZR_lt; lia|].
        rewrite <- mult_IZR. apply IZR_lt. lia. }
      assert (0 < rho < 1 / 2)%R by (split; nra). nra.
    + assert (IZR m2 < 2 * IZR r /\ IZR r < IZR m2)%R as [H1 H2].
      { split; [rewrite <- mult_IZR|]; apply IZR_lt; lia. }
      assert (1 / 2 < rho < 1)%R by (split; nra). nra.
  - pose proof (Zdigits2_bounds m1 Hm1) as Hd1.
    pose proof (Zdigits2_bounds m2 Hm2) as Hd2.
    assert (0 < Zdigits2 m1) by (destruct m1; simpl; lia).
    assert (0 < Zdigits2 m2) by (destruct m2; simpl; lia).
    assert (2 ^ (Zdigits2 m1 - 1 + s) <= m') as Hlow.
    { rewrite Hm', Z.pow_add_r by lia. nia. }
    destruct (Z.eq_dec q 0) as [->|Hqnz].
    + simpl Zdigits2. rewrite fexp_eq.
      assert (m' < 2 ^ Zdigits2 m2) by lia.
      assert (Zdigits2 m1 - 1 + s < Zdigits2 m2).
      { apply (Z.pow_lt_mono_r_iff 2); lia. }
      clearbody m'. unfold s, e', D in *. rewrite !fexp_eq in *. lia.
    + apply Z.le_trans with (fexp prec emax D); [unfold e'; lia|].
      apply fexp_mono.
      set (k := Zdigits2 m1 - 1 + s - Zdigits2 m2).
      assert (k + 1 <= Zdigits2 q); [|unfold k, s, D; lia].
      destruct (Z.le_gt_cases 0 k) as [Hk|Hk].
      * apply Zdigits2_ge; [done|].
        assert (2 ^ k * 2 ^ Zdigits2 m2 <= m').
        { rewrite <- Z.pow_add_r by lia.
          replace (k + Zdigits2 m2) with (Zdigits2 m1 - 1 + s) by lia.
          done. }
        assert (0 < 2 ^ k) by (apply Z.pow_pos_nonneg; lia).
        nia.
      * assert (0 < Zdigits2 q) by (destruct q; simpl; lia). lia.
Qed.

Lemma div_rounds mx ex my ey :
  rounds_to (F2R (Z.pos mx) ex / F2R (Z.pos my) ey)
    (SF64div (S754_finite false mx ex) (S754_finite false my ey)).
Proof.
  unfold SF64div, SFdiv.
  pose proof (div_core_spec (Z.pos mx) ex (Z.pos my) ey
                ltac:(lia) ltac:(lia)) as Hcore.
  destruct (SFdiv_core_binary prec emax (Z.pos mx) ex (Z.pos my) ey)
    as [[q e'] l].
  destruct Hcore as (Hq & Hloc & Hpre). simpl xorb.
  by apply binary_round_aux_rounds.
Qed.

(** ** Conversion from an integer *)

Lemma of_ull_rounds n : 0 <= n -> rounds_to (IZR n) (Prim2SF (of_ull n)).
Proof.
  intros Hn. unfold of_ull. destruct n as [|p|p]; [| |lia].
  - apply rounds_to_zero.
  - cbn [binary_normalize].
    pose proof (binary_round_rounds p 0) as Hr.
    rewrite Prim2SF_SF2Prim by (by apply (rounds_to_valid _ _ Hr)).
    unfold F2R in Hr. rewrite bpow_0, Rmult_1_r in Hr. done.
Qed.


(** ** Comparisons and NaN on primitive floats *)

Lemma Prim2SF_one : Prim2SF 1 = SF_one.
Proof. reflexivity. Qed.

Lemma Prim2SF_half : Prim2SF 0.5 = S754_finite false (2 ^ 52) (-53).
Proof. reflexivity. Qed.

Lemma Prim2SF_zero : Prim2SF 0 = S754_zero false.
Proof. reflexivity. Qed.

Lemma F2R_int m : F2R m 0 = IZR m.
Proof. unfold F2R. rewrite bpow_0. lra. Qed.

Lemma finite_nonneg_pos x :
  finite_nonneg x -> (0 < SF2R x)%R ->
  exists m e, x = S754_finite false m e.
Proof.
  destruct x as [[|]|[|]| |[|] m e]; try done; simpl; intros _ H;
    [lra|by eexists _, _].
Qed.

Lemma compare_cont_le m p :
  Z.pos m <= Z.pos p -> PosDef.Pos.compare_cont Eq m p <> Gt.
Proof.
  intros H Hc. change (Pos.compare m p = Gt) in Hc.
  apply Pos.compare_gt_iff in Hc. lia.
Qed.

Lemma compare_cont_refl m : PosDef.Pos.compare_cont Eq m m = Eq.
Proof. change (Pos.compare m m = Eq). apply Pos.compare_refl. Qed.

Lemma SFleb_one x :
  finite_nonneg x -> valid_binary x = true -> (SF2R x <= 1)%R ->
  SFleb x SF_one = true.
Proof.
  destruct x as [[|]|[|]| |[|] m e]; try done; intros _ Hv Hx.
  simpl in Hv, Hx. apply bounded_cell in Hv as [(Hm & He & Hn) _].
  unfold SFleb, SFcompare, SF_one.
  destruct (Z.compare_spec e (-52)) as [->|Hlt|Hgt]; [|done|].
  - rewrite <- F2R_one in Hx. apply F2R_le_inv in Hx.
    pose proof (compare_cont_le m (2 ^ 52) Hx) as Hc.
    by destruct (PosDef.Pos.compare_cont Eq m (2 ^ 52)).
  - exfalso.
    assert (F2R (2 ^ 52) e <= F2R (Z.pos m) e)%R by (apply F2R_le; lia).
    rewrite F2R_pow2 in H by lia.
    pose proof (bpow_le 1 (52 + e) ltac:(lia)) as Hb. rewrite bpow_1 in Hb.
    lra.
Qed.

Lemma SFleb_zero x : finite_nonneg x -> SFleb (S754_zero false) x = true.
Proof. by destruct x as [[|]|[|]| |[|] m e]. Qed.

Lemma nonneg_class_not_nan (y : float) :
  nonneg_class (Prim2SF y) -> is_nan y = false.
Proof.
  intros Hy. unfold is_nan. rewrite FloatAxioms.eqb_spec. unfold SFeqb, SFcompare.
  destruct (Prim2SF y) as [[|]|[|]| |[|] m e]; try done.
  by rewrite Z.compare_refl, compare_cont_refl.
Qed.

(** Integers up to [2^53] convert exactly. *)
Lemma of_ull_small n :
  0 <= n <= 2 ^ 53 ->
  finite_nonneg (Prim2SF (of_ull n)) /\ SF2R (Prim2SF (of_ull n)) = IZR n.
Proof.
  intros Hn. pose proof (of_ull_rounds n ltac:(lia)) as Hr.
  assert (IZR n < bpow 1024)%R as Hmax.
  { apply Rle_lt_trans with (bpow 53); [|apply bpow_lt; lia].
    rewrite bpow_IZR by lia. apply IZR_le. lia. }
  destruct (rounds_to_le _ _ n 0 Hr) as [Hfin Hup];
    [lia|lia|by rewrite F2R_int|rewrite F2R_int; lra|].
  destruct (rounds_to_ge _ _ n 0 Hr) as [Hinf|[_ Hlow]];
    [lia|lia|rewrite F2R_int; lra| |].
  - by rewrite Hinf in Hfin.
  - rewrite F2R_int in *. split; [done|lra].
Qed.

(** ** The sample points *)

Section Samples.

Variables (N i : Z).
Hypothesis HN : 1 <= N < ULLONG_MOD.
Hypothesis Hi : 0 <= i < N.

Let h : float := main_step_width N.
Let x : float := midpoint i h.

Lemma of_ull_N_bounds :
  finite_nonneg (Prim2SF (of_ull N)) /\
  (1 <= SF2R (Prim2SF (of_ull N)) <= bpow 64)%R.
Proof.
  pose proof (of_ull_rounds N ltac:(lia)) as Hr. unfold ULLONG_MOD in HN.
  assert (1 <= IZR N <= bpow 64)%R as HNR.
  { split; [apply IZR_le; lia|]. rewrite bpow_IZR by lia. apply IZR_le. lia. }
  destruct (rounds_to_le _ _ (2 ^ 52) 12 Hr) as [Hfin Hup]; [lia|lia| | |].
  { rewrite F2R_pow2 by lia. apply bpow_lt. lia. }
  { rewrite F2R_pow2 by lia. change (52 + 12) with 64. lra. }
  rewrite F2R_pow2 in Hup by lia. change (52 + 12) with 64 in Hup.
  destruct (rounds_to_ge _ _ (2 ^ 52) (-52) Hr) as [Hinf|[_ Hlow]];
    [lia|lia|rewrite F2R_one; lra| |].
  - by rewrite Hinf in Hfin.
  - rewrite F2R_one in Hlow. done.
Qed.

(** [M * fl(1 / M) <= 1 + 2^-53]. *)
Lemma step_bounds :
  finite_nonneg (Prim2SF h) /\
  (0 <= SF2R (Prim2SF h))%R /\
  (SF2R (Prim2SF (of_ull N)) * SF2R (Prim2SF h) <= 1 + bpow (-53))%R.
Proof.
  destruct of_ull_N_bounds as [Hfin [Hlo Hhi]].
  destruct (finite_nonneg_pos _ Hfin ltac:(lra)) as (m & e & HM).
  unfold h, main_step_width.
  rewrite FloatAxioms.div_spec, Prim2SF_one, HM in *. simpl in Hlo, Hhi.
  pose proof (div_rounds (2 ^ 52) (-52) m e) as Hr.
  change (Z.pos (2 ^ 52)) with (2 ^ 52) in Hr. rewrite F2R_one in Hr.
  fold SF_one in Hr.
  set (s := SF64div SF_one (S754_finite false m e)) in *.
  set (M := F2R (Z.pos m) e) in *.
  assert (bpow (-64) <= 1 / M <= 1)%R as [Hvlo Hvhi].
  { assert (bpow (-64) * bpow 64 = 1)%R as Hinv
      by (rewrite <- bpow_add; reflexivity).
    pose proof (bpow_pos (-64)). pose proof (bpow_pos 64).
    split.
    - apply Rmult_le_reg_r with M; [lra|]. field_simplify; [|lra]. nra.
    - apply Rmult_le_reg_r with M; [lra|]. field_simplify; [|lra]. lra. }
  destruct (rounds_to_le _ _ (2 ^ 52) (-52) Hr) as [Hfs Hsup];
    [lia|lia| |by rewrite F2R_one|].
  { rewrite F2R_one. change 1%R with (bpow 0). apply bpow_lt. lia. }
  split; [done|]. split; [by apply (rounds_to_nonneg _ _ Hr)|].
  simpl SF2R. fold M.
  pose proof (rounds_to_relerr _ _ Hr Hfs) as Hrel.
  assert (bpow (-1022) <= 1 / M)%R as Hnormal.
  { pose proof (bpow_le (-1022) (-64) ltac:(lia)). lra. }
  specialize (Hrel Hnormal).
  pose proof (bpow_pos (-53)).
  apply Rle_trans with (M * (1 / M * (1 + bpow (-53))))%R.
  - apply Rmult_le_compat_l; lra.
  - field_simplify; [|lra]. lra.
Qed.


Lemma of_ull_i_bounds :
  finite_nonneg (Prim2SF (of_ull i)) /\
  (SF2R (Prim2SF (of_ull i)) <= SF2R (Prim2SF (of_ull N)))%R.
Proof.
  destruct of_ull_N_bounds as [Hfin _].
  apply (rounds_to_mono (IZR i) _ (IZR N)); [| | |done].
  - apply of_ull_rounds. lia.
  - apply of_ull_rounds. lia.
  - apply IZR_le. lia.
Qed.

(** [fl(fl(i) + 0.5) <= fl(N)]. *)
Lemma numerator_bounds :
  finite_nonneg (Prim2SF (of_ull i + 0.5)) /\
  (SF2R (Prim2SF (of_ull i + 0.5)) <= SF2R (Prim2SF (of_ull N)))%R.
Proof.
  destruct of_ull_N_bounds as [HfinN [HloN HhiN]].
  destruct of_ull_i_bounds as [HfinI HleI].
  pose proof (Prim2SF_valid (of_ull i)) as HvI.
  assert (rounds_to (SF2R (Prim2SF (of_ull i)) + 1 / 2)
            (Prim2SF (of_ull i + 0.5))) as Hr.
  { rewrite FloatAxioms.add_spec.
    replace (1 / 2)%R with (SF2R (Prim2SF 0.5)).
    - apply add_rounds; [done|by rewrite Prim2SF_half|done|].
      apply Prim2SF_valid.
    - rewrite Prim2SF_half. simpl.
      change (Z.pos (2 ^ 52)) with (2 ^ 52). rewrite F2R_pow2 by lia.
      change (52 + -53) with (0 - 1). rewrite bpow_pred, bpow_0. lra. }
  assert (forall n, 0 <= n <= 2 ^ 53 ->
    (SF2R (Prim2SF (of_ull i)) + 1 / 2 <= IZR n)%R ->
    (IZR n <= SF2R (Prim2SF (of_ull N)))%R ->
    finite_nonneg (Prim2SF (of_ull i + 0.5)) /\
    (SF2R (Prim2SF (of_ull i + 0.5)) <= SF2R (Prim2SF (of_ull N)))%R)
    as Hvia.
  { intros n Hn Hle1 Hle2.
    destruct (rounds_to_le _ _ n 0 Hr) as [Hfin Hup];
      [lia|lia| |by rewrite F2R_int|].
    - rewrite F2R_int.
      apply Rle_lt_trans with (bpow 53); [|apply bpow_lt; lia].
      rewrite bpow_IZR by lia. apply IZR_le. lia.
    - rewrite F2R_int in Hup. split; [done|lra]. }
  assert (forall k, 0 <= k < 2 ^ 53 -> i = k ->
    (SF2R (Prim2SF (of_ull i)) + 1 / 2 <= IZR (k + 1))%R) as Hexact.
  { intros k Hk ->. destruct (of_ull_small k ltac:(lia)) as [_ ->].
    rewrite plus_IZR. lra. }
  destruct (Z.le_gt_cases N (2 ^ 53)) as [Hsmall|Hbig].
  - destruct (of_ull_small N ltac:(lia)) as [_ HN'].
    apply (Hvia N); [lia| |lra].
    apply Rle_trans with (IZR (i + 1)); [apply Hexact; lia|].
    apply IZR_le. lia.
  - assert (bpow 53 <= SF2R (Prim2SF (of_ull N)))%R as HbigN.
    { destruct (rounds_to_ge _ _ (2 ^ 53) 0 (of_ull_rounds N ltac:(lia)))
        as [Hinf|[_ Hlow]]; [lia|lia| | |].
      - rewrite F2R_int. apply IZR_le. lia.
      - by rewrite Hinf in HfinN.
      - by rewrite F2R_pow2 in Hlow by lia. }
    destruct (Z.lt_ge_cases i (2 ^ 53)) as [Hi53|Hi53].
    + apply (Hvia (2 ^ 53)); [lia| |by rewrite <- bpow_IZR by lia].
      apply Rle_trans with (IZR (i + 1)); [apply Hexact; lia|].
      apply IZR_le. lia.
    + assert (bpow 53 <= SF2R (Prim2SF (of_ull i)))%R as HbigI.
      { destruct (rounds_to_ge _ _ (2 ^ 53) 0 (of_ull_rounds i ltac:(lia)))
          as [Hinf|[_ Hlow]]; [lia|lia| | |].
        - rewrite F2R_int. apply IZR_le. lia.
        - by rewrite Hinf in HfinI.
        - by rewrite F2R_pow2 in Hlow by lia. }
      pose proof (bpow_pos 53) as Hp53.
      destruct (finite_nonneg_pos _ HfinI ltac:(lra)) as (m & e & HI).
      rewrite HI in *. simpl in HvI, HbigI, Hr.
      apply bounded_cell in HvI as [Hc He].
      assert (1 <= e) as He1.
      { destruct (Z.le_gt_cases 1 e); [done|exfalso].
        destruct Hc as (Hm & _).
        assert (F2R (Z.pos m) e < bpow 53)%R; [|lra].
        apply Rlt_le_trans with (F2R (2 ^ 53) e); [apply F2R_lt; lia|].
        rewrite F2R_pow2 by lia. apply bpow_le. lia. }
      assert (Prim2SF (of_ull i + 0.5) = S754_finite false m e) as ->.
      { rewrite <- (finish_cell m e Hc He).
        apply (rounds_to_near _ _ _ _ Hr Hc).
        pose proof (bpow_le 1 e He1) as Hb. rewrite bpow_1 in Hb. lra. }
      split; [done|]. done.
Qed.

(** The sample point is in [0, 1]. *)
Lemma sample_bounds :
  finite_nonneg (Prim2SF x) /\ (SF2R (Prim2SF x) <= 1)%R.
Proof.
  destruct of_ull_N_bounds as [HfinN [HloN HhiN]].
  destruct numerator_bounds as [HfinA HleA].
  destruct step_bounds as (Hfinh & Hh0 & Hprod).
  assert (rounds_to (SF2R (Prim2SF (of_ull i + 0.5)) * SF2R (Prim2SF h))
            (Prim2SF x)) as Hr.
  { unfold x, midpoint. rewrite FloatAxioms.mul_spec.
    apply mul_rounds; [done|done|apply Prim2SF_valid|apply Prim2SF_valid]. }
  apply (rounds_to_le_one _ _ Hr).
  apply Rle_trans with (SF2R (Prim2SF (of_ull N)) * SF2R (Prim2SF h))%R;
    [|done].
  apply Rmult_le_compat_r; done.
Qed.

(** The argument of the square root is not negative, and the square root
    is not NaN. *)
Lemma radicand_nonneg : finite_nonneg (Prim2SF (1 - x * x)%float).
Proof.
  destruct sample_bounds as [Hfin Hle].
  pose proof (Prim2SF_valid x) as Hv.
  pose proof (mul_rounds _ _ Hfin Hfin Hv Hv) as Hr.
  rewrite <- FloatAxioms.mul_spec in Hr.
  pose proof (rounds_to_nonneg _ _ (rounds_to_self _ Hfin Hv)) as H0.
  destruct (rounds_to_le _ _ (2 ^ 52) (-52) Hr) as [Hfy Hy]; [lia|lia| | |].
  - rewrite F2R_one. change 1%R with (bpow 0). apply bpow_lt. lia.
  - rewrite F2R_one. nra.
  - rewrite FloatAxioms.sub_spec, Prim2SF_one.
    apply sub_one_nonneg; [done|by rewrite F2R_one in Hy].
Qed.

Lemma integrand_not_nan : nonneg_class (Prim2SF (f x)).
Proof.
  unfold f. rewrite FloatAxioms.sqrt_spec.
  apply sqrt_nonneg_class, radicand_nonneg.
Qed.

End Samples.

End Binary64.

(** ** The partition, arithmetically *)

Section Partition.

Variables (N T : Z).
Hypothesis HN : 0 <= N < ULLONG_MOD.
Hypothesis HT : 1 <= T <= INT_MAX.

Lemma ull_of_int_T : ull_of_int T = T.
Proof. apply ull_of_int_nonneg. lia. Qed.

Lemma chunk_remainder : N = T * chunk N T + remainder N T.
Proof. unfold chunk, remainder. rewrite ull_of_int_T. apply Z.div_mod. lia. Qed.

Lemma remainder_bound : 0 <= remainder N T < T.
Proof. unfold remainder. rewrite ull_of_int_T. apply Z.mod_pos_bound. lia. Qed.

Lemma chunk_nonneg : 0 <= chunk N T.
Proof. unfold chunk. rewrite ull_of_int_T. apply Z.div_pos; lia. Qed.

Lemma range_start_0 : range_start N T 0 = 0.
Proof. unfold range_start. pose proof remainder_bound. lia. Qed.

Lemma range_start_T : range_start N T T = N.
Proof.
  unfold range_start. pose proof remainder_bound.
  rewrite Z.min_r by lia. pose proof chunk_remainder. lia.
Qed.

Lemma range_length k :
  range_end N T k - range_start N T k =
  chunk N T + (if k <? remainder N T then 1 else 0).
Proof.
  unfold range_end, range_start.
  destruct (Z.ltb_spec k (remainder N T)); lia.
Qed.

Lemma range_start_le k : 0 <= k -> range_start N T k <= range_end N T k.
Proof.
  intros Hk. pose proof (range_length k) as Hl. pose proof chunk_nonneg.
  destruct (k <? remainder N T); lia.
Qed.

Lemma range_start_nonneg k : 0 <= k -> 0 <= range_start N T k.
Proof.
  intros Hk. unfold range_start. pose proof chunk_nonneg.
  pose proof remainder_bound. nia.
Qed.

Lemma range_start_mono j k :
  0 <= j <= k -> range_start N T j <= range_start N T k.
Proof.
  intros Hjk. unfold range_start. pose proof chunk_nonneg.
  assert (j * chunk N T <= k * chunk N T) by nia. lia.
Qed.

Lemma range_end_le_N k : 0 <= k < T -> range_end N T k <= N.
Proof.
  intros Hk. unfold range_end. rewrite <- range_start_T at 2.
  apply range_start_mono. lia.
Qed.

Lemma range_start_ull k : 0 <= k <= T -> is_ull (range_start N T k).
Proof.
  intros Hk. unfold is_ull. split; [apply range_start_nonneg; lia|].
  assert (range_start N T k <= range_start N T T)
    by (apply range_start_mono; lia).
  rewrite range_start_T in *. lia.
Qed.

(** Lines 107-110 compute the next bound without wrapping. *)
Lemma current_end_range k :
  0 <= k < T ->
  current_end N T k (range_start N T k) = range_end N T k.
Proof.
  intros Hk. unfold current_end.
  rewrite (ull_of_int_nonneg k) by lia.
  pose proof (range_length k) as Hl.
  assert (is_ull (range_end N T k))
    by (apply (range_start_ull (k + 1)); lia).
  pose proof (range_start_ull k ltac:(lia)) as Hs.
  pose proof chunk_nonneg. unfold is_ull in *.
  destruct (Z.ltb_spec k (remainder N T)).
  - rewrite (wrap64_small (range_start N T k + chunk N T))
      by (unfold is_ull; lia).
    rewrite wrap64_small by (unfold is_ull; lia). lia.
  - rewrite wrap64_small by (unfold is_ull; lia). lia.
Qed.

End Partition.

(** ** The running sum *)

Lemma midpoint_sum_empty a b h : b <= a -> midpoint_sum a b h = 0%float.
Proof. intros Hab. unfold midpoint_sum. rewrite seqZ_nil by lia. reflexivity. Qed.

Lemma midpoint_sum_snoc a i h :
  a <= i ->
  midpoint_sum a (i + 1) h = (midpoint_sum a i h + f (midpoint i h))%float.
Proof.
  intros Hai. unfold midpoint_sum.
  replace (i + 1 - a) with ((i - a) + 1) by lia.
  rewrite seqZ_app by lia. rewrite foldl_app.
  rewrite (seqZ_cons _ 1) by lia. rewrite (seqZ_nil _ (Z.pred 1)) by lia. simpl.
  replace (a + (i - a)) with i by lia. reflexivity.
Qed.

Lemma total_sum_snoc N T n :
  0 <= n ->
  total_sum N T (n + 1) = (total_sum N T n + partial_sum N T n)%float.
Proof.
  intros Hn. unfold total_sum.
  rewrite seqZ_app by lia. rewrite foldl_app.
  rewrite (seqZ_cons _ 1) by lia. rewrite (seqZ_nil _ (Z.pred 1)) by lia. simpl.
  reflexivity.
Qed.

(** ** [threadFunction] run to completion *)

Section Worker.

Variable data : ThreadData.
Hypothesis Hrange : 0 <= start data <= end_ data.
Hypothesis Hend : end_ data < ULLONG_MOD.

(** Loop invariant of line 61: [partialSum] is the running sum over
    [start, i). *)
Definition loop_inv (fr : Frame) : Prop :=
  match fr with
  | Entry => True
  | Loop i partialSum =>
      start data <= i <= end_ data /\
      partialSum = midpoint_sum (start data) i (step data)
  | Return => False
  end.

Lemma loop_step_inv i partialSum :
  loop_inv (Loop i partialSum) -> i < end_ data ->
  threadFunction_step (Loop i partialSum) data =
    Some (Loop (i + 1) (partialSum + f (midpoint i (step data)))%float, data)
  /\ loop_inv (Loop (i + 1) (partialSum + f (midpoint i (step data)))%float).
Proof.
  intros [Hi Hps] Hlt. simpl.
  destruct (Z.ltb_spec i (end_ data)); [|lia].
  rewrite wrap64_small by (unfold is_ull; lia).
  split; [reflexivity|]. split; [lia|].
  rewrite midpoint_sum_snoc by lia. by rewrite Hps.
Qed.

Lemma loop_exit_step i partialSum :
  loop_inv (Loop i partialSum) -> end_ data <= i ->
  threadFunction_step (Loop i partialSum) data =
    Some (Return,
          set_sum data (midpoint_sum (start data) (end_ data) (step data))).
Proof.
  intros [Hi Hps] Hge. simpl.
  destruct (Z.ltb_spec i (end_ data)); [lia|].
  assert (i = end_ data) as -> by lia. by rewrite Hps.
Qed.

(** From the loop test with [n] iterations left, [n + 1] transitions
    reach the return. *)
Lemma threadFunction_from_loop (n : nat) : forall fuel i partialSum,
  loop_inv (Loop i partialSum) ->
  end_ data - i = Z.of_nat n ->
  (n + 1 <= fuel)%nat ->
  threadFunction_from fuel (Loop i partialSum) data =
    Some (set_sum data (midpoint_sum (start data) (end_ data) (step data))).
Proof.
  induction n as [|n IH]; intros fuel i ps Hinv Hn Hfuel.
  - destruct fuel as [|fuel]; [lia|].
    cbn [threadFunction_from].
    rewrite loop_exit_step by (auto; lia).
    by destruct fuel.
  - destruct fuel as [|fuel]; [lia|].
    cbn [threadFunction_from].
    destruct (loop_step_inv i ps Hinv ltac:(lia)) as [-> Hinv'].
    apply IH; [done|lia|lia].
Qed.

Lemma threadFunction_total fuel :
  (Z.to_nat (end_ data - start data) + 2 <= fuel)%nat ->
  threadFunction fuel data =
    Some (set_sum data (midpoint_sum (start data) (end_ data) (step data))).
Proof.
  intros Hfuel. unfold threadFunction.
  destruct fuel as [|fuel]; [lia|].
  cbn [threadFunction_from threadFunction_step].
  apply (threadFunction_from_loop (Z.to_nat (end_ data - start data))).
  - split; [lia|]. by rewrite midpoint_sum_empty.
  - lia.
  - lia.
Qed.

End Worker.

(** More fuel never changes a result. *)
Lemma threadFunction_from_mono fuel : forall fr data r,
  threadFunction_from fuel fr data = Some r ->
  forall fuel', (fuel <= fuel')%nat -> threadFunction_from fuel' fr data = Some r.
Proof.
  induction fuel as [|fuel IH]; intros fr data r Hrun fuel' Hle.
  - destruct fr; simpl in Hrun; try discriminate.
    destruct fuel'; exact Hrun.
  - destruct fuel' as [|fuel']; [lia|].
    destruct fr; cbn [threadFunction_from] in *; try exact Hrun.
    + destruct (threadFunction_step Entry data) as [[fr' d']|]; [|discriminate].
      apply IH with (fuel' := fuel') in Hrun; [exact Hrun|lia].
    + destruct (threadFunction_step (Loop i partialSum) data) as [[fr' d']|];
        [|discriminate].
      apply IH with (fuel' := fuel') in Hrun; [exact Hrun|lia].
Qed.

(** No transition of [threadFunction] writes [start], [end] or [step]. *)
Lemma threadFunction_step_frame fr data fr' data' :
  threadFunction_step fr data = Some (fr', data') ->
  start data' = start data /\ end_ data' = end_ data /\ step data' = step data.
Proof.
  destruct fr as [|i ps|]; simpl; intros Hstep.
  - by inversion Hstep.
  - destruct (i <? end_ data); by inversion Hstep.
  - discriminate.
Qed.

Lemma threadFunction_from_frame fuel : forall fr data data',
  threadFunction_from fuel fr data = Some data' ->
  start data' = start data /\ end_ data' = end_ data /\ step data' = step data.
Proof.
  induction fuel as [|fuel IH]; intros fr data data' Hrun.
  - destruct fr; simpl in Hrun; try discriminate. by inversion Hrun.
  - destruct fr; cbn [threadFunction_from] in Hrun.
    + destruct (threadFunction_step Entry data) as [[fr' d']|] eqn:Hs;
        [|discriminate].
      apply IH in Hrun as (-> & -> & ->).
      by apply threadFunction_step_frame in Hs.
    + destruct (threadFunction_step (Loop i partialSum) data)
        as [[fr' d']|] eqn:Hs; [|discriminate].
      apply IH in Hrun as (-> & -> & ->).
      by apply threadFunction_step_frame in Hs.
    + by inversion Hrun.
Qed.

(** ** What holds in every reachable state *)

Section System.

Variables (N T : Z).
Hypothesis HN : 0 <= N < ULLONG_MOD.
Hypothesis HT : 1 <= T <= INT_MAX.

(** Worker [k] and its record agree with the sequential computation of
    the [k]-th range. *)
Definition thread_ok (k : nat) (th : Thread) (d : ThreadData) : Prop :=
  match th with
  | Unstarted => True
  | Running Return => False
  | Running fr => d = task N T (Z.of_nat k) /\ loop_inv d fr
  | Completed =>
      d = set_sum (task N T (Z.of_nat k)) (partial_sum N T (Z.of_nat k))
  end.

(** How many threads line 118 has created so far. *)
Definition spawned (p : MainPc) : Z :=
  match p with
  | Partitioning i _ => i
  | _ => T
  end.

(** How many threads line 126 has joined so far. *)
Definition joined (p : MainPc) : Z :=
  match p with
  | Partitioning _ _ => 0
  | Reducing i _ => i
  | Exited _ => T
  end.

Definition pc_ok (p : MainPc) : Prop :=
  match p with
  | Partitioning i currentStart =>
      0 <= i <= T /\ currentStart = range_start N T i
  | Reducing i totalSum =>
      0 <= i <= T /\ totalSum = total_sum N T i
  | Exited o => o = Returned 0 (pi_approx_of N T)
  end.

Record Inv (st : State) : Prop := {
  inv_threads : length (threads st) = Z.to_nat T;
  inv_data : length (threadData st) = Z.to_nat T;
  inv_slot : forall k th d,
    threads st !! k = Some th -> threadData st !! k = Some d ->
    thread_ok k th d;
  inv_spawned : forall k,
    Z.of_nat k < spawned (pc st) -> threads st !! k <> Some Unstarted;
  inv_joined : forall k,
    Z.of_nat k < joined (pc st) -> threads st !! k = Some Completed;
  inv_pc : pc_ok (pc st)
}.

Lemma Inv_initial : Inv (initial T).
Proof.
  split; simpl.
  - apply length_replicate.
  - apply length_replicate.
  - intros k th d [-> _]%lookup_replicate _. exact I.
  - intros k Hk. lia.
  - intros k Hk. lia.
  - split; [lia|]. symmetry. by apply range_start_0.
Qed.

Lemma task_range_ok (k : nat) :
  Z.of_nat k < T ->
  0 <= start (task N T (Z.of_nat k)) <= end_ (task N T (Z.of_nat k)) /\
  end_ (task N T (Z.of_nat k)) < ULLONG_MOD.
Proof.
  intros Hk. simpl.
  pose proof (range_start_nonneg N T HN HT (Z.of_nat k) ltac:(lia)).
  pose proof (range_start_le N T HN HT (Z.of_nat k) ltac:(lia)).
  pose proof (range_end_le_N N T HN HT (Z.of_nat k) ltac:(lia)).
  lia.
Qed.

Lemma worker_step_Inv k st st' :
  Inv st -> worker_step k st = Some st' -> Inv st'.
Proof.
  intros [Hlt Hld Hslot Hsp Hjn Hpc]. unfold worker_step.
  destruct (threads st !! k) as [[|fr|]|] eqn:Hth; try discriminate.
  destruct (threadData st !! k) as [d|] eqn:Hd; try discriminate.
  pose proof (Hslot k _ _ Hth Hd) as Hok.
  assert (Z.of_nat k < T) as HkT.
  { apply lookup_lt_Some in Hth. lia. }
  assert (k < length (threads st))%nat as Hk1 by (by eapply lookup_lt_Some).
  assert (k < length (threadData st))%nat as Hk2 by (by eapply lookup_lt_Some).
  destruct (task_range_ok k HkT) as [Hr He].
  assert (forall th' d',
    thread_ok k th' d' -> th' <> Unstarted ->
    Inv {| threads := <[k:=th']> (threads st);
           threadData := <[k:=d']> (threadData st); pc := pc st |}) as Hput.
  { intros th' d' Hok' Hne. split; simpl.
    - by rewrite length_insert.
    - by rewrite length_insert.
    - intros j th0 d0 Hj1 Hj2. destruct (decide (j = k)) as [->|Hjk].
      + rewrite list_lookup_insert_eq in Hj1 by done.
        rewrite list_lookup_insert_eq in Hj2 by done. by simplify_eq.
      + rewrite list_lookup_insert_ne in Hj1 by done.
        rewrite list_lookup_insert_ne in Hj2 by done. eauto.
    - intros j Hj. destruct (decide (j = k)) as [->|Hjk].
      + rewrite list_lookup_insert_eq by done. congruence.
      + rewrite list_lookup_insert_ne by done. eauto.
    - intros j Hj. destruct (decide (j = k)) as [->|Hjk].
      + apply Hjn in Hj. congruence.
      + rewrite list_lookup_insert_ne by done. eauto.
    - done. }
  destruct fr as [|i ps|]; simpl in Hok; [| |done].
  - destruct Hok as [-> _]. simpl. intros [= <-].
    apply Hput; [|done]. split; [done|]. simpl in *. split; [lia|].
    by rewrite midpoint_sum_empty.
  - destruct Hok as [-> Hloop].
    destruct (Z.lt_ge_cases i (end_ (task N T (Z.of_nat k)))) as [Hlt'|Hge].
    + destruct (loop_step_inv _ Hr He i ps Hloop Hlt') as [-> Hloop'].
      intros [= <-]. apply Hput; [|done]. by split.
    + rewrite (loop_exit_step _ i ps Hloop) by lia.
      intros [= <-]. by apply Hput.
Qed.

Lemma main_step_Inv st st' :
  Inv st -> main_step N T st = Some st' -> Inv st'.
Proof.
  intros [Hlt Hld Hslot Hsp Hjn Hpc]. unfold main_step.
  destruct (pc st) as [i cs|i ts|o] eqn:Hpcst; simpl in Hpc, Hsp, Hjn;
    [| |discriminate].
  - destruct Hpc as [Hi ->]. destruct (Z.ltb_spec i T) as [HiT|HiT].
    + intros [= <-]. rewrite current_end_range by (done || lia).
      assert (Z.to_nat i < length (threads st))%nat by lia.
      assert (Z.to_nat i < length (threadData st))%nat by lia.
      split; simpl.
      * by rewrite length_insert.
      * by rewrite length_insert.
      * intros j th0 d0 Hj1 Hj2.
        destruct (decide (j = Z.to_nat i)) as [->|Hji].
        -- rewrite list_lookup_insert_eq in Hj1 by done.
        rewrite list_lookup_insert_eq in Hj2 by done. simplify_eq.
           simpl. split; [|done]. unfold task. by rewrite Z2Nat.id by lia.
        -- rewrite list_lookup_insert_ne in Hj1 by done.
        rewrite list_lookup_insert_ne in Hj2 by done. eauto.
      * intros j Hj. destruct (decide (j = Z.to_nat i)) as [->|Hji].
        -- rewrite list_lookup_insert_eq by done. congruence.
        -- rewrite list_lookup_insert_ne by done. apply Hsp. lia.
      * intros j Hj. lia.
      * split; [lia|done].
    + intros [= <-]. split; simpl; [done|done|done| | |].
      * intros j Hj. apply Hsp. lia.
      * intros j Hj. lia.
      * split; [lia|]. unfold total_sum. by rewrite seqZ_nil.
  - destruct Hpc as [Hi ->]. destruct (Z.ltb_spec i T) as [HiT|HiT].
    + destruct (threads st !! Z.to_nat i) as [[| |]|] eqn:Hth;
        try discriminate.
      destruct (threadData st !! Z.to_nat i) as [d|] eqn:Hd;
        try discriminate.
      intros [= <-]. split; simpl; [done|done|done|done| |].
      * intros j Hj. destruct (decide (j = Z.to_nat i)) as [->|Hji];
          [done|]. apply Hjn. lia.
      * split; [lia|]. pose proof (Hslot _ _ _ Hth Hd) as Hok. simpl in Hok.
        rewrite Z2Nat.id in Hok by lia. subst d. simpl.
        by rewrite total_sum_snoc by lia.
    + intros [= <-]. split; simpl; [done|done|done|done| |].
      * intros j Hj. apply Hjn. lia.
      * unfold pi_approx_of. by replace T with i by lia.
Qed.

Lemma system_step_Inv a st st' :
  Inv st -> system_step N T a st = Some st' -> Inv st'.
Proof. destruct a; simpl; eauto using main_step_Inv, worker_step_Inv. Qed.

Lemma exec_Inv sched : forall st st',
  Inv st -> exec N T sched st = Some st' -> Inv st'.
Proof.
  induction sched as [|a sched IH]; intros st st' Hinv; simpl.
  - by intros [= <-].
  - destruct (system_step N T a st) as [st1|] eqn:Hstep; [|discriminate].
    eauto using system_step_Inv.
Qed.

(** Every state a schedule can reach from the start satisfies [Inv]. *)
Lemma reachable_Inv sched st :
  exec N T sched (initial T) = Some st -> Inv st.
Proof. apply exec_Inv, Inv_initial. Qed.

End System.

(** ** A complete run exists

    The schedule in which every worker runs to completion as soon as it is
    created, and the main thread then joins them, is a complete run. *)

Definition spawn_and_run (N T : Z) (k : nat) : list Actor :=
  MainThread ::
  replicate
    (Z.to_nat (range_end N T (Z.of_nat k) - range_start N T (Z.of_nat k)) + 2)
    (Worker k).

Definition sequential_schedule (N T : Z) : list Actor :=
  concat (map (spawn_and_run N T) (seq 0 (Z.to_nat T)))
  ++ replicate (Z.to_nat T + 2) MainThread.

Lemma exec_app N T s1 s2 st :
  exec N T (s1 ++ s2) st =
  match exec N T s1 st with Some st' => exec N T s2 st' | None => None end.
Proof.
  revert st. induction s1 as [|a s1 IH]; intros st; simpl; [done|].
  by destruct (system_step N T a st).
Qed.

Section WorkerRun.

Variables (N T : Z) (k : nat) (d : ThreadData).
Hypothesis Hrange : 0 <= start d <= end_ d.
Hypothesis Hend : end_ d < ULLONG_MOD.

Definition completed_by (st : State) : State :=
  {| threads := <[k := Completed]> (threads st);
     threadData :=
       <[k := set_sum d (midpoint_sum (start d) (end_ d) (step d))]>
         (threadData st);
     pc := pc st |}.

Lemma worker_run_loop (n : nat) : forall st i ps,
  threads st !! k = Some (Running (Loop i ps)) ->
  threadData st !! k = Some d ->
  loop_inv d (Loop i ps) ->
  end_ d - i = Z.of_nat n ->
  exec N T (replicate (S n) (Worker k)) st = Some (completed_by st).
Proof.
  induction n as [|n IH]; intros st i ps Hth Hd Hinv Hn.
  - simpl. unfold worker_step. rewrite Hth, Hd.
    by rewrite (loop_exit_step d i ps Hinv) by lia.
  - rewrite replicate_S. cbn [exec system_step]. unfold worker_step at 1.
    rewrite Hth, Hd.
    destruct (loop_step_inv d Hrange Hend i ps Hinv ltac:(lia))
      as [-> Hinv'].
    pose proof (lookup_lt_Some _ _ _ Hth). pose proof (lookup_lt_Some _ _ _ Hd).
    erewrite IH; [| |simpl; by apply list_lookup_insert_eq|exact Hinv'|lia].
    + unfold completed_by. simpl. by rewrite !list_insert_insert_eq.
    + simpl. by apply list_lookup_insert_eq.
Qed.

Lemma worker_run_entry st :
  threads st !! k = Some (Running Entry) ->
  threadData st !! k = Some d ->
  exec N T (replicate (Z.to_nat (end_ d - start d) + 2) (Worker k)) st
  = Some (completed_by st).
Proof.
  intros Hth Hd.
  replace (Z.to_nat (end_ d - start d) + 2)%nat
    with (S (S (Z.to_nat (end_ d - start d)))) by lia.
  rewrite replicate_S. cbn [exec system_step].
  unfold worker_step at 1. rewrite Hth, Hd. cbn [threadFunction_step].
  pose proof (lookup_lt_Some _ _ _ Hth). pose proof (lookup_lt_Some _ _ _ Hd).
  erewrite worker_run_loop;
    [|simpl; by apply list_lookup_insert_eq
     |simpl; by apply list_lookup_insert_eq| |].
  - unfold completed_by. simpl. by rewrite !list_insert_insert_eq.
  - split; [lia|]. by rewrite midpoint_sum_empty.
  - lia.
Qed.

End WorkerRun.

Section Termination.

Variables (N T : Z).
Hypothesis HN : 0 <= N < ULLONG_MOD.
Hypothesis HT : 1 <= T <= INT_MAX.

(** The first [k] workers have been created and have completed; the main
    thread is about to create worker [k]. *)
Definition Seq (k : nat) (st : State) : Prop :=
  Inv N T st /\
  (exists cs, pc st = Partitioning (Z.of_nat k) cs) /\
  forall j, (j < k)%nat -> threads st !! j = Some Completed.

Lemma Seq_spawn_and_run k st :
  Seq k st -> Z.of_nat k < T ->
  exists st', exec N T (spawn_and_run N T k) st = Some st' /\ Seq (S k) st'.
Proof.
  intros (Hinv & [cs Hpc] & Hdone) Hk.
  destruct (main_step N T st) as [st1|] eqn:Hmain; last first.
  { unfold main_step in Hmain. rewrite Hpc in Hmain.
    destruct (Z.ltb_spec (Z.of_nat k) T); [discriminate|lia]. }
  pose proof (main_step_Inv N T HN HT _ _ Hinv Hmain) as Hinv1.
  pose proof Hmain as Hmain0.
  unfold main_step in Hmain. rewrite Hpc in Hmain.
  destruct (Z.ltb_spec (Z.of_nat k) T); [|lia].
  rewrite Nat2Z.id in Hmain.
  set (d := {| start := cs; end_ := current_end N T (Z.of_nat k) cs;
               sum := 0%float; step := main_step_width N |}) in *.
  assert (k < length (threads st))%nat by (destruct Hinv; lia).
  assert (k < length (threadData st))%nat by (destruct Hinv; lia).
  assert (threads st1 !! k = Some (Running Entry)) as Hth1.
  { injection Hmain as <-. simpl. by apply list_lookup_insert_eq. }
  assert (threadData st1 !! k = Some d) as Hd1.
  { injection Hmain as <-. simpl. by apply list_lookup_insert_eq. }
  destruct (inv_slot _ _ _ Hinv1 _ _ _ Hth1 Hd1) as [Hd _].
  destruct (task_range_ok N T HN HT k Hk) as [Hr He]. rewrite <- Hd in Hr, He.
  exists (completed_by k d st1). split.
  - unfold spawn_and_run. cbn [exec system_step].
    rewrite Hmain0.
    replace (range_end N T (Z.of_nat k)) with (end_ d) by by rewrite Hd.
    replace (range_start N T (Z.of_nat k)) with (start d) by by rewrite Hd.
    by apply worker_run_entry.
  - assert (exec N T (replicate (Z.to_nat (end_ d - start d) + 2) (Worker k))
              st1 = Some (completed_by k d st1)) as Hrun
      by by apply worker_run_entry.
    split; [by eapply exec_Inv|]. split.
    + injection Hmain as <-. simpl. eexists. f_equal. lia.
    + intros j Hj. simpl. destruct (decide (j = k)) as [->|Hjk].
      * apply list_lookup_insert_eq. injection Hmain as <-. simpl.
        by rewrite length_insert.
      * rewrite list_lookup_insert_ne by done. injection Hmain as <-. simpl.
        rewrite list_lookup_insert_ne by done. apply Hdone. lia.
Qed.

Lemma Seq_prefix (n : nat) :
  Z.of_nat n <= T ->
  exists st,
    exec N T (concat (map (spawn_and_run N T) (seq 0 n))) (initial T)
    = Some st /\ Seq n st.
Proof.
  induction n as [|n IH]; intros Hn.
  - exists (initial T). split; [done|]. split; [by apply Inv_initial|].
    split; [by eexists|]. intros j Hj. lia.
  - destruct IH as (st & Hexec & Hseq); [lia|].
    destruct (Seq_spawn_and_run n st Hseq ltac:(lia)) as (st' & Hrun & Hseq').
    exists st'. split; [|done].
    rewrite seq_S, map_app, concat_app, exec_app, Hexec. simpl.
    by rewrite app_nil_r.
Qed.

(** With every worker completed, the joins of line 126 all go through. *)
Lemma joins_run (n : nat) : forall st i ts,
  (forall j, Z.of_nat j < T -> threads st !! j = Some Completed) ->
  length (threadData st) = Z.to_nat T ->
  pc st = Reducing i ts -> 0 <= i -> T - i = Z.of_nat n ->
  exists st' o,
    exec N T (replicate (S n) MainThread) st = Some st' /\ pc st' = Exited o.
Proof.
  induction n as [|n IH]; intros st i ts Hall Hlen Hpc Hi Hn.
  - simpl. unfold main_step. rewrite Hpc.
    destruct (Z.ltb_spec i T); [lia|]. by eexists _, _.
  - rewrite replicate_S. cbn [exec system_step]. unfold main_step at 1.
    rewrite Hpc. destruct (Z.ltb_spec i T); [|lia].
    rewrite Hall by lia.
    destruct (lookup_lt_is_Some_2 (threadData st) (Z.to_nat i)) as [d ->];
      [lia|].
    eapply IH; simpl; eauto; lia.
Qed.

(** The sequential schedule is a complete run, and it returns 0 having
    printed the reference value. *)
Lemma sequential_run :
  main N T (sequential_schedule N T) = Some (Returned 0 (pi_approx_of N T)).
Proof.
  unfold main. destruct (Z.ltb_spec T 0); [lia|].
  destruct (Z.eqb_spec T 0); [lia|].
  destruct (Seq_prefix (Z.to_nat T) ltac:(lia))
    as (st & Hexec & Hinv & [cs Hpc] & Hdone).
  unfold sequential_schedule. rewrite exec_app, Hexec.
  replace (Z.to_nat T + 2)%nat with (S (S (Z.to_nat T))) by lia.
  rewrite replicate_S. cbn [exec system_step]. unfold main_step at 1.
  rewrite Hpc. destruct (Z.ltb_spec (Z.of_nat (Z.to_nat T)) T); [lia|].
  set (st0 := {| threads := threads st; threadData := threadData st;
                 pc := Reducing 0 0%float |}).
  assert (exists st' o,
    exec N T (replicate (S (Z.to_nat T)) MainThread) st0 = Some st' /\
    pc st' = Exited o) as (st' & o & Hrun & Hpc').
  { apply (joins_run (Z.to_nat T) st0 0 0%float); simpl; try done; try lia.
    - intros j Hj. apply Hdone. lia.
    - by destruct Hinv. }
  rewrite Hrun, Hpc'.
  assert (Inv N T st') as Hinv'.
  { eapply (exec_Inv N T HN HT); [|exact Hrun].
    eapply (main_step_Inv N T HN HT); [exact Hinv|].
    unfold main_step. rewrite Hpc.
    destruct (Z.ltb_spec (Z.of_nat (Z.to_nat T)) T); [lia|done]. }
  destruct Hinv' as [_ _ _ _ _ Hok]. rewrite Hpc' in Hok. simpl in Hok.
  by rewrite Hok.
Qed.

End Termination.

(** ** Consequences of the invariant *)

(** The main thread has left the loop of lines 102-121. *)
Definition partition_done (st : State) : Prop :=
  match pc st with
  | Partitioning _ _ => False
  | _ => True
  end.

(** Number of subintervals handed out: the sum of [end - start]. *)
Definition covered (ds : list ThreadData) : Z :=
  foldr (fun d acc => (end_ d - start d) + acc) 0 ds.

Section Consequences.

Variables (N T : Z).
Hypothesis HN : 0 <= N < ULLONG_MOD.
Hypothesis HT : 1 <= T <= INT_MAX.

Lemma complete_run_exists :
  exists st o,
    exec N T (sequential_schedule N T) (initial T) = Some st /\
    pc st = Exited o.
Proof.
  pose proof (sequential_run N T HN HT) as Hrun. unfold main in Hrun.
  destruct (Z.ltb_spec T 0); [lia|]. destruct (Z.eqb_spec T 0); [lia|].
  destruct (exec N T (sequential_schedule N T) (initial T)) as [st|];
    [|discriminate].
  destruct (pc st) as [| |o] eqn:Hpc; try discriminate. by exists st, o.
Qed.

Lemma partition_done_spawned st : partition_done st -> spawned T (pc st) = T.
Proof. unfold partition_done. by destruct (pc st). Qed.

(** A record whose thread has been created holds the bounds of its range
    and the step width, whatever its thread has done since. *)
Lemma slot_after_spawn st (k : nat) d :
  Inv N T st -> Z.of_nat k < spawned T (pc st) ->
  threadData st !! k = Some d ->
  start d = range_start N T (Z.of_nat k) /\
  end_ d = range_end N T (Z.of_nat k) /\
  step d = main_step_width N.
Proof.
  intros Hinv Hk Hd.
  destruct (lookup_lt_is_Some_2 (threads st) k) as [th Hth].
  { apply lookup_lt_Some in Hd. destruct Hinv. lia. }
  pose proof (inv_slot _ _ _ Hinv _ _ _ Hth Hd) as Hok.
  pose proof (inv_spawned _ _ _ Hinv _ Hk) as Hne.
  destruct th as [|[|i ps|]|]; simpl in Hok; try done.
  - by destruct Hok as [-> _].
  - by destruct Hok as [-> _].
  - by subst d.
Qed.

(** A record whose thread has been joined holds the midpoint sum of its
    range. *)
Lemma slot_after_join st (k : nat) d :
  Inv N T st -> Z.of_nat k < joined T (pc st) ->
  threadData st !! k = Some d ->
  d = set_sum (task N T (Z.of_nat k)) (partial_sum N T (Z.of_nat k)).
Proof.
  intros Hinv Hk Hd.
  pose proof (inv_joined _ _ _ Hinv _ Hk) as Hth.
  exact (inv_slot _ _ _ Hinv _ _ _ Hth Hd).
Qed.

Lemma covered_telescope (ds : list ThreadData) : forall off,
  (forall (k : nat) d, ds !! k = Some d ->
     start d = range_start N T (off + Z.of_nat k) /\
     end_ d = range_end N T (off + Z.of_nat k)) ->
  covered ds =
  range_start N T (off + Z.of_nat (length ds)) - range_start N T off.
Proof.
  induction ds as [|d ds IH]; intros off Hds; simpl.
  - replace (off + Z.of_nat 0) with off by lia. lia.
  - destruct (Hds 0%nat d eq_refl) as [Hs He].
    rewrite (IH (off + 1)).
    + rewrite Hs, He. unfold range_end.
      replace (off + Z.of_nat 0) with off by lia.
      replace (off + 1 + Z.of_nat (length ds))
        with (off + Z.of_nat (S (length ds))) by lia. lia.
    + intros k d' Hk. destruct (Hds (S k) d' Hk) as [Hs' He'].
      replace (off + 1 + Z.of_nat k) with (off + Z.of_nat (S k)) by lia.
      done.
Qed.

(** Every index below [N] lies in the range of some worker. *)
Lemma range_cover x :
  0 <= x < N ->
  exists k, 0 <= k < T /\ range_start N T k <= x < range_end N T k.
Proof.
  intros Hx.
  assert (forall n : nat, Z.of_nat n <= T -> x < range_start N T (Z.of_nat n) ->
    exists k, 0 <= k < Z.of_nat n /\
              range_start N T k <= x < range_end N T k) as Hfind.
  { induction n as [|n IH]; intros Hn Hlt.
    - simpl in Hlt. rewrite range_start_0 in Hlt by done. lia.
    - destruct (Z.lt_ge_cases x (range_start N T (Z.of_nat n))) as [Hlo|Hhi].
      + destruct IH as (k & Hk & Hin); [lia|done|].
        exists k. split; [lia|done].
      + exists (Z.of_nat n). split; [lia|]. unfold range_end.
        replace (Z.of_nat n + 1) with (Z.of_nat (S n)) by lia. lia. }
  destruct (Hfind (Z.to_nat T)) as (k & Hk & Hin).
  - lia.
  - rewrite Z2Nat.id by lia. rewrite range_start_T by done. lia.
  - exists k. split; [lia|done].
Qed.

(** Two ranges that share an index are the same range. *)
Lemma range_disjoint j k x :
  0 <= j -> 0 <= k ->
  range_start N T j <= x < range_end N T j ->
  range_start N T k <= x < range_end N T k ->
  j = k.
Proof.
  intros Hj Hk Hxj Hxk. unfold range_end in *.
  destruct (Z.lt_trichotomy j k) as [Hlt|[Heq|Hgt]]; [|done|].
  - pose proof (range_start_mono N T HN HT (j + 1) k ltac:(lia)). lia.
  - pose proof (range_start_mono N T HN HT (k + 1) j ltac:(lia)). lia.
Qed.

End Consequences.

(** ** The partition (lines 97-121) *)

(** What it means for the records [ds] to cut [0, N) into consecutive
    ranges: the first starts at 0, each starts where the previous one ends,
    the last ends at [N], no range is reversed, the lengths add up to [N],
    and an index belongs to a range exactly when it is below [N], and then
    to one range only. *)
Definition partitions (N : Z) (ds : list ThreadData) : Prop :=
  (exists d, ds !! 0%nat = Some d /\ start d = 0) /\
  (forall (k : nat) d d',
     ds !! k = Some d -> ds !! S k = Some d' -> start d' = end_ d) /\
  (exists d, ds !! (length ds - 1)%nat = Some d /\ end_ d = N) /\
  (forall (k : nat) d, ds !! k = Some d -> start d <= end_ d) /\
  covered ds = N /\
  (forall x, 0 <= x < N <->
     exists (k : nat) d, ds !! k = Some d /\ start d <= x < end_ d) /\
  (forall x (j k : nat) dj dk,
     ds !! j = Some dj -> ds !! k = Some dk ->
     start dj <= x < end_ dj -> start dk <= x < end_ dk -> j = k).

Lemma slots_partition N T ds :
  0 <= N < ULLONG_MOD -> 1 <= T <= INT_MAX ->
  length ds = Z.to_nat T ->
  (forall (k : nat) d, ds !! k = Some d ->
     start d = range_start N T (Z.of_nat k) /\
     end_ d = range_end N T (Z.of_nat k)) ->
  partitions N ds.
Proof.
  intros HN HT Hlen Hds. repeat split.
  - destruct (lookup_lt_is_Some_2 ds 0%nat) as [d Hd]; [lia|].
    exists d. split; [done|]. destruct (Hds _ _ Hd) as [-> _].
    by apply range_start_0.
  - intros k d d' Hd Hd'.
    destruct (Hds _ _ Hd) as [_ ->]. destruct (Hds _ _ Hd') as [-> _].
    unfold range_end. f_equal. lia.
  - destruct (lookup_lt_is_Some_2 ds (length ds - 1)%nat) as [d Hd]; [lia|].
    exists d. split; [done|]. destruct (Hds _ _ Hd) as [_ ->].
    unfold range_end.
    replace (Z.of_nat (length ds - 1) + 1) with T by lia.
    by apply range_start_T.
  - intros k d Hd. destruct (Hds _ _ Hd) as [-> ->].
    apply range_start_le; [done|done|lia].
  - rewrite (covered_telescope N T ds 0).
    + rewrite Hlen, Z2Nat.id by lia. simpl.
      rewrite range_start_T, range_start_0 by done. lia.
    + intros k d Hd. by apply Hds.
  - intros Hx. destruct (range_cover N T HT x Hx) as (k & Hk & Hin).
    destruct (lookup_lt_is_Some_2 ds (Z.to_nat k)) as [d Hd]; [lia|].
    exists (Z.to_nat k), d. split; [done|].
    destruct (Hds _ _ Hd) as [-> ->]. by rewrite Z2Nat.id by lia.
  - destruct H as (k & d & Hd & Hin). destruct (Hds _ _ Hd) as [Hs He].
    pose proof (range_start_nonneg N T HN HT (Z.of_nat k) ltac:(lia)). lia.
  - destruct H as (k & d & Hd & Hin). destruct (Hds _ _ Hd) as [Hs He].
    pose proof (lookup_lt_Some _ _ _ Hd).
    pose proof (range_end_le_N N T HN HT (Z.of_nat k) ltac:(lia)). lia.
  - intros x j k dj dk Hj Hk Hxj Hxk.
    destruct (Hds _ _ Hj) as [Hsj Hej]. destruct (Hds _ _ Hk) as [Hsk Hek].
    rewrite Hsj, Hej in Hxj. rewrite Hsk, Hek in Hxk.
    apply Nat2Z.inj.
    apply (range_disjoint N T HN HT _ _ x); (done || lia).
Qed.

(** C1: for every N >= 1 and T >= 1 the partition loop runs to its end, and
    in every state in which it has, under every schedule, [threadData] holds
    T consecutive ranges that cut [0, N) without gap or overlap: the first
    starts at 0, each starts at the end of the previous one, the last ends at
    N, and the lengths [end - start] add up to N. *)
Theorem partition_complete (N T : Z) :
  1 <= N < ULLONG_MOD -> 1 <= T <= INT_MAX ->
  (exists sched st,
     exec N T sched (initial T) = Some st /\ partition_done st) /\
  forall sched st,
    exec N T sched (initial T) = Some st -> partition_done st ->
    length (threadData st) = Z.to_nat T /\ partitions N (threadData st).
Proof.
  intros HN HT. assert (0 <= N < ULLONG_MOD) as HN' by lia. split.
  - destruct (complete_run_exists N T HN' HT) as (st & o & Hrun & Hpc).
    exists (sequential_schedule N T), st. split; [done|].
    unfold partition_done. by rewrite Hpc.
  - intros sched st Hrun Hdone.
    pose proof (reachable_Inv N T HN' HT _ _ Hrun) as Hinv.
    split; [by destruct Hinv|].
    apply (slots_partition N T); [done|done|by destruct Hinv|].
    intros k d Hd.
    destruct (slot_after_spawn N T HT st k d Hinv) as (Hs & He & _);
      [|done|done].
    rewrite partition_done_spawned by done.
    apply lookup_lt_Some in Hd. destruct Hinv. lia.
Qed.

Lemma partition_complete_witness :
  (exists sched st, exec 8 3 sched (initial 3) = Some st /\ partition_done st) /\
  forall sched st,
    exec 8 3 sched (initial 3) = Some st -> partition_done st ->
    length (threadData st) = Z.to_nat 3 /\ partitions 8 (threadData st).
Proof.
  apply (partition_complete 8 3); unfold ULLONG_MOD, INT_MAX; lia.
Defined.

(** C4: with chunk = N / T and remainder = N mod T, the partition loop runs
    to its end, and then, under every schedule, there are T records and T
    created threads, and worker i has been given chunk subintervals, and
    one more when i < remainder; for N = 8 and T = 3 the ranges are [0,3),
    [3,6) and [6,8). *)
Theorem partition_sizes (N T : Z) :
  1 <= N < ULLONG_MOD -> 1 <= T <= INT_MAX ->
  (exists sched st,
     exec N T sched (initial T) = Some st /\ partition_done st) /\
  (forall sched st,
     exec N T sched (initial T) = Some st -> partition_done st ->
     length (threadData st) = Z.to_nat T /\
     forall i : nat, Z.of_nat i < T ->
       exists th d,
         threads st !! i = Some th /\ th <> Unstarted /\
         threadData st !! i = Some d /\
         end_ d - start d =
         N / T + (if Z.of_nat i <? N mod T then 1 else 0)) /\
  (exists sched st,
     exec 8 3 sched (initial 3) = Some st /\ partition_done st) /\
  (forall sched st,
     exec 8 3 sched (initial 3) = Some st -> partition_done st ->
     map (fun d => (start d, end_ d)) (threadData st)
     = [(0, 3); (3, 6); (6, 8)]).
Proof.
  intros HN HT. assert (0 <= N < ULLONG_MOD) as HN' by lia.
  assert (forall N T, 0 <= N < ULLONG_MOD -> 1 <= T <= INT_MAX ->
    forall sched st, exec N T sched (initial T) = Some st ->
    partition_done st ->
    length (threadData st) = Z.to_nat T /\
    forall (i : nat) d, threadData st !! i = Some d ->
      start d = range_start N T (Z.of_nat i) /\
      end_ d = range_end N T (Z.of_nat i)) as Hslots.
  { intros N0 T0 HN0 HT0 sched st Hrun Hdone.
    pose proof (reachable_Inv N0 T0 HN0 HT0 _ _ Hrun) as Hinv.
    split; [by destruct Hinv|]. intros i d Hd.
    destruct (slot_after_spawn N0 T0 HT0 st i d Hinv) as (Hs & He & _);
      [|done|done].
    rewrite partition_done_spawned by done.
    apply lookup_lt_Some in Hd. destruct Hinv. lia. }
  assert (forall N T, 0 <= N < ULLONG_MOD -> 1 <= T <= INT_MAX ->
    exists sched st,
      exec N T sched (initial T) = Some st /\ partition_done st) as Hreach.
  { intros N0 T0 HN0 HT0.
    destruct (complete_run_exists N0 T0 HN0 HT0) as (st & o & Hrun & Hpc).
    exists (sequential_schedule N0 T0), st. split; [done|].
    unfold partition_done. by rewrite Hpc. }
  assert (chunk N T = N / T) as Hc
    by (unfold chunk; by rewrite ull_of_int_T).
  assert (remainder N T = N mod T) as Hr
    by (unfold remainder; by rewrite ull_of_int_T).
  split; [by apply Hreach|]. split; [|split].
  - intros sched st Hrun Hdone.
    destruct (Hslots N T HN' HT sched st Hrun Hdone) as [Hlen Hds].
    split; [done|]. intros i Hi.
    pose proof (reachable_Inv N T HN' HT _ _ Hrun) as Hinv.
    destruct (lookup_lt_is_Some_2 (threads st) i) as [th Hth].
    { destruct Hinv. lia. }
    destruct (lookup_lt_is_Some_2 (threadData st) i) as [d Hd]; [lia|].
    exists th, d. split; [done|]. split; [|split; [done|]].
    + intros ->. apply (inv_spawned _ _ _ Hinv i); [|done].
      by rewrite partition_done_spawned.
    + destruct (Hds i d Hd) as [-> ->].
      rewrite range_length. by rewrite Hc, Hr.
  - apply Hreach; [unfold ULLONG_MOD|unfold INT_MAX]; lia.
  - intros sched st Hrun Hdone.
    destruct (Hslots 8 3 ltac:(unfold ULLONG_MOD; lia)
                ltac:(unfold INT_MAX; lia) sched st Hrun Hdone) as [Hlen Hds].
    destruct (threadData st) as [|d0 [|d1 [|d2 [|d3 ds]]]]; try discriminate.
    cbn [map].
    destruct (Hds 0%nat d0 eq_refl) as [-> ->].
    destruct (Hds 1%nat d1 eq_refl) as [-> ->].
    destruct (Hds 2%nat d2 eq_refl) as [-> ->].
    reflexivity.
Qed.

Lemma partition_sizes_witness :
  (exists sched st,
     exec 8 3 sched (initial 3) = Some st /\ partition_done st) /\
  (forall sched st,
     exec 8 3 sched (initial 3) = Some st -> partition_done st ->
     length (threadData st) = Z.to_nat 3 /\
     forall i : nat, Z.of_nat i < 3 ->
       exists th d,
         threads st !! i = Some th /\ th <> Unstarted /\
         threadData st !! i = Some d /\
         end_ d - start d =
         8 / 3 + (if Z.of_nat i <? 8 mod 3 then 1 else 0)) /\
  (exists sched st,
     exec 8 3 sched (initial 3) = Some st /\ partition_done st) /\
  (forall sched st,
     exec 8 3 sched (initial 3) = Some st -> partition_done st ->
     map (fun d => (start d, end_ d)) (threadData st)
     = [(0, 3); (3, 6); (6, 8)]).
Proof.
  apply (partition_sizes 8 3); unfold ULLONG_MOD, INT_MAX; lia.
Defined.

(** ** The worker (lines 59-66) *)

(** C2: for a record with start <= end, [threadFunction] returns, and the
    [sum] it stores is the running double-precision sum, in increasing order
    of i, of sqrt(1 - x_i * x_i) at x_i = (i + 0.5) * step for start <= i <
    end; for an empty range it stores 0. *)
Theorem worker_partial_sum (data : ThreadData) (fuel : nat) :
  0 <= start data <= end_ data -> end_ data < ULLONG_MOD ->
  (Z.to_nat (end_ data - start data) + 2 <= fuel)%nat ->
  exists data',
    threadFunction fuel data = Some data' /\
    sum data' =
      foldl (fun acc i =>
               let x := ((of_ull i + 0.5) * step data)%float in
               (acc + PrimFloat.sqrt (1 - x * x))%float)
            0%float (seqZ (start data) (end_ data - start data)) /\
    (start data = end_ data -> sum data' = 0%float).
Proof.
  intros Hrange Hend Hfuel. eexists. split.
  - by apply threadFunction_total.
  - split; [reflexivity|]. simpl. intros Heq.
    apply midpoint_sum_empty. lia.
Qed.

Lemma worker_partial_sum_witness :
  exists data',
    threadFunction 5 (mkThreadData 3 6 0%float 0.125%float) = Some data' /\
    sum data' =
      foldl (fun acc i =>
               let x := ((of_ull i + 0.5) * 0.125)%float in
               (acc + PrimFloat.sqrt (1 - x * x))%float)
            0%float (seqZ 3 (6 - 3)) /\
    (3 = 6 -> sum data' = 0%float).
Proof.
  apply (worker_partial_sum (mkThreadData 3 6 0%float 0.125%float) 5);
    simpl; unfold ULLONG_MOD; lia.
Defined.

(** C10: [threadFunction] writes only the [sum] of the record it was given.
    Its [start], [end] and [step] are the same after as before; a transition
    of worker k leaves every other record, every other thread and the main
    thread as they were; and in every reachable state the record of a
    created thread still holds the bounds and the step width it was
    constructed with. *)
Theorem worker_frame :
  (forall fuel data data',
     threadFunction fuel data = Some data' ->
     start data' = start data /\ end_ data' = end_ data /\
     step data' = step data) /\
  (forall (k : nat) st st',
     worker_step k st = Some st' ->
     pc st' = pc st /\
     (forall j : nat, j <> k ->
        threadData st' !! j = threadData st !! j /\
        threads st' !! j = threads st !! j) /\
     (forall d d',
        threadData st !! k = Some d -> threadData st' !! k = Some d' ->
        start d' = start d /\ end_ d' = end_ d /\ step d' = step d)) /\
  (forall N T sched st (k : nat) d,
     0 <= N < ULLONG_MOD -> 1 <= T <= INT_MAX ->
     exec N T sched (initial T) = Some st ->
     Z.of_nat k < spawned T (pc st) ->
     threadData st !! k = Some d ->
     start d = range_start N T (Z.of_nat k) /\
     end_ d = range_end N T (Z.of_nat k) /\
     step d = (1 / of_ull N)%float).
Proof.
  split; [|split].
  - intros fuel data data'. apply threadFunction_from_frame.
  - intros k st st'. unfold worker_step.
    destruct (threads st !! k) as [[|fr|]|] eqn:Hth; try discriminate.
    destruct (threadData st !! k) as [d|] eqn:Hd; try discriminate.
    destruct (threadFunction_step fr d) as [[fr' d1]|] eqn:Hstep;
      [|discriminate].
    apply threadFunction_step_frame in Hstep.
    pose proof (lookup_lt_Some _ _ _ Hd) as Hk.
    assert (forall th, Some {| threads := <[k:=th]> (threads st);
                               threadData := <[k:=d1]> (threadData st);
                               pc := pc st |} = Some st' ->
      pc st' = pc st /\
      (forall j : nat, j <> k ->
         threadData st' !! j = threadData st !! j /\
         threads st' !! j = threads st !! j) /\
      (forall d0 d',
         Some d = Some d0 -> threadData st' !! k = Some d' ->
         start d' = start d0 /\ end_ d' = end_ d0 /\ step d' = step d0))
      as Hput.
    { intros th [= <-]. simpl. split; [done|]. split.
      - intros j Hj. by rewrite !list_lookup_insert_ne by done.
      - intros d0 d' [= <-]. rewrite list_lookup_insert_eq by done.
        by intros [= <-]. }
    destruct fr'; apply Hput.
  - intros N T sched st k d HN HT Hrun Hk Hd.
    apply (slot_after_spawn N T HT st k d); [|done|done].
    by apply (reachable_Inv N T HN HT sched).
Qed.

(** ** The reduction (lines 124-132) *)

Lemma foldl_sums (ds : list ThreadData) (g : Z -> float) : forall off a,
  (forall (k : nat) d, ds !! k = Some d -> sum d = g (off + Z.of_nat k)) ->
  foldl (fun acc d => (acc + sum d)%float) a ds =
  foldl (fun acc k => (acc + g k)%float) a (seqZ off (Z.of_nat (length ds))).
Proof.
  induction ds as [|d ds IH]; intros off a Hds; [done|].
  cbn [length foldl]. rewrite seqZ_cons by lia. cbn [foldl].
  rewrite (Hds 0%nat d eq_refl). replace (off + Z.of_nat 0) with off by lia.
  rewrite (IH (off + 1)).
  - do 2 f_equal; lia.
  - intros k d' Hk. rewrite (Hds (S k) d' Hk). f_equal. lia.
Qed.

(** What a complete run returns. *)
Lemma main_outcome N T sched o :
  0 <= N < ULLONG_MOD -> 1 <= T <= INT_MAX ->
  main N T sched = Some o -> o = Returned 0 (pi_approx_of N T).
Proof.
  intros HN HT. unfold main.
  destruct (Z.ltb_spec T 0); [lia|]. destruct (Z.eqb_spec T 0); [lia|].
  destruct (exec N T sched (initial T)) as [st|] eqn:Hrun; [|discriminate].
  destruct (pc st) as [| |o'] eqn:Hpc; try discriminate. intros [= <-].
  destruct (reachable_Inv N T HN HT _ _ Hrun) as [_ _ _ _ _ Hok].
  by rewrite Hpc in Hok.
Qed.

(** C3: for valid N and T a complete run exists; and when the main thread
    has returned, under every schedule, all T threads have completed,
    the T records partition [0, N), every record holds the midpoint sum of
    its own range, and the value printed is 4.0 * (step * totalSum), where
    step = 1.0 / N and totalSum is the sum of the records' [sum] fields
    added in index order starting from 0.0; the return code is 0. *)
Theorem reducer_output (N T : Z) :
  1 <= N < ULLONG_MOD -> 1 <= T <= INT_MAX ->
  (exists sched st,
     exec N T sched (initial T) = Some st /\
     let step := (1 / of_ull N)%float in
     let totalSum := foldl (fun acc d => (acc + sum d)%float) 0%float
                           (threadData st) in
     let integral := (step * totalSum)%float in
     let piApprox := (4 * integral)%float in
     pc st = Exited (Returned 0 piApprox)) /\
  forall sched st o,
    exec N T sched (initial T) = Some st -> pc st = Exited o ->
    let step := (1 / of_ull N)%float in
    let totalSum := foldl (fun acc d => (acc + sum d)%float) 0%float
                          (threadData st) in
    let integral := (step * totalSum)%float in
    let piApprox := (4 * integral)%float in
    threads st = replicate (Z.to_nat T) Completed /\
    length (threadData st) = Z.to_nat T /\
    partitions N (threadData st) /\
    (forall (k : nat) d, threadData st !! k = Some d ->
       sum d = midpoint_sum (start d) (end_ d) step) /\
    o = Returned 0 piApprox.
Proof.
  intros HN HT. assert (0 <= N < ULLONG_MOD) as HN' by lia.
  assert (forall sched st o,
    exec N T sched (initial T) = Some st -> pc st = Exited o ->
    threads st = replicate (Z.to_nat T) Completed /\
    length (threadData st) = Z.to_nat T /\
    partitions N (threadData st) /\
    (forall (k : nat) d, threadData st !! k = Some d ->
       sum d = midpoint_sum (start d) (end_ d) (1 / of_ull N)%float) /\
    o = Returned 0
          (4 * ((1 / of_ull N) *
                foldl (fun acc d => (acc + sum d)%float) 0%float
                      (threadData st)))%float) as Hall.
  { intros sched st o Hrun Hpc.
    pose proof (reachable_Inv N T HN' HT _ _ Hrun) as Hinv.
    assert (forall (k : nat) d, threadData st !! k = Some d ->
      d = set_sum (task N T (Z.of_nat k)) (partial_sum N T (Z.of_nat k)))
      as Hslots.
    { intros k d Hd. apply (slot_after_join N T st k d Hinv); [|done].
      rewrite Hpc. simpl. apply lookup_lt_Some in Hd. destruct Hinv. lia. }
    split; [|split; [|split; [|split]]].
    - symmetry. apply replicate_as_Forall. split; [by destruct Hinv|].
      apply Forall_lookup. intros k th Hth.
      pose proof (inv_joined _ _ _ Hinv k) as Hj.
      rewrite Hpc in Hj. simpl in Hj.
      rewrite Hj in Hth; [by simplify_eq|].
      apply lookup_lt_Some in Hth. destruct Hinv. lia.
    - by destruct Hinv.
    - apply (slots_partition N T); [done|done|by destruct Hinv|].
      intros k d Hd. by rewrite (Hslots k d Hd).
    - intros k d Hd. by rewrite (Hslots k d Hd).
    - destruct Hinv as [_ Hlen _ _ _ Hok]. rewrite Hpc in Hok. simpl in Hok.
      rewrite Hok. unfold pi_approx_of, total_sum, main_step_width.
      do 3 f_equal.
      rewrite (foldl_sums _ (partial_sum N T) 0).
      + rewrite Hlen. by rewrite Z2Nat.id by lia.
      + intros k d Hd. by rewrite (Hslots k d Hd). }
  split.
  - destruct (complete_run_exists N T HN' HT) as (st & o & Hrun & Hpc).
    exists (sequential_schedule N T), st. split; [done|]. cbv zeta.
    destruct (Hall _ st o Hrun Hpc) as (_ & _ & _ & _ & Ho).
    by rewrite Hpc, Ho.
  - intros sched st o Hrun Hpc. cbv zeta. by apply (Hall sched).
Qed.

Lemma reducer_output_witness :
  (exists sched st,
     exec 8 3 sched (initial 3) = Some st /\
     let step := (1 / of_ull 8)%float in
     let totalSum := foldl (fun acc d => (acc + sum d)%float) 0%float
                           (threadData st) in
     let integral := (step * totalSum)%float in
     let piApprox := (4 * integral)%float in
     pc st = Exited (Returned 0 piApprox)) /\
  forall sched st o,
    exec 8 3 sched (initial 3) = Some st -> pc st = Exited o ->
    let step := (1 / of_ull 8)%float in
    let totalSum := foldl (fun acc d => (acc + sum d)%float) 0%float
                          (threadData st) in
    let integral := (step * totalSum)%float in
    let piApprox := (4 * integral)%float in
    threads st = replicate (Z.to_nat 3) Completed /\
    length (threadData st) = Z.to_nat 3 /\
    partitions 8 (threadData st) /\
    (forall (k : nat) d, threadData st !! k = Some d ->
       sum d = midpoint_sum (start d) (end_ d) step) /\
    o = Returned 0 piApprox.
Proof.
  apply (reducer_output 8 3); unfold ULLONG_MOD, INT_MAX; lia.
Defined.

(** ** Whole runs *)

(** C8: the output does not depend on the schedule.  For every pair of
    inputs, two complete runs that return print the same double, bit for bit
    (equality of primitive floats), and return the same code. *)
Theorem runs_deterministic (N T : Z) sched1 sched2 code1 code2 p1 p2 :
  0 <= N < ULLONG_MOD -> is_int T ->
  main N T sched1 = Some (Returned code1 p1) ->
  main N T sched2 = Some (Returned code2 p2) ->
  code1 = code2 /\ p1 = p2.
Proof.
  intros HN HT Hrun1 Hrun2.
  destruct (Z.le_gt_cases T 0) as [Hle|Hgt].
  - unfold main in Hrun1. destruct (Z.ltb_spec T 0); [discriminate|].
    destruct (Z.eqb_spec T 0); [discriminate|lia].
  - assert (1 <= T <= INT_MAX) as HT' by (unfold is_int in HT; lia).
    apply (main_outcome N T _ _ HN HT') in Hrun1, Hrun2.
    by simplify_eq.
Qed.

(** Two runs of N = 2, T = 2: the workers one after the other, and the
    workers in lockstep. *)
Definition lockstep_2_2 : list Actor :=
  [MainThread; MainThread;
   Worker 1; Worker 0; Worker 1; Worker 0; Worker 1; Worker 0;
   MainThread; MainThread; MainThread; MainThread].

Lemma runs_deterministic_witness :
  0 = 0 /\ pi_approx_of 2 2 = pi_approx_of 2 2.
Proof.
  apply (runs_deterministic 2 2 (sequential_schedule 2 2) lockstep_2_2
           0 0 (pi_approx_of 2 2) (pi_approx_of 2 2)).
  - unfold ULLONG_MOD. lia.
  - unfold is_int, INT_MAX. lia.
  - vm_compute. reflexivity.
  - vm_compute. reflexivity.
Defined.

(** C9: for N = 1 and T = 1 the only sample is at x = 0.5, and every
    complete run (there is one) prints 4 * (1.0 * f(0.5)) = 4 * sqrt(0.75),
    which lies between 3.4641 and 3.4642. *)
Theorem boundary_run :
  midpoint 0 (main_step_width 1) = 0.5%float /\
  range_start 1 1 0 = 0 /\ range_end 1 1 0 = 1 /\
  main 1 1 (sequential_schedule 1 1)
    = Some (Returned 0 (4 * PrimFloat.sqrt 0.75)%float) /\
  (forall sched o,
     main 1 1 sched = Some o -> o = Returned 0 (4 * (1 * f 0.5))%float) /\
  (4 * (1 * f 0.5) = 4 * PrimFloat.sqrt 0.75)%float /\
  (3.4641 <? 4 * PrimFloat.sqrt 0.75)%float = true /\
  (4 * PrimFloat.sqrt 0.75 <? 3.4642)%float = true.
Proof.
  assert (pi_approx_of 1 1 = (4 * (1 * f 0.5))%float) as Hpi
    by (vm_compute; reflexivity).
  split; [vm_compute; reflexivity|].
  split; [vm_compute; reflexivity|].
  split; [vm_compute; reflexivity|].
  split; [vm_compute; reflexivity|].
  split.
  - intros sched o Hrun. rewrite <- Hpi.
    apply (main_outcome 1 1 sched); [unfold ULLONG_MOD; lia| |done].
    unfold INT_MAX; lia.
  - split; [vm_compute; reflexivity|].
    split; vm_compute; reflexivity.
Qed.

(** ** Inputs outside N >= 1, T >= 1 *)

(** The input is rejected: no run returns, every complete run ends in a
    failure. *)
Definition rejected (N T : Z) : Prop :=
  forall sched o, main N T sched = Some o -> exists why, o = Failed why.

Lemma range_start_N0 T k : 1 <= T <= INT_MAX -> 0 <= k -> range_start 0 T k = 0.
Proof.
  intros HT Hk. unfold range_start, chunk, remainder.
  rewrite ull_of_int_T by done. rewrite Z.div_0_l, Z.mod_0_l by lia. lia.
Qed.

Lemma total_sum_N0 T (n : nat) :
  1 <= T <= INT_MAX -> total_sum 0 T (Z.of_nat n) = 0%float.
Proof.
  intros HT. induction n as [|n IH]; [done|].
  rewrite Nat2Z.inj_succ, <- Z.add_1_r, total_sum_snoc, IH by lia.
  unfold partial_sum, range_end. rewrite !range_start_N0 by (done || lia).
  by rewrite midpoint_sum_empty.
Qed.

Lemma pi_approx_of_N0 T : 1 <= T <= INT_MAX -> pi_approx_of 0 T = nan.
Proof.
  intros HT. unfold pi_approx_of.
  rewrite <- (Z2Nat.id T) at 2 by lia. by rewrite total_sum_N0.
Qed.

(** C5, as the code has it: there is no validation of N or T.  With N = 0
    and T >= 1 the program goes on: every worker gets the empty range [0,0),
    and every complete run (there is one) prints NaN, that is
    4.0 * (inf * 0.0), and returns 0.  With T <= 0 no run returns: the
    program fails before any thread is created. *)
Theorem no_validation (T : Z) :
  is_int T ->
  (1 <= T ->
     main 0 T (sequential_schedule 0 T) = Some (Returned 0 nan) /\
     (forall sched o, main 0 T sched = Some o -> o = Returned 0 nan) /\
     (forall sched st (k : nat) d,
        exec 0 T sched (initial T) = Some st ->
        Z.of_nat k < spawned T (pc st) -> threadData st !! k = Some d ->
        start d = 0 /\ end_ d = 0)) /\
  (T <= 0 -> forall N, rejected N T).
Proof.
  intros HT. split.
  - intros HT1. assert (1 <= T <= INT_MAX) as HT' by (unfold is_int in HT; lia).
    assert (0 <= 0 < ULLONG_MOD) as HN by (unfold ULLONG_MOD; lia).
    split; [|split].
    + rewrite <- (pi_approx_of_N0 T HT'). by apply sequential_run.
    + intros sched o Hrun. rewrite <- (pi_approx_of_N0 T HT').
      by apply (main_outcome 0 T sched).
    + intros sched st k d Hrun Hk Hd.
      pose proof (reachable_Inv 0 T HN HT' _ _ Hrun) as Hinv.
      destruct (slot_after_spawn 0 T HT' st k d Hinv Hk Hd) as (-> & -> & _).
      unfold range_end. by rewrite !range_start_N0 by (done || lia).
  - intros HT0 N sched o. unfold main.
    destruct (Z.ltb_spec T 0); [intros [= <-]; by eexists|].
    destruct (Z.eqb_spec T 0); [intros [= <-]; by eexists|lia].
Qed.

Lemma no_validation_witness :
  (1 <= 1 ->
     main 0 1 (sequential_schedule 0 1) = Some (Returned 0 nan) /\
     (forall sched o, main 0 1 sched = Some o -> o = Returned 0 nan) /\
     (forall sched st (k : nat) d,
        exec 0 1 sched (initial 1) = Some st ->
        Z.of_nat k < spawned 1 (pc st) -> threadData st !! k = Some d ->
        start d = 0 /\ end_ d = 0)) /\
  (1 <= 0 -> forall N, rejected N 1).
Proof.
  apply (no_validation 1). unfold is_int, INT_MAX. lia.
Defined.

(** C5 as worded fails at N = 0, T = 1: the run returns 0 and prints NaN. *)
Lemma zero_subintervals_not_rejected :
  main 0 1 (sequential_schedule 0 1) = Some (Returned 0 nan) /\
  ~ rejected 0 1.
Proof.
  assert (main 0 1 (sequential_schedule 0 1) = Some (Returned 0 nan)) as Hrun
    by (vm_compute; reflexivity).
  split; [done|]. intros Hrej.
  destruct (Hrej _ _ Hrun) as [why Hwhy]. discriminate.
Qed.

(** ** The sample points and the sums of the integrand *)

Import Binary64.

Lemma add_zero_l y : nonneg_class (Prim2SF y) -> (0 + y)%float = y.
Proof.
  intros Hy. apply Prim2SF_inj. rewrite FloatAxioms.add_spec.
  change (Prim2SF 0) with (S754_zero false). unfold SF64add.
  by destruct (Prim2SF y) as [[|]|[|]| |[|] m e].
Qed.

Lemma add_zero_r y : nonneg_class (Prim2SF y) -> (y + 0)%float = y.
Proof.
  intros Hy. apply Prim2SF_inj. rewrite FloatAxioms.add_spec.
  change (Prim2SF 0) with (S754_zero false). unfold SF64add.
  by destruct (Prim2SF y) as [[|]|[|]| |[|] m e].
Qed.

Section Integrand.

Variable N : Z.
Hypothesis HN : 1 <= N < ULLONG_MOD.

Lemma integrand_nonneg_class k :
  0 <= k < N ->
  nonneg_class (Prim2SF (f (midpoint k (main_step_width N)))).
Proof. intros Hk. by apply (integrand_not_nan N k). Qed.

(** The running sum over a range inside [0, N) is not NaN and not
    negative. *)
Lemma midpoint_sum_nonneg_class a (n : nat) :
  0 <= a -> a + Z.of_nat n <= N ->
  nonneg_class (Prim2SF (midpoint_sum a (a + Z.of_nat n) (main_step_width N))).
Proof.
  intros Ha. induction n as [|n IH]; intros Hn.
  - by rewrite midpoint_sum_empty by lia.
  - replace (a + Z.of_nat (S n)) with (a + Z.of_nat n + 1) by lia.
    rewrite midpoint_sum_snoc by lia. rewrite FloatAxioms.add_spec.
    apply add_nonneg_class; [apply IH; lia|].
    apply integrand_nonneg_class. lia.
Qed.

End Integrand.

(** C6 as worded fails at N = 2^53, i = N - 1: the sample point is
    exactly 1.0. *)
Lemma sample_reaches_one :
  1 <= 2 ^ 53 < ULLONG_MOD /\ 0 <= 2 ^ 53 - 1 < 2 ^ 53 /\
  midpoint (2 ^ 53 - 1) (main_step_width (2 ^ 53)) = 1%float /\
  (midpoint (2 ^ 53 - 1) (main_step_width (2 ^ 53)) <? 1)%float = false /\
  f (midpoint (2 ^ 53 - 1) (main_step_width (2 ^ 53))) = 0%float.
Proof.
  unfold ULLONG_MOD. split; [lia|]. split; [lia|].
  split; [vm_compute; reflexivity|].
  split; vm_compute; reflexivity.
Qed.

(** C6, as the code has it: for every N >= 1 and 0 <= i < N the sample
    point x = (i + 0.5) * step, with step = 1.0 / N, all in double precision,
    is at least 0 and at most 1 (it can be exactly 1); the argument
    1 - x * x of the square root is not negative, and f(x) is not NaN. *)
Theorem sample_within_unit (N i : Z) :
  1 <= N < ULLONG_MOD -> 0 <= i < N ->
  let x := midpoint i (main_step_width N) in
  (0 <=? x)%float = true /\ (x <=? 1)%float = true /\
  (0 <=? 1 - x * x)%float = true /\
  is_nan (f x) = false.
Proof.
  intros HN Hi x.
  destruct (sample_bounds N i HN Hi) as [Hfin Hle].
  pose proof (radicand_nonneg N i HN Hi) as Hrad.
  pose proof (integrand_not_nan N i HN Hi) as Hnan.
  rewrite !FloatAxioms.leb_spec. change (Prim2SF 0) with (S754_zero false).
  rewrite Prim2SF_one.
  split; [by apply SFleb_zero|]. split; [|split].
  - apply SFleb_one; [done|apply Prim2SF_valid|done].
  - by apply SFleb_zero.
  - by apply nonneg_class_not_nan.
Qed.

Lemma sample_within_unit_witness :
  let x := midpoint 7 (main_step_width 8) in
  (0 <=? x)%float = true /\ (x <=? 1)%float = true /\
  (0 <=? 1 - x * x)%float = true /\
  is_nan (f x) = false.
Proof.
  apply (sample_within_unit 8 7); unfold ULLONG_MOD; lia.
Defined.

(** ** More threads than subintervals *)

Section MoreThreadsThanSubintervals.

Variables (N T : Z).
Hypothesis HN : 1 <= N < ULLONG_MOD.
Hypothesis HT : N < T <= INT_MAX.

Lemma range_start_small k : 0 <= k -> range_start N T k = Z.min k N.
Proof.
  intros Hk. unfold range_start, chunk, remainder.
  rewrite ull_of_int_T by lia.
  rewrite Z.div_small, Z.mod_small by lia. lia.
Qed.

(** Worker k < N gets the single index k. *)
Lemma partial_sum_single k :
  0 <= k < N ->
  partial_sum N T k = f (midpoint k (main_step_width N)).
Proof.
  intros Hk. unfold partial_sum, range_end.
  rewrite !range_start_small by lia.
  rewrite Z.min_l, Z.min_l by lia.
  rewrite midpoint_sum_snoc by lia. rewrite midpoint_sum_empty by lia.
  apply add_zero_l. by apply integrand_nonneg_class.
Qed.

(** Worker k >= N gets the empty range [N, N). *)
Lemma partial_sum_none k : N <= k -> partial_sum N T k = 0%float.
Proof.
  intros Hk. unfold partial_sum, range_end.
  rewrite !range_start_small by lia.
  apply midpoint_sum_empty. lia.
Qed.

(** After the first n <= N joins, [totalSum] is the running sum over
    [0, n). *)
Lemma total_sum_prefix (n : nat) :
  Z.of_nat n <= N ->
  total_sum N T (Z.of_nat n) = midpoint_sum 0 (Z.of_nat n) (main_step_width N).
Proof.
  induction n as [|n IH]; intros Hn; [done|].
  rewrite Nat2Z.inj_succ, <- Z.add_1_r.
  rewrite total_sum_snoc, midpoint_sum_snoc by lia.
  rewrite partial_sum_single by lia. by rewrite IH by lia.
Qed.

(** The joins of the empty ranges add +0.0, which changes nothing. *)
Lemma total_sum_suffix (n : nat) :
  total_sum N T (N + Z.of_nat n) = midpoint_sum 0 N (main_step_width N).
Proof.
  induction n as [|n IH].
  - rewrite Z.add_0_r. pose proof (total_sum_prefix (Z.to_nat N)) as Hp.
    rewrite Z2Nat.id in Hp by lia. apply Hp. lia.
  - replace (N + Z.of_nat (S n)) with (N + Z.of_nat n + 1) by lia.
    rewrite total_sum_snoc by lia. rewrite partial_sum_none by lia.
    rewrite IH. apply add_zero_r.
    pose proof (midpoint_sum_nonneg_class N HN 0 (Z.to_nat N)) as Hc.
    rewrite Z.add_0_l, Z2Nat.id in Hc by lia. apply Hc; lia.
Qed.

Lemma total_sum_single_thread :
  total_sum N 1 1 = midpoint_sum 0 N (main_step_width N).
Proof.
  assert (range_start N 1 0 = 0 /\ range_end N 1 0 = N) as [Hs He].
  { unfold range_end, range_start, chunk, remainder.
    change (ull_of_int 1) with 1. rewrite Z.div_1_r, Z.mod_1_r. lia. }
  unfold total_sum. rewrite (seqZ_cons 0 1), seqZ_nil by lia. simpl.
  unfold partial_sum. rewrite Hs, He.
  apply add_zero_l.
  pose proof (midpoint_sum_nonneg_class N HN 0 (Z.to_nat N)) as Hc.
  rewrite Z.add_0_l, Z2Nat.id in Hc by lia. apply Hc; lia.
Qed.

Lemma pi_approx_of_more_threads : pi_approx_of N T = pi_approx_of N 1.
Proof.
  unfold pi_approx_of. rewrite total_sum_single_thread.
  replace T with (N + Z.of_nat (Z.to_nat (T - N))) at 2 by lia.
  by rewrite total_sum_suffix.
Qed.

End MoreThreadsThanSubintervals.

(** C7: with T > N >= 1, every worker from index N on gets an empty
    range (start = end) and its sum is 0.0; every complete run prints the
    very double that the run with one thread prints (adding the terms one
    per worker, and the zeros of the empty ranges, rounds nowhere
    differently); for N = 1 and T = 4 the ranges are [0,1), [1,1), [1,1),
    [1,1) and the output is that of N = 1, T = 1. *)
Theorem more_threads_than_subintervals (N T : Z) :
  1 <= N < ULLONG_MOD -> N < T <= INT_MAX ->
  (forall sched st (k : nat) d,
     exec N T sched (initial T) = Some st -> partition_done st ->
     N <= Z.of_nat k -> threadData st !! k = Some d ->
     start d = end_ d /\ partial_sum N T (Z.of_nat k) = 0%float) /\
  (forall sched sched1 code code1 p p1,
     main N T sched = Some (Returned code p) ->
     main N 1 sched1 = Some (Returned code1 p1) ->
     p = p1) /\
  (exists sched sched1 code code1 p p1,
     main N T sched = Some (Returned code p) /\
     main N 1 sched1 = Some (Returned code1 p1)) /\
  (forall sched st,
     exec 1 4 sched (initial 4) = Some st -> partition_done st ->
     map (fun d => (start d, end_ d)) (threadData st)
     = [(0, 1); (1, 1); (1, 1); (1, 1)]) /\
  pi_approx_of 1 4 = pi_approx_of 1 1.
Proof.
  intros HN HT.
  assert (0 <= N < ULLONG_MOD) as HN' by lia.
  assert (1 <= T <= INT_MAX) as HT' by lia.
  assert (1 <= 1 <= INT_MAX) as H1 by (unfold INT_MAX; lia).
  split; [|split; [|split; [|split]]].
  - intros sched st k d Hrun Hdone Hk Hd.
    pose proof (reachable_Inv N T HN' HT' _ _ Hrun) as Hinv.
    destruct (slot_after_spawn N T HT' st k d Hinv) as (-> & -> & _);
      [|done|].
    { rewrite partition_done_spawned by done.
      apply lookup_lt_Some in Hd. destruct Hinv. lia. }
    split; [|by apply partial_sum_none].
    unfold range_end. rewrite !(range_start_small N T) by lia. lia.
  - intros sched sched1 code code1 p p1 Hrun Hrun1.
    apply (main_outcome N T _ _ HN' HT') in Hrun.
    apply (main_outcome N 1 _ _ HN' H1) in Hrun1.
    simplify_eq. by apply pi_approx_of_more_threads.
  - eexists (sequential_schedule N T), (sequential_schedule N 1), _, _, _, _.
    split; by apply sequential_run.
  - intros sched st Hrun Hdone.
    assert (0 <= 1 < ULLONG_MOD) as HN1 by (unfold ULLONG_MOD; lia).
    assert (1 <= 4 <= INT_MAX) as HT4 by (unfold INT_MAX; lia).
    pose proof (reachable_Inv 1 4 HN1 HT4 _ _ Hrun) as Hinv.
    assert (forall (k : nat) d, threadData st !! k = Some d ->
      start d = range_start 1 4 (Z.of_nat k) /\
      end_ d = range_end 1 4 (Z.of_nat k)) as Hds.
    { intros k d Hd.
      destruct (slot_after_spawn 1 4 HT4 st k d Hinv) as (Hs & He & _);
        [|done|done].
      rewrite partition_done_spawned by done.
      apply lookup_lt_Some in Hd. destruct Hinv. lia. }
    destruct Hinv as [_ Hlen _ _ _ _].
    destruct (threadData st) as [|d0 [|d1 [|d2 [|d3 [|d4 ds]]]]];
      try discriminate.
    cbn [map].
    destruct (Hds 0%nat d0 eq_refl) as [-> ->].
    destruct (Hds 1%nat d1 eq_refl) as [-> ->].
    destruct (Hds 2%nat d2 eq_refl) as [-> ->].
    destruct (Hds 3%nat d3 eq_refl) as [-> ->].
    reflexivity.
  - vm_compute. reflexivity.
Qed.

Lemma more_threads_than_subintervals_witness :
  (forall sched st (k : nat) d,
     exec 2 3 sched (initial 3) = Some st -> partition_done st ->
     2 <= Z.of_nat k -> threadData st !! k = Some d ->
     start d = end_ d /\ partial_sum 2 3 (Z.of_nat k) = 0%float) /\
  (forall sched sched1 code code1 p p1,
     main 2 3 sched = Some (Returned code p) ->
     main 2 1 sched1 = Some (Returned code1 p1) ->
     p = p1) /\
  (exists sched sched1 code code1 p p1,
     main 2 3 sched = Some (Returned code p) /\
     main 2 1 sched1 = Some (Returned code1 p1)) /\
  (forall sched st,
     exec 1 4 sched (initial 4) = Some st -> partition_done st ->
     map (fun d => (start d, end_ d)) (threadData st)
     = [(0, 1); (1, 1); (1, 1); (1, 1)]) /\
  pi_approx_of 1 4 = pi_approx_of 1 1.
Proof.
  apply (more_threads_than_subintervals 2 3); unfold ULLONG_MOD, INT_MAX; lia.
Defined.


(** * Further properties of the program *)

(** ** Records and threads that the main thread has not reached yet *)

(** From index [spawned] on, no thread has been created and the records
    are as [threadData(T)] value-initialised them. *)
Definition untouched_above (T : Z) (st : State) : Prop :=
  forall k : nat,
    spawned T (pc st) <= Z.of_nat k -> Z.of_nat k < T ->
    threads st !! k = Some Unstarted /\ threadData st !! k = Some zero_data.

Lemma untouched_initial T : untouched_above T (initial T).
Proof.
  intros k _ Hk. simpl. split; apply lookup_replicate_2; lia.
Qed.

Lemma system_step_untouched N T a st st' :
  0 <= N < ULLONG_MOD -> 1 <= T <= INT_MAX ->
  Inv N T st -> untouched_above T st ->
  system_step N T a st = Some st' -> untouched_above T st'.
Proof.
  intros HN HT Hinv Hun. unfold untouched_above in *.
  destruct a as [|k]; simpl.
  - unfold main_step.
    destruct (pc st) as [i cs|i ts|o] eqn:Hpc; [| |discriminate].
    + pose proof (inv_pc _ _ _ Hinv) as Hok. rewrite Hpc in Hok.
      destruct Hok as [Hi _]. simpl in Hun.
      destruct (Z.ltb_spec i T).
      * intros [= <-] j Hj HjT. simpl in *.
        rewrite !list_lookup_insert_ne by lia. apply Hun; lia.
      * intros [= <-] j Hj HjT. simpl in *. lia.
    + simpl in Hun. destruct (Z.ltb_spec i T).
      * destruct (threads st !! Z.to_nat i) as [[| |]|]; try discriminate.
        destruct (threadData st !! Z.to_nat i); try discriminate.
        intros [= <-] j Hj HjT. simpl in *. lia.
      * intros [= <-] j Hj HjT. simpl in *. lia.
  - unfold worker_step.
    destruct (threads st !! k) as [[|fr|]|] eqn:Hth; try discriminate.
    destruct (threadData st !! k) as [d|] eqn:Hd; try discriminate.
    assert (Z.of_nat k < spawned T (pc st)) as Hk.
    { destruct (Z.lt_ge_cases (Z.of_nat k) (spawned T (pc st))); [done|].
      destruct (Hun k) as [Hu _]; [lia| |congruence].
      apply lookup_lt_Some in Hth. destruct Hinv. lia. }
    assert (forall th' d', untouched_above T
              {| threads := <[k:=th']> (threads st);
                 threadData := <[k:=d']> (threadData st); pc := pc st |})
      as Hput.
    { intros th' d' j Hj HjT. simpl in *.
      rewrite !list_lookup_insert_ne by lia. by apply Hun. }
    destruct (threadFunction_step fr d) as [[[| |] d']|]; intros [= <-];
      apply Hput.
Qed.

Lemma reachable_untouched N T sched : forall st,
  0 <= N < ULLONG_MOD -> 1 <= T <= INT_MAX ->
  exec N T sched (initial T) = Some st -> untouched_above T st.
Proof.
  intros st HN HT.
  assert (forall st0, Inv N T st0 -> untouched_above T st0 ->
            exec N T sched st0 = Some st -> untouched_above T st) as Hgen.
  { induction sched as [|a sched IH]; intros st0 Hinv Hun; simpl.
    - by intros [= <-].
    - destruct (system_step N T a st0) as [st1|] eqn:Hstep; [|discriminate].
      apply IH.
      + by apply (system_step_Inv N T HN HT a st0).
      + by apply (system_step_untouched N T a st0). }
  apply Hgen; [by apply Inv_initial|apply untouched_initial].
Qed.

(** X1: the main thread writes a record only before the thread that owns
    it exists.  In every reachable state in which the main thread is about
    to fill record i (line 112), thread i and all later ones have not been
    created and their records still hold the zeros of [threadData(T)]; and
    every thread that has been created has an index below i. *)
Theorem records_written_before_spawn (N T : Z) sched st i currentStart :
  0 <= N < ULLONG_MOD -> 1 <= T <= INT_MAX ->
  exec N T sched (initial T) = Some st ->
  pc st = Partitioning i currentStart ->
  (forall k : nat, i <= Z.of_nat k < T ->
     threads st !! k = Some Unstarted /\ threadData st !! k = Some zero_data) /\
  (forall (k : nat) th, threads st !! k = Some th -> th <> Unstarted ->
     Z.of_nat k < i).
Proof.
  intros HN HT Hrun Hpc.
  pose proof (reachable_untouched N T sched st HN HT Hrun) as Hun.
  pose proof (reachable_Inv N T HN HT _ _ Hrun) as Hinv.
  unfold untouched_above in Hun. rewrite Hpc in Hun. simpl in Hun. split.
  - intros k Hk. apply Hun; lia.
  - intros k th Hth Hne.
    destruct (Z.lt_ge_cases (Z.of_nat k) i); [done|].
    destruct (Hun k) as [Hu _]; [lia| |congruence].
    apply lookup_lt_Some in Hth. destruct Hinv. lia.
Qed.

Lemma records_written_before_spawn_witness :
  (forall k : nat, 1 <= Z.of_nat k < 3 ->
     threads {| threads := [Completed; Unstarted; Unstarted];
                threadData := [set_sum (task 8 3 0) (partial_sum 8 3 0);
                               zero_data; zero_data];
                pc := Partitioning 1 3 |} !! k = Some Unstarted /\
     threadData {| threads := [Completed; Unstarted; Unstarted];
                threadData := [set_sum (task 8 3 0) (partial_sum 8 3 0);
                               zero_data; zero_data];
                pc := Partitioning 1 3 |} !! k = Some zero_data) /\
  (forall (k : nat) th,
     threads {| threads := [Completed; Unstarted; Unstarted];
                threadData := [set_sum (task 8 3 0) (partial_sum 8 3 0);
                               zero_data; zero_data];
                pc := Partitioning 1 3 |} !! k = Some th ->
     th <> Unstarted -> Z.of_nat k < 1).
Proof.
  apply (records_written_before_spawn 8 3
           (spawn_and_run 8 3 0)
           {| threads := [Completed; Unstarted; Unstarted];
              threadData := [set_sum (task 8 3 0) (partial_sum 8 3 0);
                             zero_data; zero_data];
              pc := Partitioning 1 3 |} 1 3).
  - unfold ULLONG_MOD. lia.
  - unfold INT_MAX. lia.
  - vm_compute. reflexivity.
  - reflexivity.
Defined.

(** ** No deadlock, and how long a run is *)

Lemma threadFunction_step_enabled fr data :
  fr <> Return -> exists fr' data', threadFunction_step fr data = Some (fr', data').
Proof.
  destruct fr as [|i ps|]; [| |done]; intros _; simpl.
  - by eexists _, _.
  - destruct (i <? end_ data); by eexists _, _.
Qed.

Lemma worker_step_enabled (k : nat) st fr d :
  threads st !! k = Some (Running fr) -> threadData st !! k = Some d ->
  fr <> Return -> exists st', worker_step k st = Some st'.
Proof.
  intros Hth Hd Hfr. unfold worker_step. rewrite Hth, Hd.
  destruct (threadFunction_step_enabled fr d Hfr) as (fr' & d' & ->).
  destruct fr'; by eexists.
Qed.

(** Where the invariant holds and the main thread has not returned, the
    main thread can move, or it waits for a worker that can. *)
Lemma Inv_enabled N T st :
  1 <= T <= INT_MAX -> Inv N T st ->
  (forall o, pc st <> Exited o) ->
  (exists st', main_step N T st = Some st') \/
  (exists i totalSum st',
     pc st = Reducing i totalSum /\ 0 <= i < T /\
     threads st !! Z.to_nat i <> Some Completed /\
     worker_step (Z.to_nat i) st = Some st').
Proof.
  intros HT Hinv Hlive.
  pose proof (inv_pc _ _ _ Hinv) as Hok.
  pose proof (inv_spawned _ _ _ Hinv) as Hsp.
  unfold main_step.
  destruct (pc st) as [i cs|i ts|o] eqn:Hpc; simpl in Hok, Hsp.
  - left. destruct (i <? T); by eexists.
  - destruct Hok as [Hi _]. destruct (Z.ltb_spec i T) as [HiT|HiT];
      [|left; by eexists].
    destruct (lookup_lt_is_Some_2 (threads st) (Z.to_nat i)) as [th Hth].
    { destruct Hinv. lia. }
    destruct (lookup_lt_is_Some_2 (threadData st) (Z.to_nat i)) as [d Hd].
    { destruct Hinv. lia. }
    rewrite Hth, Hd. destruct th as [|fr|].
    + exfalso. apply (Hsp (Z.to_nat i)); [lia|done].
    + right. pose proof (inv_slot _ _ _ Hinv _ _ _ Hth Hd) as Hslot.
      destruct (worker_step_enabled (Z.to_nat i) st fr d Hth Hd) as [st' Hst'].
      { intros ->. exact Hslot. }
      exists i, ts, st'. rewrite Hth. by repeat split; try lia.
    + left. by eexists.
  - by destruct (Hlive o).
Qed.

(** X2: the program cannot get stuck.  In every reachable state in which
    the main thread has not returned, some thread can move: the main thread
    itself, unless it waits in [join] for a worker that has not completed,
    and then that worker can move. *)
Theorem no_deadlock (N T : Z) sched st :
  0 <= N < ULLONG_MOD -> 1 <= T <= INT_MAX ->
  exec N T sched (initial T) = Some st ->
  (forall o, pc st <> Exited o) ->
  (exists st', main_step N T st = Some st') \/
  (exists i totalSum st',
     pc st = Reducing i totalSum /\ 0 <= i < T /\
     threads st !! Z.to_nat i <> Some Completed /\
     worker_step (Z.to_nat i) st = Some st').
Proof.
  intros HN HT Hrun Hlive.
  apply Inv_enabled; [done| |done].
  by apply (reachable_Inv N T HN HT sched).
Qed.

Lemma no_deadlock_witness :
  (exists st', main_step 8 3 (initial 3) = Some st') \/
  (exists i totalSum st',
     pc (initial 3) = Reducing i totalSum /\ 0 <= i < 3 /\
     threads (initial 3) !! Z.to_nat i <> Some Completed /\
     worker_step (Z.to_nat i) (initial 3) = Some st').
Proof.
  apply (no_deadlock 8 3 []).
  - unfold ULLONG_MOD. lia.
  - unfold INT_MAX. lia.
  - reflexivity.
  - intros o. discriminate.
Defined.

(** Transitions that thread [th] still has to make on record [d]. *)
Definition work_left (th : Thread) (d : ThreadData) : Z :=
  match th with
  | Running Entry => end_ d - start d + 2
  | Running (Loop i _) => end_ d - i + 1
  | _ => 0
  end.

Fixpoint workers_left (ths : list Thread) (ds : list ThreadData) : Z :=
  match ths, ds with
  | th :: ths', d :: ds' => work_left th d + workers_left ths' ds'
  | _, _ => 0
  end.

(** Transitions that the main thread still has to make, together with
    those of the threads it has yet to create. *)
Definition main_left (N T : Z) (p : MainPc) : Z :=
  match p with
  | Partitioning i currentStart => 4 * T - 3 * i + 2 + (N - currentStart)
  | Reducing i _ => T - i + 1
  | Exited _ => 0
  end.

Definition steps_left (N T : Z) (st : State) : Z :=
  main_left N T (pc st) + workers_left (threads st) (threadData st).

Lemma workers_left_insert ths : forall ds (k : nat) th d th' d',
  ths !! k = Some th -> ds !! k = Some d ->
  workers_left (<[k:=th']> ths) (<[k:=d']> ds) =
  workers_left ths ds - work_left th d + work_left th' d'.
Proof.
  induction ths as [|th0 ths IH]; intros ds k th d th' d' Hth Hd; [done|].
  destruct ds as [|d0 ds]; [done|].
  destruct k as [|k]; simpl in *.
  - simplify_eq. lia.
  - rewrite (IH ds k th d th' d' Hth Hd). lia.
Qed.

Lemma workers_left_nonneg ths : forall ds,
  (forall (k : nat) th d, ths !! k = Some th -> ds !! k = Some d ->
     0 <= work_left th d) ->
  0 <= workers_left ths ds.
Proof.
  induction ths as [|th0 ths IH]; intros ds Hall; [done|].
  destruct ds as [|d0 ds]; [done|]. simpl.
  pose proof (Hall 0%nat th0 d0 eq_refl eq_refl).
  assert (0 <= workers_left ths ds); [|lia].
  apply IH. intros k th d Hth Hd. by apply (Hall (S k)).
Qed.

Lemma workers_left_replicate n th d :
  work_left th d = 0 -> workers_left (replicate n th) (replicate n d) = 0.
Proof. intros H0. induction n as [|n IH]; simpl; lia. Qed.

Lemma system_step_steps_left N T a st st' :
  0 <= N < ULLONG_MOD -> 1 <= T <= INT_MAX ->
  Inv N T st -> untouched_above T st ->
  system_step N T a st = Some st' ->
  steps_left N T st' = steps_left N T st - 1.
Proof.
  intros HN HT Hinv Hun. unfold steps_left.
  pose proof (inv_pc _ _ _ Hinv) as Hok.
  destruct a as [|k]; simpl.
  - unfold main_step, untouched_above in *.
    destruct (pc st) as [i cs|i ts|o] eqn:Hpc; simpl in Hok, Hun;
      [| |discriminate].
    + destruct Hok as [Hi ->]. destruct (Z.ltb_spec i T) as [HiT|HiT].
      * intros [= <-]. simpl.
        destruct (Hun (Z.to_nat i)) as [Hth Hd]; [lia|lia|].
        rewrite (workers_left_insert _ _ _ _ _ _ _ Hth Hd).
        rewrite current_end_range by (done || lia). simpl.
        pose proof (range_start_le N T HN HT i ltac:(lia)). lia.
      * intros [= <-]. simpl. assert (i = T) as -> by lia.
        rewrite range_start_T by done. lia.
    + destruct (Z.ltb_spec i T) as [HiT|HiT].
      * destruct (threads st !! Z.to_nat i) as [[| |]|]; try discriminate.
        destruct (threadData st !! Z.to_nat i); try discriminate.
        intros [= <-]. simpl. lia.
      * intros [= <-]. simpl. lia.
  - unfold worker_step.
    destruct (threads st !! k) as [[|fr|]|] eqn:Hth; try discriminate.
    destruct (threadData st !! k) as [d|] eqn:Hd; try discriminate.
    pose proof (inv_slot _ _ _ Hinv _ _ _ Hth Hd) as Hslot.
    assert (Z.of_nat k < T) as HkT.
    { apply lookup_lt_Some in Hth. destruct Hinv. lia. }
    destruct (task_range_ok N T HN HT k HkT) as [Hr He].
    destruct fr as [|i ps|]; simpl in Hslot; [| |done].
    + simpl. intros [= <-]. simpl.
      rewrite (workers_left_insert _ _ _ _ _ _ _ Hth Hd). simpl. lia.
    + destruct Hslot as [-> Hloop].
      destruct (Z.lt_ge_cases i (end_ (task N T (Z.of_nat k)))) as [Hlt|Hge].
      * destruct (loop_step_inv _ Hr He i ps Hloop Hlt) as [-> _].
        intros [= <-]. simpl.
        rewrite (workers_left_insert _ _ _ _ _ _ _ Hth Hd). simpl. lia.
      * rewrite (loop_exit_step _ i ps Hloop) by lia.
        intros [= <-]. simpl.
        rewrite (workers_left_insert _ _ _ _ _ _ _ Hth Hd). simpl.
        destruct Hloop as [Hi _]. simpl in Hi, Hge. lia.
Qed.

Lemma exec_steps_left N T sched : forall st st',
  0 <= N < ULLONG_MOD -> 1 <= T <= INT_MAX ->
  Inv N T st -> untouched_above T st ->
  exec N T sched st = Some st' ->
  steps_left N T st' + Z.of_nat (length sched) = steps_left N T st.
Proof.
  induction sched as [|a sched IH]; intros st st' HN HT Hinv Hun; simpl.
  - intros [= <-]. lia.
  - destruct (system_step N T a st) as [st1|] eqn:Hstep; [|discriminate].
    intros Hrun.
    pose proof (system_step_steps_left N T a st st1 HN HT Hinv Hun Hstep).
    assert (steps_left N T st' + Z.of_nat (length sched) =
            steps_left N T st1); [|lia].
    apply IH; try done.
    + by apply (system_step_Inv N T HN HT a st).
    + by apply (system_step_untouched N T a st).
Qed.

Lemma steps_left_nonneg N T st :
  0 <= N < ULLONG_MOD -> 1 <= T <= INT_MAX ->
  Inv N T st -> 0 <= steps_left N T st.
Proof.
  intros HN HT Hinv. unfold steps_left.
  assert (0 <= workers_left (threads st) (threadData st)) as Hw.
  { apply workers_left_nonneg. intros k th d Hth Hd.
    pose proof (inv_slot _ _ _ Hinv _ _ _ Hth Hd) as Hslot.
    assert (Z.of_nat k < T) as HkT.
    { apply lookup_lt_Some in Hth. destruct Hinv. lia. }
    destruct (task_range_ok N T HN HT k HkT) as [Hr He].
    destruct th as [|[|i ps|]|]; simpl in Hslot |- *; try lia.
    destruct Hslot as [-> _]. lia. }
  pose proof (inv_pc _ _ _ Hinv) as Hok.
  destruct (pc st) as [i cs|i ts|o]; simpl in *; [|lia|lia].
  destruct Hok as [Hi ->].
  pose proof (range_start_mono N T HN HT i T ltac:(lia)) as Hm.
  rewrite range_start_T in Hm by done. lia.
Qed.

Lemma workers_left_completed ths : forall ds,
  (forall (k : nat) th, ths !! k = Some th -> th = Completed) ->
  workers_left ths ds = 0.
Proof.
  induction ths as [|th ths IH]; intros ds Hall; [done|].
  destruct ds as [|d ds]; [done|]. simpl.
  rewrite (Hall 0%nat th eq_refl). simpl.
  apply IH. intros k th' Hk. by apply (Hall (S k)).
Qed.

Lemma steps_left_exited N T st o :
  1 <= T <= INT_MAX -> Inv N T st -> pc st = Exited o ->
  steps_left N T st = 0.
Proof.
  intros HT Hinv Hpc. unfold steps_left. rewrite Hpc. simpl.
  apply workers_left_completed. intros k th Hth.
  pose proof (inv_joined _ _ _ Hinv k) as Hj. rewrite Hpc in Hj. simpl in Hj.
  rewrite Hj in Hth; [by simplify_eq|].
  apply lookup_lt_Some in Hth. destruct Hinv. lia.
Qed.

Lemma steps_left_initial N T :
  1 <= T <= INT_MAX -> steps_left N T (initial T) = N + 4 * T + 2.
Proof.
  intros HT. unfold steps_left. simpl.
  rewrite workers_left_replicate by done. lia.
Qed.

(** X3: every run ends, and all complete runs are equally long.  A
    schedule that can be executed from the start has at most N + 4 * T + 2
    transitions, and it has exactly that many when it is a complete run. *)
Theorem run_length (N T : Z) sched st :
  0 <= N < ULLONG_MOD -> 1 <= T <= INT_MAX ->
  exec N T sched (initial T) = Some st ->
  Z.of_nat (length sched) <= N + 4 * T + 2 /\
  ((exists o, pc st = Exited o) ->
   Z.of_nat (length sched) = N + 4 * T + 2).
Proof.
  intros HN HT Hrun.
  pose proof (exec_steps_left N T sched _ _ HN HT
                (Inv_initial N T HT) (untouched_initial T) Hrun) as Hlen.
  rewrite steps_left_initial in Hlen by done.
  pose proof (reachable_Inv N T HN HT _ _ Hrun) as Hinv.
  pose proof (steps_left_nonneg N T st HN HT Hinv) as Hnn.
  split; [lia|]. intros [o Hpc].
  rewrite (steps_left_exited N T st o) in Hlen; [lia|done|done|done].
Qed.

Lemma run_length_witness :
  Z.of_nat (length lockstep_2_2) <= 2 + 4 * 2 + 2 /\
  ((exists o, pc {| threads := [Completed; Completed];
                    threadData := [set_sum (task 2 2 0) (partial_sum 2 2 0);
                                   set_sum (task 2 2 1) (partial_sum 2 2 1)];
                    pc := Exited (Returned 0 (pi_approx_of 2 2)) |}
               = Exited o) ->
   Z.of_nat (length lockstep_2_2) = 2 + 4 * 2 + 2).
Proof.
  apply (run_length 2 2 lockstep_2_2).
  - unfold ULLONG_MOD. lia.
  - unfold INT_MAX. lia.
  - vm_compute. reflexivity.
Defined.


(** ** Threads do not interfere *)

(** A transition of worker [k] reads and writes element [k] only. *)
Lemma worker_step_local (k : nat) st st' :
  worker_step k st = Some st' ->
  exists fr th' d',
    threads st !! k = Some (Running fr) /\
    st' = {| threads := <[k:=th']> (threads st);
             threadData := <[k:=d']> (threadData st); pc := pc st |} /\
    forall st2,
      threads st2 !! k = threads st !! k ->
      threadData st2 !! k = threadData st !! k ->
      worker_step k st2 =
        Some {| threads := <[k:=th']> (threads st2);
                threadData := <[k:=d']> (threadData st2); pc := pc st2 |}.
Proof.
  unfold worker_step.
  destruct (threads st !! k) as [[|fr|]|] eqn:Hth; try discriminate.
  destruct (threadData st !! k) as [d|] eqn:Hd; try discriminate.
  destruct (threadFunction_step fr d) as [[[|i ps|] d']|] eqn:Hs;
    intros [= <-]; eexists fr, _, d'; (split; [done|]);
    (split; [reflexivity|]); intros st2 -> ->; by rewrite Hs.
Qed.

Lemma workers_commute (j k : nat) st sj sk :
  j <> k -> worker_step j st = Some sj -> worker_step k st = Some sk ->
  exists st', worker_step k sj = Some st' /\ worker_step j sk = Some st'.
Proof.
  intros Hjk Hj Hk.
  destruct (worker_step_local j st sj Hj) as (frj & thj & dj & _ & -> & Hlj).
  destruct (worker_step_local k st sk Hk) as (frk & thk & dk & _ & -> & Hlk).
  eexists. split.
  - apply Hlk; simpl; by rewrite list_lookup_insert_ne.
  - rewrite Hlj by (simpl; by rewrite list_lookup_insert_ne). simpl.
    by rewrite (list_insert_insert_ne (threads st) j k),
               (list_insert_insert_ne (threadData st) j k).
Qed.

Lemma main_worker_commute N T (k : nat) st sm sk :
  Inv N T st -> untouched_above T st ->
  main_step N T st = Some sm -> worker_step k st = Some sk ->
  exists st', worker_step k sm = Some st' /\ main_step N T sk = Some st'.
Proof.
  intros Hinv Hun Hm Hk.
  destruct (worker_step_local k st sk Hk) as (fr & th' & d' & Hth & -> & Hl).
  pose proof (inv_pc _ _ _ Hinv) as Hok.
  unfold main_step in *. unfold untouched_above in Hun. simpl.
  destruct (pc st) as [i cs|i ts|o] eqn:Hpc; simpl in Hok, Hun;
    [| |discriminate].
  - destruct Hok as [Hi _]. destruct (Z.ltb_spec i T) as [HiT|HiT].
    + assert (k <> Z.to_nat i) as Hne.
      { intros ->. destruct (Hun (Z.to_nat i)) as [Hu _]; [lia|lia|].
        congruence. }
      injection Hm as <-. eexists. split.
      * apply Hl; simpl; by rewrite list_lookup_insert_ne.
      * simpl.
        by rewrite (list_insert_insert_ne (threads st) k (Z.to_nat i)),
                   (list_insert_insert_ne (threadData st) k (Z.to_nat i)).
    + injection Hm as <-. eexists. split; [by apply Hl|done].
  - destruct (Z.ltb_spec i T) as [HiT|HiT].
    + destruct (threads st !! Z.to_nat i) as [[| |]|] eqn:Hthi;
        try discriminate.
      destruct (threadData st !! Z.to_nat i) as [d|] eqn:Hdi;
        try discriminate.
      assert (k <> Z.to_nat i) as Hne by (intros ->; congruence).
      injection Hm as <-. eexists. split; [by apply Hl|].
      rewrite !list_lookup_insert_ne by done. by rewrite Hthi, Hdi.
    + injection Hm as <-. eexists. split; [by apply Hl|done].
Qed.

(** X5: transitions of different threads commute.  In every reachable
    state, when two different threads can each make their next transition,
    either order leads to the same state: a worker touches its own record
    only, and the main thread touches a record only before its thread
    exists and reads it only after that thread has completed. *)
Theorem independent_steps (N T : Z) sched st a b sa sb :
  0 <= N < ULLONG_MOD -> 1 <= T <= INT_MAX ->
  exec N T sched (initial T) = Some st ->
  a <> b ->
  system_step N T a st = Some sa -> system_step N T b st = Some sb ->
  exists st',
    system_step N T b sa = Some st' /\ system_step N T a sb = Some st'.
Proof.
  intros HN HT Hrun Hab Ha Hb.
  pose proof (reachable_Inv N T HN HT _ _ Hrun) as Hinv.
  pose proof (reachable_untouched N T sched st HN HT Hrun) as Hun.
  destruct a as [|j], b as [|k]; simpl in *.
  - done.
  - by apply (main_worker_commute N T k st).
  - destruct (main_worker_commute N T j st sb sa Hinv Hun Hb Ha)
      as (st' & H1 & H2).
    by exists st'.
  - apply (workers_commute j k st); [congruence|done|done].
Qed.

Lemma independent_steps_witness :
  exists st',
    system_step 2 2 (Worker 1)
      {| threads := [Running (Loop 0 0); Running Entry];
         threadData := [task 2 2 0; task 2 2 1];
         pc := Partitioning 2 2 |} = Some st' /\
    system_step 2 2 (Worker 0)
      {| threads := [Running Entry; Running (Loop 1 0)];
         threadData := [task 2 2 0; task 2 2 1];
         pc := Partitioning 2 2 |} = Some st'.
Proof.
  apply (independent_steps 2 2 [MainThread; MainThread]
           {| threads := [Running Entry; Running Entry];
              threadData := [task 2 2 0; task 2 2 1];
              pc := Partitioning 2 2 |} (Worker 0) (Worker 1)).
  - unfold ULLONG_MOD. lia.
  - unfold INT_MAX. lia.
  - vm_compute. reflexivity.
  - discriminate.
  - vm_compute. reflexivity.
  - vm_compute. reflexivity.
Defined.

(** ** Runs in a system that may refuse resources

    [main_step] takes the two vectors of lines 93 and 94 and every thread
    of line 118 as granted.  A system can refuse them: the allocation of a
    vector throws [std::bad_alloc], and the constructor of [std::thread]
    throws [std::system_error].  [main] catches neither, so the program is
    terminated there and prints no value. *)

(** What a system grants: the vectors, and the thread asked for at index
    [i]. *)
Record Granted := mkGranted {
  vectors_granted : bool;
  thread_granted : Z -> bool
}.

Inductive Uncaught := BadAlloc | SystemError (i : Z).

Inductive Status := Live (st : State) | Terminated (why : Uncaught).

(** One transition in such a system: line 118 for thread [i] terminates the
    program when the thread is refused; every other transition is as in
    [system_step]. *)
Definition system_step_in (env : Granted) (N T : Z) (a : Actor) (st : State)
  : option Status :=
  match a, pc st with
  | MainThread, Partitioning i _ =>
      if (i <? T) && negb (thread_granted env i)
      then Some (Terminated (SystemError i))
      else option_map Live (main_step N T st)
  | _, _ => option_map Live (system_step N T a st)
  end.

(** A terminated program makes no transition. *)
Fixpoint exec_in (env : Granted) (N T : Z) (sched : list Actor) (s : Status)
  : option Status :=
  match sched, s with
  | [], _ => Some s
  | a :: sched', Live st =>
      match system_step_in env N T a st with
      | Some s' => exec_in env N T sched' s'
      | None => None
      end
  | _ :: _, Terminated _ => None
  end.

(** Lines 93 and 94. *)
Definition initial_in (env : Granted) (T : Z) : Status :=
  if vectors_granted env then Live (initial T) else Terminated BadAlloc.







(** With N = 2 and T = 2 in a system that grants one thread only, the
    second request ends the program; without the vectors it does not
    start. *)
Example second_thread_refused :
  exec_in (mkGranted true (fun i => i <? 1)) 2 2 [MainThread; MainThread]
    (initial_in (mkGranted true (fun i => i <? 1)) 2)
  = Some (Terminated (SystemError 1)) /\
  initial_in (mkGranted false (fun _ => true)) 2 = Terminated BadAlloc.
Proof. split; reflexivity. Qed.



(** ** A completed thread's record is final *)

Lemma system_step_completed N T a st st' (k : nat) d :
  Inv N T st -> untouched_above T st ->
  system_step N T a st = Some st' ->
  threads st !! k = Some Completed -> threadData st !! k = Some d ->
  threads st' !! k = Some Completed /\ threadData st' !! k = Some d.
Proof.
  intros Hinv Hun Hstep Hth Hd. destruct a as [|j]; simpl in Hstep.
  - unfold main_step in Hstep. unfold untouched_above in Hun.
    pose proof (inv_pc _ _ _ Hinv) as Hok.
    destruct (pc st) as [i cs|i ts|o] eqn:Hpc; simpl in Hok, Hun;
      [| |discriminate].
    + destruct Hok as [Hi _]. destruct (Z.ltb_spec i T) as [HiT|HiT].
      * assert (k <> Z.to_nat i) as Hne.
        { intros ->. destruct (Hun (Z.to_nat i)) as [Hu _]; [lia|lia|].
          congruence. }
        injection Hstep as <-. simpl.
        by rewrite !list_lookup_insert_ne by done.
      * by injection Hstep as <-.
    + destruct (i <? T).
      * destruct (threads st !! Z.to_nat i) as [[| |]|]; try discriminate.
        destruct (threadData st !! Z.to_nat i); try discriminate.
        by injection Hstep as <-.
      * by injection Hstep as <-.
  - destruct (worker_step_local j st st' Hstep)
      as (fr & th' & d' & Hthj & -> & _).
    assert (k <> j) as Hne by (intros ->; congruence). simpl.
    by rewrite !list_lookup_insert_ne by done.
Qed.

(** X6: the sum of a thread is written once.  From the moment thread k
    has completed, its record stays as it is for the rest of the run, and
    it holds what one call of [threadFunction] on the record of lines
    112-115 returns; so that is the value line 127 reads. *)
Theorem completed_record_final (N T : Z) sched sched' st st' (k : nat) d :
  0 <= N < ULLONG_MOD -> 1 <= T <= INT_MAX ->
  exec N T sched (initial T) = Some st ->
  threads st !! k = Some Completed -> threadData st !! k = Some d ->
  exec N T sched' st = Some st' ->
  threads st' !! k = Some Completed /\ threadData st' !! k = Some d /\
  forall fuel,
    (Z.to_nat (range_end N T (Z.of_nat k) - range_start N T (Z.of_nat k)) + 2
       <= fuel)%nat ->
    threadFunction fuel (task N T (Z.of_nat k)) = Some d.
Proof.
  intros HN HT Hrun Hth Hd Hrun'.
  pose proof (reachable_Inv N T HN HT _ _ Hrun) as Hinv.
  pose proof (reachable_untouched N T sched st HN HT Hrun) as Hun.
  assert (threads st' !! k = Some Completed /\ threadData st' !! k = Some d)
    as [Hth' Hd'].
  { clear Hrun. revert st Hinv Hun Hth Hd Hrun'.
    induction sched' as [|a sched' IH]; intros st Hinv Hun Hth Hd; simpl.
    - by intros [= <-].
    - destruct (system_step N T a st) as [st1|] eqn:Hstep; [|discriminate].
      destruct (system_step_completed N T a st st1 k d Hinv Hun Hstep Hth Hd).
      apply IH; [|by apply (system_step_untouched N T a st)|done|done].
      by apply (system_step_Inv N T HN HT a st). }
  split; [done|]. split; [done|]. intros fuel Hfuel.
  pose proof (inv_slot _ _ _ Hinv _ _ _ Hth Hd) as Hslot. simpl in Hslot.
  assert (Z.of_nat k < T) as HkT.
  { apply lookup_lt_Some in Hth. destruct Hinv. lia. }
  destruct (task_range_ok N T HN HT k HkT) as [Hr He].
  rewrite Hslot. by apply threadFunction_total.
Qed.

Lemma completed_record_final_witness :
  threads {| threads := [Completed; Running Entry; Unstarted];
             threadData := [set_sum (task 8 3 0) (partial_sum 8 3 0);
                            task 8 3 1; zero_data];
             pc := Partitioning 2 6 |} !! 0%nat = Some Completed /\
  threadData {| threads := [Completed; Running Entry; Unstarted];
                threadData := [set_sum (task 8 3 0) (partial_sum 8 3 0);
                               task 8 3 1; zero_data];
                pc := Partitioning 2 6 |} !! 0%nat =
    Some (set_sum (task 8 3 0) (partial_sum 8 3 0)) /\
  forall fuel,
    (Z.to_nat (range_end 8 3 (Z.of_nat 0) - range_start 8 3 (Z.of_nat 0)) + 2
       <= fuel)%nat ->
    threadFunction fuel (task 8 3 (Z.of_nat 0)) =
      Some (set_sum (task 8 3 0) (partial_sum 8 3 0)).
Proof.
  apply (completed_record_final 8 3 (spawn_and_run 8 3 0) [MainThread]
           {| threads := [Completed; Unstarted; Unstarted];
              threadData := [set_sum (task 8 3 0) (partial_sum 8 3 0);
                             zero_data; zero_data];
              pc := Partitioning 1 3 |}).
  - unfold ULLONG_MOD. lia.
  - unfold INT_MAX. lia.
  - vm_compute. reflexivity.
  - reflexivity.
  - reflexivity.
  - vm_compute. reflexivity.
Defined.

(** X7: no thread is left behind.  When the main thread returns, each of
    the T threads has been created, has run to its end and has been
    joined: the vector [threads] holds no thread that is still joinable. *)
Theorem all_joined_at_return (N T : Z) sched st o :
  0 <= N < ULLONG_MOD -> 1 <= T <= INT_MAX ->
  exec N T sched (initial T) = Some st -> pc st = Exited o ->
  threads st = replicate (Z.to_nat T) Completed.
Proof.
  intros HN HT Hrun Hpc.
  pose proof (reachable_Inv N T HN HT _ _ Hrun) as Hinv.
  symmetry. apply replicate_as_Forall. split; [by destruct Hinv|].
  apply Forall_lookup. intros k th Hth.
  pose proof (inv_joined _ _ _ Hinv k) as Hj. rewrite Hpc in Hj. simpl in Hj.
  rewrite Hj in Hth; [by simplify_eq|].
  apply lookup_lt_Some in Hth. destruct Hinv. lia.
Qed.

Lemma all_joined_at_return_witness :
  threads {| threads := [Completed; Completed];
             threadData := [set_sum (task 2 2 0) (partial_sum 2 2 0);
                            set_sum (task 2 2 1) (partial_sum 2 2 1)];
             pc := Exited (Returned 0 (pi_approx_of 2 2)) |} =
  replicate (Z.to_nat 2) Completed.
Proof.
  apply (all_joined_at_return 2 2 lockstep_2_2 _
           (Returned 0 (pi_approx_of 2 2))).
  - unfold ULLONG_MOD. lia.
  - unfold INT_MAX. lia.
  - vm_compute. reflexivity.
  - reflexivity.
Defined.

(** ** Index arithmetic *)

(** X8: the unsigned arithmetic on indices never wraps around.  In every
    reachable state, the bound computed on lines 107-110 is the exact sum
    [currentStart + chunk], plus one below [remainder], and it is at most N;
    and the counter of a worker's loop lies within the worker's own range,
    which lies within [0, N], so that [++i] on line 61 is an exact
    increment. *)
Theorem index_arithmetic_exact (N T : Z) sched st :
  0 <= N < ULLONG_MOD -> 1 <= T <= INT_MAX ->
  exec N T sched (initial T) = Some st ->
  (forall i currentStart,
     pc st = Partitioning i currentStart -> i < T ->
     current_end N T i currentStart =
       currentStart + chunk N T + (if i <? remainder N T then 1 else 0) /\
     current_end N T i currentStart <= N) /\
  (forall (k : nat) i partialSum d,
     threads st !! k = Some (Running (Loop i partialSum)) ->
     threadData st !! k = Some d ->
     0 <= start d <= i /\ i <= end_ d <= N /\
     (i < end_ d -> wrap64 (i + 1) = i + 1)).
Proof.
  intros HN HT Hrun.
  pose proof (reachable_Inv N T HN HT _ _ Hrun) as Hinv. split.
  - intros i cs Hpc HiT.
    pose proof (inv_pc _ _ _ Hinv) as Hok. rewrite Hpc in Hok.
    destruct Hok as [Hi ->].
    rewrite current_end_range by (done || lia).
    pose proof (range_length N T i) as Hlen.
    pose proof (range_end_le_N N T HN HT i ltac:(lia)). lia.
  - intros k i ps d Hth Hd.
    pose proof (inv_slot _ _ _ Hinv _ _ _ Hth Hd) as [-> [Hi _]].
    assert (Z.of_nat k < T) as HkT.
    { apply lookup_lt_Some in Hth. destruct Hinv. lia. }
    destruct (task_range_ok N T HN HT k HkT) as [Hr He].
    pose proof (range_end_le_N N T HN HT (Z.of_nat k) ltac:(lia)) as HeN.
    simpl in *. repeat split; try lia.
    intros Hlt. apply wrap64_small. unfold is_ull. lia.
Qed.

Lemma index_arithmetic_exact_witness :
  (forall i currentStart,
     pc {| threads := [Running (Loop 1 (f (midpoint 0 (main_step_width 8))));
                       Unstarted; Unstarted];
           threadData := [task 8 3 0; zero_data; zero_data];
           pc := Partitioning 1 3 |} = Partitioning i currentStart ->
     i < 3 ->
     current_end 8 3 i currentStart =
       currentStart + chunk 8 3 + (if i <? remainder 8 3 then 1 else 0) /\
     current_end 8 3 i currentStart <= 8) /\
  (forall (k : nat) i partialSum d,
     threads {| threads := [Running (Loop 1 (f (midpoint 0 (main_step_width 8))));
                            Unstarted; Unstarted];
                threadData := [task 8 3 0; zero_data; zero_data];
                pc := Partitioning 1 3 |} !! k =
       Some (Running (Loop i partialSum)) ->
     threadData {| threads := [Running (Loop 1 (f (midpoint 0 (main_step_width 8))));
                               Unstarted; Unstarted];
                   threadData := [task 8 3 0; zero_data; zero_data];
                   pc := Partitioning 1 3 |} !! k = Some d ->
     0 <= start d <= i /\ i <= end_ d <= 8 /\
     (i < end_ d -> wrap64 (i + 1) = i + 1)).
Proof.
  apply (index_arithmetic_exact 8 3 [MainThread; Worker 0; Worker 0]).
  - unfold ULLONG_MOD. lia.
  - unfold INT_MAX. lia.
  - vm_compute. reflexivity.
Defined.

(** X9: the load is balanced.  Of two threads that have been created, the
    earlier one is given as many subintervals as the later one, or one
    more. *)
Theorem load_balanced (N T : Z) sched st (j k : nat) dj dk :
  0 <= N < ULLONG_MOD -> 1 <= T <= INT_MAX ->
  exec N T sched (initial T) = Some st ->
  (j <= k)%nat -> Z.of_nat k < spawned T (pc st) ->
  threadData st !! j = Some dj -> threadData st !! k = Some dk ->
  0 <= (end_ dj - start dj) - (end_ dk - start dk) <= 1.
Proof.
  intros HN HT Hrun Hjk Hk Hdj Hdk.
  pose proof (reachable_Inv N T HN HT _ _ Hrun) as Hinv.
  destruct (slot_after_spawn N T HT st j dj Hinv ltac:(lia) Hdj)
    as (-> & -> & _).
  destruct (slot_after_spawn N T HT st k dk Hinv Hk Hdk) as (-> & -> & _).
  rewrite !range_length.
  destruct (Z.ltb_spec (Z.of_nat j) (remainder N T)),
           (Z.ltb_spec (Z.of_nat k) (remainder N T)); lia.
Qed.

Lemma load_balanced_witness :
  0 <= (end_ (task 8 3 0) - start (task 8 3 0)) -
       (end_ (task 8 3 2) - start (task 8 3 2)) <= 1.
Proof.
  apply (load_balanced 8 3 [MainThread; MainThread; MainThread]
           {| threads := [Running Entry; Running Entry; Running Entry];
              threadData := [task 8 3 0; task 8 3 1; task 8 3 2];
              pc := Partitioning 3 8 |} 0 2).
  - unfold ULLONG_MOD. lia.
  - unfold INT_MAX. lia.
  - vm_compute. reflexivity.
  - lia.
  - simpl. lia.
  - reflexivity.
  - reflexivity.
Defined.

(** ** [threadFunction] on any record *)

Lemma threadFunction_from_set_sum fuel : forall fr data s,
  fr <> Return ->
  threadFunction_from fuel fr (set_sum data s) =
  threadFunction_from fuel fr data.
Proof.
  induction fuel as [|fuel IH]; intros fr data s Hfr.
  - by destruct fr.
  - destruct fr as [|i ps|]; [| |done]; cbn [threadFunction_from].
    + simpl. by apply IH.
    + simpl. destruct (i <? end_ data); [by apply IH|].
      by destruct fuel.
Qed.

(** X10: [threadFunction] reads the bounds and the step of its record and
    nothing else.  What it returns does not depend on the [sum] the record
    came with, so calling it again on its own result changes nothing. *)
Theorem threadFunction_rerun (fuel : nat) (data data' : ThreadData) (s : float) :
  threadFunction fuel data = Some data' ->
  threadFunction fuel (set_sum data s) = Some data' /\
  threadFunction fuel data' = Some data'.
Proof.
  intros Hrun. unfold threadFunction in *.
  assert (threadFunction_from fuel Entry (set_sum data s) = Some data')
    as Hs by (by rewrite threadFunction_from_set_sum).
  split; [done|].
  destruct (threadFunction_from_frame fuel Entry data data' Hrun)
    as (H1 & H2 & H3).
  assert (data' = set_sum data (sum data')) as Heq.
  { destruct data, data'. simpl in *. by subst. }
  rewrite Heq at 1. by rewrite threadFunction_from_set_sum.
Qed.

Lemma threadFunction_rerun_witness :
  threadFunction 5 (set_sum (mkThreadData 3 6 0%float 0.125%float) nan) =
    Some (set_sum (mkThreadData 3 6 0%float 0.125%float)
            (midpoint_sum 3 6 0.125%float)) /\
  threadFunction 5 (set_sum (mkThreadData 3 6 0%float 0.125%float)
                      (midpoint_sum 3 6 0.125%float)) =
    Some (set_sum (mkThreadData 3 6 0%float 0.125%float)
            (midpoint_sum 3 6 0.125%float)).
Proof.
  apply (threadFunction_rerun 5 (mkThreadData 3 6 0%float 0.125%float)).
  vm_compute. reflexivity.
Defined.

(** X11: a range that is empty or reversed is not an error.  When [end] is
    not above [start] the loop test of line 61 fails at once: the function
    returns without calling f and stores 0.0, whatever the step is. *)
Theorem threadFunction_no_iteration (fuel : nat) (data : ThreadData) :
  end_ data <= start data -> (2 <= fuel)%nat ->
  threadFunction fuel data = Some (set_sum data 0%float).
Proof.
  intros Hle Hfuel. unfold threadFunction.
  destruct fuel as [|[|fuel]]; [lia|lia|].
  cbn [threadFunction_from threadFunction_step].
  destruct (Z.ltb_spec (start data) (end_ data)); [lia|].
  by destruct fuel.
Qed.

Lemma threadFunction_no_iteration_witness :
  threadFunction 2 (mkThreadData 6 3 nan infinity) =
    Some (set_sum (mkThreadData 6 3 nan infinity) 0%float).
Proof.
  apply (threadFunction_no_iteration 2 (mkThreadData 6 3 nan infinity));
    simpl; lia.
Defined.

(** ** The integrand on every double *)

Lemma mul_opp_opp (x : spec_float) : SF64mul (SFopp x) (SFopp x) = SF64mul x x.
Proof. by destruct x as [[|]|[|]| |[|] m e]. Qed.

Lemma mul_abs_abs (x : spec_float) : SF64mul (SFabs x) (SFabs x) = SF64mul x x.
Proof. by destruct x as [[|]|[|]| |[|] m e]. Qed.

Lemma f_opp (x : float) : f (- x) = f x.
Proof.
  unfold f. assert ((- x) * (- x) = x * x)%float as ->; [|done].
  apply Prim2SF_inj.
  rewrite !FloatAxioms.mul_spec, FloatAxioms.opp_spec. apply mul_opp_opp.
Qed.

Lemma f_abs (x : float) : f (abs x) = f x.
Proof.
  unfold f. assert (abs x * abs x = x * x)%float as ->; [|done].
  apply Prim2SF_inj.
  rewrite !FloatAxioms.mul_spec, FloatAxioms.abs_spec. apply mul_abs_abs.
Qed.

(** ** Where f is defined *)

(** Rounding does not look at the sign. *)
Lemma binary_round_aux_opp m e l :
  binary_round_aux prec emax true m e l =
  SFopp (binary_round_aux prec emax false m e l).
Proof.
  unfold binary_round_aux.
  destruct (shr_fexp prec emax m e l) as [mrs' e'].
  destruct (shr_fexp prec emax _ e' loc_Exact) as [mrs'' e''].
  destruct (shr_m mrs''); [done| |done].
  by destruct (e'' <=? emax - prec).
Qed.

Lemma binary_round_opp m e :
  binary_round prec emax true m e = SFopp (binary_round prec emax false m e).
Proof.
  unfold binary_round. destruct (shl_align m e _) as [mz ez].
  apply binary_round_aux_opp.
Qed.

Lemma compare_cont_not_gt m p :
  PosDef.Pos.compare_cont Eq m p <> Gt -> Z.pos m <= Z.pos p.
Proof.
  intros H. change (Pos.compare m p <> Gt) in H.
  change (Pos.le m p) in H. lia.
Qed.

(** What [<= 1.0] means for a number that is not negative. *)
Lemma SFleb_one_inv m e :
  SpecFloat.bounded prec emax m e = true ->
  SFleb (S754_finite false m e) SF_one = true ->
  (F2R (Z.pos m) e <= 1)%R.
Proof.
  intros Hb. apply bounded_cell in Hb as [(Hm & He & Hn) _].
  unfold SFleb, SFcompare, SF_one.
  destruct (Z.compare_spec e (-52)) as [->|Hlt|Hgt]; [| |done].
  - intros Hc.
    assert (PosDef.Pos.compare_cont Eq m (2 ^ 52) <> Gt) as Hne.
    { intros Hg. by rewrite Hg in Hc. }
    apply compare_cont_not_gt in Hne.
    rewrite <- F2R_one. apply F2R_le. exact Hne.
  - intros _.
    apply Rle_trans with (F2R (2 ^ 53) e); [apply F2R_le; lia|].
    rewrite F2R_pow2 by lia. change 1%R with (bpow 0). apply bpow_le. lia.
Qed.

(** [1 - y] for [y] in [0, 1] is in [0, 1]. *)
Lemma sub_one_unit y :
  finite_nonneg y -> (SF2R y <= 1)%R ->
  finite_nonneg (SF64sub SF_one y) /\ (SF2R (SF64sub SF_one y) <= 1)%R.
Proof.
  destruct y as [[|]|[|]| |[|] my ey]; try done; intros _ Hy.
  { split; [done|]. change (SF64sub SF_one (S754_zero false)) with SF_one.
    unfold SF_one, SF2R. change (Z.pos (2 ^ 52)) with (2 ^ 52).
    rewrite F2R_one. lra. }
  unfold SF64sub, SF_one, SFsub, cond_Zopp.
  pose proof (shl_align_spec (2 ^ 52) (-52) (Z.min (-52) ey)) as Hax.
  pose proof (shl_align_spec my ey (Z.min (-52) ey)) as Hay.
  destruct (shl_align (2 ^ 52) (-52) (Z.min (-52) ey)) as [mx' ex'].
  destruct (shl_align my ey (Z.min (-52) ey)) as [my' ey'].
  destruct Hax as [Hex' Hmx'], Hay as [Hey' Hmy']. simpl fst.
  replace ex' with (Z.min (-52) ey) in Hmx' by lia.
  replace ey' with (Z.min (-52) ey) in Hmy' by lia.
  set (ez := Z.min (-52) ey) in *.
  assert (F2R (Z.pos mx') ez = 1%R) as H1.
  { rewrite Hmx', <- (F2R_shift _ (-52) ez) by lia. apply F2R_one. }
  assert (F2R (Z.pos my') ez = F2R (Z.pos my) ey) as H2.
  { rewrite Hmy'. symmetry. apply F2R_shift. lia. }
  simpl in Hy.
  assert (Z.pos my' <= Z.pos mx') as Hle.
  { apply (F2R_le_inv _ _ ez). lra. }
  destruct (Z.pos mx' - Z.pos my') as [|p|p] eqn:Hd; try lia.
  { split; [done|]. simpl. lra. }
  cbn [binary_normalize].
  destruct (rounds_to_le (F2R (Z.pos p) ez) (binary_round prec emax false p ez)
              (2 ^ 52) (-52)) as [Hf Hle1];
    [apply binary_round_rounds|lia|lia| | |].
  - rewrite F2R_one. change 1%R with (bpow 0). apply bpow_lt. lia.
  - rewrite F2R_one. rewrite <- Hd. unfold F2R in *.
    rewrite minus_IZR.
    assert (0 <= IZR (Z.pos my') * bpow ez)%R; [|lra].
    pose proof (bpow_pos ez). assert (0 <= IZR (Z.pos my'))%R; [|nra].
    apply IZR_le. lia.
  - split; [done|]. by rewrite F2R_one in Hle1.
Qed.

(** For [|x| <= 1] the argument of the square root is in [0, 1]. *)
Lemma radicand_unit y :
  finite_nonneg y -> valid_binary y = true -> (SF2R y <= 1)%R ->
  finite_nonneg (SF64sub SF_one (SF64mul y y)) /\
  (SF2R (SF64sub SF_one (SF64mul y y)) <= 1)%R.
Proof.
  intros Hfin Hv Hle.
  pose proof (mul_rounds _ _ Hfin Hfin Hv Hv) as Hr.
  pose proof (rounds_to_nonneg _ _ (rounds_to_self _ Hfin Hv)) as H0.
  destruct (rounds_to_le _ _ (2 ^ 52) (-52) Hr) as [Hfy Hy]; [lia|lia| | |].
  - rewrite F2R_one. change 1%R with (bpow 0). apply bpow_lt. lia.
  - rewrite F2R_one. nra.
  - apply sub_one_unit; [done|by rewrite F2R_one in Hy].
Qed.

Lemma F2R_next_one : F2R (2 ^ 52 + 1) (-52) = (1 + bpow (-52))%R.
Proof. rewrite F2R_succ, F2R_one. done. Qed.

(** For [|x| > 1] the argument of the square root is negative, and the
    square root is NaN. *)
Lemma radicand_outside m e :
  SpecFloat.bounded prec emax m e = true -> (1 < F2R (Z.pos m) e)%R ->
  SF64sqrt (SF64sub SF_one
              (SF64mul (S754_finite false m e) (S754_finite false m e))) =
  S754_nan.
Proof.
  intros Hb Hgt. set (y := S754_finite false m e).
  assert (finite_nonneg y) as Hfin by done.
  assert (valid_binary y = true) as Hv by done.
  pose proof (mul_rounds _ _ Hfin Hfin Hv Hv) as Hr.
  apply bounded_cell in Hb as [(Hm & He & Hn) _].
  assert (1 + bpow (-52) <= F2R (Z.pos m) e)%R as Hy.
  { rewrite <- F2R_next_one.
    apply (grid_above (2 ^ 52) (-52)); [unfold cell; lia|lia|lia|].
    by rewrite F2R_one. }
  pose proof (bpow_pos (-52)) as Hp.
  destruct (rounds_to_ge _ _ (2 ^ 52 + 1) (-52) Hr) as [->|[Hfs Hs]];
    [lia|lia| |done|].
  { rewrite F2R_next_one. simpl SF2R. nra. }
  rewrite F2R_next_one in Hs.
  destruct (finite_nonneg_pos _ Hfs ltac:(lra)) as (ms & es & Hsq).
  rewrite Hsq in *. simpl in Hs. clear Hr Hsq.
  unfold SF64sub, SF_one, SFsub, cond_Zopp.
  pose proof (shl_align_spec (2 ^ 52) (-52) (Z.min (-52) es)) as Hax.
  pose proof (shl_align_spec ms es (Z.min (-52) es)) as Hay.
  destruct (shl_align (2 ^ 52) (-52) (Z.min (-52) es)) as [mx' ex'].
  destruct (shl_align ms es (Z.min (-52) es)) as [my' ey'].
  destruct Hax as [Hex' Hmx'], Hay as [Hey' Hmy']. simpl fst.
  replace ex' with (Z.min (-52) es) in Hmx' by lia.
  replace ey' with (Z.min (-52) es) in Hmy' by lia.
  set (ez := Z.min (-52) es) in *.
  assert (F2R (Z.pos mx') ez = 1%R) as H1.
  { rewrite Hmx', <- (F2R_shift _ (-52) ez) by lia. apply F2R_one. }
  assert (F2R (Z.pos my') ez = F2R (Z.pos ms) es) as H2.
  { rewrite Hmy'. symmetry. apply F2R_shift. lia. }
  assert (Z.pos mx' < Z.pos my') as Hlt.
  { apply (F2R_lt_inv _ _ ez). lra. }
  destruct (Z.pos mx' - Z.pos my') as [|p|p] eqn:Hd; try lia.
  cbn [binary_normalize]. rewrite binary_round_opp.
  assert (F2R (Z.pos p) ez = F2R (Z.pos my') ez - F2R (Z.pos mx') ez)%R as Hv'.
  { unfold F2R. rewrite <- Rmult_minus_distr_r, <- minus_IZR.
    do 2 f_equal. lia. }
  destruct (rounds_to_ge _ _ 1 (-52) (binary_round_rounds p ez))
    as [->|[Hfd Hdv]]; [lia|lia| |done|].
  { unfold F2R at 1. lra. }
  unfold F2R at 1 in Hdv.
  destruct (finite_nonneg_pos _ Hfd ltac:(lra)) as (md & ed & ->). done.
Qed.

Lemma is_nan_spec_nan (p : float) : Prim2SF p = S754_nan -> is_nan p = true.
Proof.
  intros H. unfold is_nan. by rewrite FloatAxioms.eqb_spec, H.
Qed.

Lemma f_spec (x : float) :
  Prim2SF (f x) =
  SF64sqrt (SF64sub SF_one (SF64mul (Prim2SF x) (Prim2SF x))).
Proof.
  unfold f.
  by rewrite FloatAxioms.sqrt_spec, FloatAxioms.sub_spec,
             FloatAxioms.mul_spec, Prim2SF_one.
Qed.

(** f(x) is NaN or not according to [|x| <= 1.0]. *)
Lemma f_nan_cases (x : float) :
  is_nan (f x) = negb (abs x <=? 1)%float.
Proof.
  rewrite <- (f_abs x).
  pose proof (Prim2SF_valid (abs x)) as Hv.
  pose proof (f_spec (abs x)) as Hf.
  rewrite FloatAxioms.leb_spec, Prim2SF_one.
  rewrite FloatAxioms.abs_spec in *.
  destruct (Prim2SF x) as [s|s| |s m e]; cbn [SFabs] in *.
  - apply nonneg_class_not_nan. by rewrite Hf.
  - by apply is_nan_spec_nan in Hf.
  - by apply is_nan_spec_nan in Hf.
  - cbn [valid_binary] in Hv.
    destruct (SFleb (S754_finite false m e) SF_one) eqn:Hle.
    + pose proof (SFleb_one_inv m e Hv Hle) as H1.
      destruct (radicand_unit (S754_finite false m e)) as [Hrad _];
        [done|done|done|].
      apply nonneg_class_not_nan. rewrite Hf. by apply sqrt_nonneg_class.
    + assert (1 < F2R (Z.pos m) e)%R as Hgt.
      { destruct (Rlt_le_dec 1 (F2R (Z.pos m) e)) as [|Hle1]; [done|].
        rewrite (SFleb_one (S754_finite false m e)) in Hle; done. }
      rewrite (radicand_outside m e Hv Hgt) in Hf.
      by apply is_nan_spec_nan in Hf.
Qed.

(** X13: f(x) is a number exactly when |x| <= 1.  It is NaN for NaN, for
    the infinities and for every double of magnitude above 1, and for no
    other: rounding [x * x] cannot carry a square from above 1 down to 1,
    nor from 1 or below to above 1. *)
Theorem f_defined_iff (x : float) :
  is_nan (f x) = false <-> (abs x <=? 1)%float = true.
Proof.
  rewrite f_nan_cases. by destruct (abs x <=? 1)%float.
Qed.

(** X12: f is an even function.  For every double x with |x| <= 1.0 the
    values f(-x), f(|x|) and f(x) are one and the same number, bit for
    bit: the sign of x is lost in [x * x], for the zeros as well.  For
    every other x (magnitude above 1, infinite or NaN) all three are NaN;
    of a NaN nothing more is said, the model having a single NaN. *)
Theorem f_even (x : float) :
  ((abs x <=? 1)%float = true ->
   f (- x) = f x /\ f (abs x) = f x /\ is_nan (f x) = false) /\
  ((abs x <=? 1)%float = false ->
   is_nan (f (- x)) = true /\ is_nan (f (abs x)) = true /\
   is_nan (f x) = true).
Proof.
  rewrite f_opp, f_abs. split; intros Hx.
  - split; [done|]. split; [done|]. by rewrite f_nan_cases, Hx.
  - by rewrite f_nan_cases, Hx.
Qed.

(** ** The square root *)

Lemma sqrt_core_spec m e :
  0 < m ->
  let '(q, e', l) := SFsqrt_core_binary prec emax m e in
  0 <= q /\ e' <= fexp prec emax (Zdigits2 q + e') /\
  located (sqrt (F2R m e)) q e' l.
Proof.
  intros Hm. unfold SFsqrt_core_binary.
  set (d := Zdigits2 m).
  set (e' := Z.min (fexp prec emax (Z.div2 (d + e + 1))) (Z.div2 e)).
  assert (0 <= e - 2 * e') as Hs.
  { assert (2 * Z.div2 e <= e); [|lia].
    rewrite Z.div2_div. apply Z.mul_div_le. lia. }
  set (m' := match e - 2 * e' with
             | 0 => m
             | Z.pos _ => Z.shiftl m (e - 2 * e')
             | Z.neg _ => 0
             end).
  assert (m' = m * 2 ^ (e - 2 * e')) as Hm'.
  { subst m'. destruct (e - 2 * e') as [|p|p] eqn:Hse; [lia| |lia].
    apply Z.shiftl_mul_pow2. lia. }
  assert (0 < m') as Hm'pos.
  { rewrite Hm'. apply Z.mul_pos_pos; [done|]. apply Z.pow_pos_nonneg; lia. }
  pose proof (Z.sqrtrem_spec m' ltac:(lia)) as Hsq.
  destruct (Z.sqrtrem m') as [q r]. destruct Hsq as [Hqr Hr].
  split; [lia|]. split.
  - rewrite fexp_eq.
    destruct (Z.le_gt_cases e' (-1074)) as [|Hbig]; [lia|].
    assert (2 * e' + 106 <= d + e + 1) as Hd.
    { assert (e' <= fexp prec emax (Z.div2 (d + e + 1))) as He' by lia.
      rewrite fexp_eq, Z.div2_div in He'.
      assert (2 * ((d + e + 1) / 2) <= d + e + 1)
        by (apply Z.mul_div_le; lia).
      lia. }
    pose proof (Zdigits2_bounds m Hm) as Hdig. fold d in Hdig.
    assert (1 <= d) as Hd1.
    { destruct (Z.le_gt_cases 1 d); [done|].
      assert (2 ^ d <= 2 ^ 0) by (apply Z.pow_le_mono_r; lia).
      change (2 ^ 0) with 1 in *. lia. }
    assert (2 ^ 104 <= m') as Hlarge.
    { rewrite Hm'.
      apply Z.le_trans with (2 ^ (d - 1) * 2 ^ (e - 2 * e')).
      - rewrite <- Z.pow_add_r by lia. apply Z.pow_le_mono_r; lia.
      - apply Z.mul_le_mono_nonneg_r; [apply Z.pow_nonneg|]; lia. }
    assert (2 ^ 52 <= q) as Hq.
    { destruct (Z.le_gt_cases (2 ^ 52) q) as [|Hsmall]; [done|].
      assert ((q + 1) * (q + 1) <= 2 ^ 52 * 2 ^ 52)
        by (apply Z.mul_le_mono_nonneg; lia).
      change (2 ^ 52 * 2 ^ 52) with (2 ^ 104) in *. lia. }
    pose proof (Zdigits2_ge q 52 ltac:(lia) Hq). lia.
  - set (b := bpow e').
    assert (0 < b)%R as Hb by apply bpow_pos.
    assert (F2R m e = IZR m' * (b * b))%R as Hv.
    { unfold F2R. replace e with ((e - 2 * e') + (e' + e')) at 1 by lia.
      rewrite !bpow_add, bpow_IZR, Hm', mult_IZR by lia. fold b. ring. }
    assert (0 <= IZR m')%R as Hm'0 by (apply IZR_le; lia).
    rewrite Hv, sqrt_mult, sqrt_square by nra.
    set (w := sqrt (IZR m')).
    assert (0 <= w)%R as Hw0 by apply sqrt_pos.
    assert (w * w = IZR q * IZR q + IZR r)%R as Hww.
    { unfold w. rewrite sqrt_sqrt by done.
      by rewrite Hqr, plus_IZR, mult_IZR. }
    assert (0 <= IZR q)%R as Hq0 by (apply IZR_le; lia).
    assert (0 <= IZR r <= 2 * IZR q)%R as Hr0.
    { split; [apply IZR_le; lia|].
      rewrite <- mult_IZR. apply IZR_le. lia. }
    destruct (Z.eqb_spec r 0) as [->|Hne].
    + simpl. unfold F2R. fold b.
      assert (w = IZR q) as ->; [|done].
      rewrite Rplus_0_r in Hww. nra.
    + assert (1 <= IZR r)%R as Hr1 by (apply IZR_le; lia).
      destruct (Z.leb_spec r q) as [Hle|Hgt]; simpl; unfold F2R; fold b.
      * assert (IZR r <= IZR q)%R by (by apply IZR_le).
        assert (IZR q < w < IZR q + 1 / 2)%R; [|nra].
        split; nra.
      * assert (IZR q + 1 <= IZR r)%R
          by (rewrite <- plus_IZR; apply IZR_le; lia).
        assert (IZR q + 1 / 2 < w < IZR q + 1)%R; [|nra].
        split; nra.
Qed.

Lemma sqrt_rounds m e :
  rounds_to (sqrt (F2R (Z.pos m) e)) (SF64sqrt (S754_finite false m e)).
Proof.
  unfold SF64sqrt, SFsqrt.
  pose proof (sqrt_core_spec (Z.pos m) e ltac:(lia)) as H.
  destruct (SFsqrt_core_binary prec emax (Z.pos m) e) as [[q e'] l].
  destruct H as (Hq & He & Hl). by apply binary_round_aux_rounds.
Qed.

(** The square root of a number in [0, 1] is in [0, 1]. *)
Lemma sqrt_unit r :
  finite_nonneg r -> (SF2R r <= 1)%R ->
  finite_nonneg (SF64sqrt r) /\ (SF2R (SF64sqrt r) <= 1)%R.
Proof.
  destruct r as [[|]|[|]| |[|] m e]; try done; intros _ Hr.
  simpl in Hr. apply (rounds_to_le_one _ _ (sqrt_rounds m e)).
  pose proof (bpow_pos (-53)).
  assert (sqrt (F2R (Z.pos m) e) <= 1)%R; [|lra].
  rewrite <- sqrt_1. apply sqrt_le_1_alt. done.
Qed.

Lemma abs_le_one (x : float) :
  (abs x <=? 1)%float = true ->
  finite_nonneg (Prim2SF (abs x)) /\ (SF2R (Prim2SF (abs x)) <= 1)%R.
Proof.
  pose proof (Prim2SF_valid (abs x)) as Hv.
  rewrite FloatAxioms.leb_spec, Prim2SF_one.
  rewrite FloatAxioms.abs_spec in *.
  destruct (Prim2SF x) as [s|s| |s m e]; cbn [SFabs] in *; try done.
  - intros _. split; [done|]. simpl. lra.
  - intros Hle. split; [done|]. by apply SFleb_one_inv.
Qed.

(** X14: the values of f.  Whenever f(x) is not NaN it lies in [0, 1]:
    neither the subtraction nor the square root rounds out of the
    interval. *)
Theorem f_range (x : float) :
  is_nan (f x) = false ->
  (0 <=? f x)%float = true /\ (f x <=? 1)%float = true.
Proof.
  intros Hnan. rewrite f_nan_cases in Hnan.
  apply negb_false_iff in Hnan. rewrite <- (f_abs x).
  destruct (abs_le_one x Hnan) as [Hfin Hle].
  destruct (radicand_unit _ Hfin (Prim2SF_valid _) Hle) as [Hrf Hrle].
  destruct (sqrt_unit _ Hrf Hrle) as [Hsf Hsle].
  rewrite <- f_spec in Hsf, Hsle.
  rewrite !FloatAxioms.leb_spec, Prim2SF_one.
  change (Prim2SF 0) with (S754_zero false).
  split; [by apply SFleb_zero|].
  apply SFleb_one; [done|apply Prim2SF_valid|done].
Qed.

Lemma f_range_witness :
  (0 <=? f 0.5)%float = true /\ (f 0.5 <=? 1)%float = true.
Proof.
  apply (f_range 0.5). vm_compute. reflexivity.
Defined.

(** ** The sample points *)

(** [<=] on numbers that are not negative is the order of the reals. *)
Lemma SFleb_le x y :
  finite_nonneg x -> finite_nonneg y ->
  valid_binary x = true -> valid_binary y = true ->
  (SF2R x <= SF2R y)%R -> SFleb x y = true.
Proof.
  destruct x as [[|]|[|]| |[|] mx ex]; try done;
    destruct y as [[|]|[|]| |[|] my ey]; try done; intros _ _ Hvx Hvy Hle.
  - exfalso. simpl in Hle.
    assert (F2R 0 ex < F2R (Z.pos mx) ex)%R by (apply F2R_lt; lia).
    unfold F2R in *. lra.
  - simpl in Hvx, Hvy, Hle.
    apply bounded_cell in Hvx as [(Hmx & Hex & Hnx) _].
    apply bounded_cell in Hvy as [(Hmy & Hey & Hny) _].
    unfold SFleb, SFcompare.
    destruct (Z.compare_spec ex ey) as [->|Hlt|Hgt]; [|done|].
    + apply F2R_le_inv in Hle.
      pose proof (compare_cont_le mx my Hle) as Hc.
      by destruct (PosDef.Pos.compare_cont Eq mx my).
    + exfalso.
      assert (F2R (Z.pos my) ey < F2R (2 ^ 53) ey)%R by (apply F2R_lt; lia).
      assert (F2R (2 ^ 52) ex <= F2R (Z.pos mx) ex)%R by (apply F2R_le; lia).
      rewrite F2R_pow2 in * by lia.
      pose proof (bpow_le (53 + ey) (52 + ex) ltac:(lia)). lra.
Qed.

(** The sample points in index order, as real numbers. *)
Lemma sample_order (N i j : Z) :
  1 <= N < ULLONG_MOD -> 0 <= i <= j -> j < N ->
  finite_nonneg (Prim2SF (midpoint i (main_step_width N))) /\
  (SF2R (Prim2SF (midpoint i (main_step_width N))) <=
   SF2R (Prim2SF (midpoint j (main_step_width N))))%R.
Proof.
  intros HN Hij HjN.
  destruct (sample_bounds N j HN ltac:(lia)) as [Hxj _].
  destruct (numerator_bounds N j HN ltac:(lia)) as [Haj _].
  destruct (of_ull_i_bounds N j HN ltac:(lia)) as [Hoj _].
  destruct (step_bounds N HN) as (Hh & Hh0 & _).
  destruct (rounds_to_mono (IZR i) (Prim2SF (of_ull i))
              (IZR j) (Prim2SF (of_ull j))) as [Hoi Hole];
    [apply of_ull_rounds; lia|apply of_ull_rounds; lia|apply IZR_le; lia
    |done|].
  assert (finite_nonneg (Prim2SF 0.5)) as Hhalf by (by rewrite Prim2SF_half).
  destruct (rounds_to_mono
              (SF2R (Prim2SF (of_ull i)) + SF2R (Prim2SF 0.5))
              (Prim2SF (of_ull i + 0.5))
              (SF2R (Prim2SF (of_ull j)) + SF2R (Prim2SF 0.5))
              (Prim2SF (of_ull j + 0.5))) as [Hai Hale];
    [rewrite FloatAxioms.add_spec;
       apply add_rounds; try done; apply Prim2SF_valid
    |rewrite FloatAxioms.add_spec;
       apply add_rounds; try done; apply Prim2SF_valid
    |lra|done|].
  apply (rounds_to_mono
           (SF2R (Prim2SF (of_ull i + 0.5)) *
            SF2R (Prim2SF (main_step_width N)))
           (Prim2SF (midpoint i (main_step_width N)))
           (SF2R (Prim2SF (of_ull j + 0.5)) *
            SF2R (Prim2SF (main_step_width N)))
           (Prim2SF (midpoint j (main_step_width N))));
    [unfold midpoint; rewrite FloatAxioms.mul_spec;
       apply mul_rounds; try done; apply Prim2SF_valid
    |unfold midpoint; rewrite FloatAxioms.mul_spec;
       apply mul_rounds; try done; apply Prim2SF_valid
    |by apply Rmult_le_compat_r|done].
Qed.

(** X15: the sample points never go back.  For indices i <= j below N,
    the point computed for i is at most the point computed for j: the
    conversion of the index, the addition of 0.5 and the multiplication by
    the step all round monotonically. *)
Theorem samples_nondecreasing (N i j : Z) :
  1 <= N < ULLONG_MOD -> 0 <= i <= j -> j < N ->
  (midpoint i (main_step_width N) <=? midpoint j (main_step_width N))%float
    = true.
Proof.
  intros HN Hij HjN.
  destruct (sample_bounds N j HN ltac:(lia)) as [Hxj _].
  destruct (sample_order N i j HN Hij HjN) as [Hxi Hle].
  rewrite FloatAxioms.leb_spec.
  apply SFleb_le; try done; apply Prim2SF_valid.
Qed.

Lemma samples_nondecreasing_witness :
  (midpoint 2 (main_step_width 8) <=? midpoint 5 (main_step_width 8))%float
    = true.
Proof.
  apply (samples_nondecreasing 8 2 5); unfold ULLONG_MOD; lia.
Defined.

(** X16: below 2^52 the numerator of the sample point is exact:
    [static_cast<double>(i) + 0.5] is the real number i + 1/2, so the
    multiplication by the step is the only rounding in x. *)
Theorem numerator_exact (i : Z) :
  0 <= i < 2 ^ 52 ->
  finite_nonneg (Prim2SF (of_ull i + 0.5)) /\
  SF2R (Prim2SF (of_ull i + 0.5)) = (IZR i + / 2)%R.
Proof.
  intros Hi. destruct (of_ull_small i ltac:(lia)) as [Hfin Hval].
  assert (finite_nonneg (Prim2SF 0.5)) as Hhalf by (by rewrite Prim2SF_half).
  pose proof (add_rounds _ _ Hfin Hhalf (Prim2SF_valid _) (Prim2SF_valid _))
    as Hr.
  rewrite <- FloatAxioms.add_spec, Hval, Prim2SF_half in Hr.
  simpl SF2R in Hr. change (Z.pos (2 ^ 52)) with (2 ^ 52) in Hr.
  assert (F2R (2 ^ 52) (-53) = / 2)%R as Hh.
  { rewrite F2R_pow2 by lia. change (52 + -53) with (0 - 1).
    rewrite bpow_pred, bpow_0. lra. }
  assert (F2R (2 * i + 1) (-1) = IZR i + / 2)%R as Hv.
  { unfold F2R. change (-1) with (0 - 1).
    rewrite bpow_pred, bpow_0, plus_IZR, mult_IZR. lra. }
  rewrite Hh, <- Hv in Hr.
  destruct (rounds_to_le _ _ (2 * i + 1) (-1) Hr) as [Hf Hle];
    [lia|lia| |lra|].
  { rewrite Hv. apply Rlt_trans with (bpow 53).
    - rewrite bpow_IZR by lia.
      assert (IZR i <= IZR (2 ^ 52))%R by (apply IZR_le; lia).
      assert (IZR (2 ^ 53) = 2 * IZR (2 ^ 52))%R
        by (rewrite <- mult_IZR; f_equal).
      assert (1 <= IZR (2 ^ 52))%R by (apply IZR_le; lia). lra.
    - apply bpow_lt. lia. }
  split; [done|].
  destruct (rounds_to_ge _ _ (2 * i + 1) (-1) Hr) as [Hinf|[_ Hge]];
    [lia|lia|lra| |].
  - by rewrite Hinf in Hf.
  - rewrite <- Hv. lra.
Qed.

Lemma numerator_exact_witness :
  finite_nonneg (Prim2SF (of_ull 7 + 0.5)) /\
  SF2R (Prim2SF (of_ull 7 + 0.5)) = (IZR 7 + / 2)%R.
Proof.
  apply (numerator_exact 7). lia.
Defined.

(** ** The printed value *)

(** Adding a small term to a power of two gives back the power of two:
    [2^k + 2^(k-53)] is half way to the next double, and the tie goes to
    the even mantissa.  So a running sum of such terms never passes
    [2^k]. *)
Lemma add_saturates k s t :
  -1022 <= k <= 1023 ->
  finite_nonneg s -> finite_nonneg t ->
  valid_binary s = true -> valid_binary t = true ->
  (SF2R s <= bpow k)%R -> (SF2R t <= bpow (k - 53))%R ->
  finite_nonneg (SF64add s t) /\ (SF2R (SF64add s t) <= bpow k)%R.
Proof.
  intros Hk Hs Ht Hvs Hvt Hsk Htk.
  pose proof (add_rounds s t Hs Ht Hvs Hvt) as Hr.
  assert (cell (2 ^ 52) (k - 52)) as Hc by (unfold cell; lia).
  assert (F2R (2 ^ 52) (k - 52) = bpow k) as Hpow.
  { rewrite F2R_pow2 by lia. f_equal. lia. }
  assert (rounds_to (bpow k + bpow (k - 53))
            (S754_finite false (2 ^ 52) (k - 52))) as Htie.
  { exists (2 ^ 52), (k - 52), (loc_Inexact Eq). split; [done|]. split.
    - simpl. rewrite Hpow. replace (k - 53) with (k - 52 - 1) by lia.
      by rewrite bpow_pred.
    - change (round_nearest_even (2 ^ 52) (loc_Inexact Eq)) with (2 ^ 52).
      symmetry. apply (finish_cell (2 ^ 52) (k - 52)); [done|lia]. }
  destruct (rounds_to_mono _ _ _ _ Hr Htie) as [Hf Hle]; [lra|done|].
  split; [done|]. simpl in Hle.
  change (Z.pos (2 ^ 52)) with (2 ^ 52) in Hle. by rewrite Hpow in Hle.
Qed.

Section Bounds.

Variable N : Z.
Hypothesis HN : 1 <= N < ULLONG_MOD.

(** Every term of the sum is a number in [0, 1]. *)
Lemma integrand_unit k :
  0 <= k < N ->
  finite_nonneg (Prim2SF (f (midpoint k (main_step_width N)))) /\
  (SF2R (Prim2SF (f (midpoint k (main_step_width N)))) <= 1)%R.
Proof.
  intros Hk. destruct (sample_bounds N k HN Hk) as [Hfin Hle].
  destruct (radicand_unit _ Hfin (Prim2SF_valid _) Hle) as [Hrf Hrle].
  rewrite f_spec. by apply sqrt_unit.
Qed.

(** The running sum over a range inside [0, N) stays at or below 2^53. *)
Lemma midpoint_sum_bounded a (n : nat) :
  0 <= a -> a + Z.of_nat n <= N ->
  finite_nonneg
    (Prim2SF (midpoint_sum a (a + Z.of_nat n) (main_step_width N))) /\
  (SF2R (Prim2SF (midpoint_sum a (a + Z.of_nat n) (main_step_width N)))
     <= bpow 53)%R.
Proof.
  intros Ha. induction n as [|n IH]; intros Hn.
  - rewrite midpoint_sum_empty by lia. rewrite Prim2SF_zero.
    split; [done|]. simpl. pose proof (bpow_pos 53). lra.
  - replace (a + Z.of_nat (S n)) with (a + Z.of_nat n + 1) by lia.
    rewrite midpoint_sum_snoc by lia. rewrite FloatAxioms.add_spec.
    destruct (IH ltac:(lia)) as [Hf Hle].
    destruct (integrand_unit (a + Z.of_nat n) ltac:(lia)) as [Hg Hg1].
    apply add_saturates; try done; apply Prim2SF_valid.
Qed.

Variable T : Z.
Hypothesis HT : 1 <= T <= INT_MAX.

Lemma partial_sum_bounded k :
  0 <= k < T ->
  finite_nonneg (Prim2SF (partial_sum N T k)) /\
  (SF2R (Prim2SF (partial_sum N T k)) <= bpow 53)%R.
Proof.
  intros Hk. assert (0 <= N < ULLONG_MOD) as HN' by lia.
  pose proof (range_start_nonneg N T HN' HT k ltac:(lia)) as H0.
  pose proof (range_start_le N T HN' HT k ltac:(lia)) as Hle.
  pose proof (range_end_le_N N T HN' HT k Hk) as HeN.
  pose proof (midpoint_sum_bounded (range_start N T k)
                (Z.to_nat (range_end N T k - range_start N T k)) H0) as Hc.
  rewrite Z2Nat.id in Hc by lia.
  replace (range_start N T k + (range_end N T k - range_start N T k))
    with (range_end N T k) in Hc by lia.
  apply Hc. lia.
Qed.

(** [totalSum] stays at or below 2^106. *)
Lemma total_sum_bounded (n : nat) :
  Z.of_nat n <= T ->
  finite_nonneg (Prim2SF (total_sum N T (Z.of_nat n))) /\
  (SF2R (Prim2SF (total_sum N T (Z.of_nat n))) <= bpow 106)%R.
Proof.
  induction n as [|n IH]; intros Hn.
  - change (total_sum N T (Z.of_nat 0)) with 0%float. rewrite Prim2SF_zero.
    split; [done|]. simpl. pose proof (bpow_pos 106). lra.
  - rewrite Nat2Z.inj_succ, <- Z.add_1_r, total_sum_snoc by lia.
    rewrite FloatAxioms.add_spec.
    destruct (IH ltac:(lia)) as [Hf Hle].
    destruct (partial_sum_bounded (Z.of_nat n) ltac:(lia)) as [Hg Hg1].
    apply add_saturates; try done; apply Prim2SF_valid.
Qed.

Lemma pi_approx_of_finite : finite_nonneg (Prim2SF (pi_approx_of N T)).
Proof.
  pose proof (total_sum_bounded (Z.to_nat T)) as Ht.
  rewrite Z2Nat.id in Ht by lia. destruct (Ht ltac:(lia)) as [Hft Hlt].
  destruct (step_bounds N HN) as (Hfh & Hh0 & Hprod).
  destruct (of_ull_N_bounds N HN) as [_ [HloN _]].
  pose proof (bpow_pos (-53)) as Hp.
  assert (bpow (-53) <= 1)%R as Hp1.
  { change 1%R with (bpow 0). apply bpow_le. lia. }
  assert (SF2R (Prim2SF (main_step_width N)) <= 2)%R as Hh2 by nra.
  pose proof (rounds_to_nonneg _ _
                (rounds_to_self _ Hft (Prim2SF_valid _))) as Ht0.
  unfold pi_approx_of.
  pose proof (mul_rounds _ _ Hfh Hft (Prim2SF_valid _) (Prim2SF_valid _))
    as Hr.
  rewrite <- FloatAxioms.mul_spec in Hr.
  destruct (rounds_to_le _ _ (2 ^ 52) 55 Hr) as [Hfi Hi]; [lia|lia| | |].
  { rewrite F2R_pow2 by lia. apply bpow_lt. lia. }
  { rewrite F2R_pow2 by lia. change (52 + 55) with (106 + 1).
    rewrite bpow_succ. nra. }
  rewrite F2R_pow2 in Hi by lia.
  assert (finite_nonneg (Prim2SF 4)) as Hf4 by done.
  pose proof (mul_rounds _ _ Hf4 Hfi (Prim2SF_valid _) (Prim2SF_valid _))
    as Hr4.
  rewrite <- FloatAxioms.mul_spec in Hr4.
  apply (rounds_to_le _ _ (2 ^ 52) 57 Hr4); [lia|lia| |].
  { rewrite F2R_pow2 by lia. apply bpow_lt. lia. }
  rewrite F2R_pow2 by lia.
  change (Prim2SF 4) with (S754_finite false (2 ^ 52) (-50)).
  simpl SF2R at 1. change (Z.pos (2 ^ 52)) with (2 ^ 52).
  rewrite F2R_pow2 by lia. change (52 + -50) with (0 + 1 + 1).
  change (52 + 57) with (52 + 55 + 1 + 1).
  rewrite !bpow_succ, bpow_0 in *.
  pose proof (rounds_to_nonneg _ _ Hr). nra.
Qed.

End Bounds.

(** ** f does not increase with |x| *)

(** [1 - y] for [y] in [0, 1] is rounded from the real difference. *)
Lemma sub_one_rounds y :
  finite_nonneg y -> (SF2R y <= 1)%R ->
  rounds_to (1 - SF2R y) (SF64sub SF_one y).
Proof.
  destruct y as [[|]|[|]| |[|] my ey]; try done; intros _ Hy.
  { change (SF64sub SF_one (S754_zero false)) with SF_one.
    replace (1 - SF2R (S754_zero false))%R with (SF2R SF_one).
    - by apply rounds_to_self.
    - unfold SF_one, SF2R. change (Z.pos (2 ^ 52)) with (2 ^ 52).
      rewrite F2R_one. lra. }
  unfold SF64sub, SF_one, SFsub, cond_Zopp.
  pose proof (shl_align_spec (2 ^ 52) (-52) (Z.min (-52) ey)) as Hax.
  pose proof (shl_align_spec my ey (Z.min (-52) ey)) as Hay.
  destruct (shl_align (2 ^ 52) (-52) (Z.min (-52) ey)) as [mx' ex'].
  destruct (shl_align my ey (Z.min (-52) ey)) as [my' ey'].
  destruct Hax as [Hex' Hmx'], Hay as [Hey' Hmy']. simpl fst.
  replace ex' with (Z.min (-52) ey) in Hmx' by lia.
  replace ey' with (Z.min (-52) ey) in Hmy' by lia.
  set (ez := Z.min (-52) ey) in *.
  assert (F2R (Z.pos mx') ez = 1%R) as H1.
  { rewrite Hmx', <- (F2R_shift _ (-52) ez) by lia. apply F2R_one. }
  assert (F2R (Z.pos my') ez = F2R (Z.pos my) ey) as H2.
  { rewrite Hmy'. symmetry. apply F2R_shift. lia. }
  simpl in Hy. simpl SF2R. rewrite <- H1, <- H2.
  assert (Z.pos my' <= Z.pos mx') as Hle.
  { apply (F2R_le_inv _ _ ez). lra. }
  assert (F2R (Z.pos mx') ez - F2R (Z.pos my') ez =
          F2R (Z.pos mx' - Z.pos my') ez)%R as ->.
  { unfold F2R. rewrite minus_IZR. ring. }
  destruct (Z.pos mx' - Z.pos my') as [|p|p] eqn:Hd; try lia.
  - cbn [binary_normalize]. unfold F2R. rewrite Rmult_0_l.
    apply rounds_to_zero.
  - cbn [binary_normalize]. apply binary_round_rounds.
Qed.

Lemma sqrt_rounds_nonneg r :
  finite_nonneg r -> rounds_to (sqrt (SF2R r)) (SF64sqrt r).
Proof.
  destruct r as [[|]|[|]| |[|] m e]; try done; intros _.
  - simpl SF2R. rewrite sqrt_0. apply rounds_to_zero.
  - apply sqrt_rounds.
Qed.

(** What [<=] means for numbers that are not negative. *)
Lemma SFleb_le_inv mx ex my ey :
  SpecFloat.bounded prec emax mx ex = true ->
  SpecFloat.bounded prec emax my ey = true ->
  SFleb (S754_finite false mx ex) (S754_finite false my ey) = true ->
  (F2R (Z.pos mx) ex <= F2R (Z.pos my) ey)%R.
Proof.
  intros Hbx Hby.
  apply bounded_cell in Hbx as [(Hmx & Hex & Hnx) _].
  apply bounded_cell in Hby as [(Hmy & Hey & Hny) _].
  unfold SFleb, SFcompare.
  destruct (Z.compare_spec ex ey) as [->|Hlt|Hgt]; [| |done].
  - intros Hc.
    assert (PosDef.Pos.compare_cont Eq mx my <> Gt) as Hne.
    { intros Hg. by rewrite Hg in Hc. }
    apply compare_cont_not_gt in Hne. by apply F2R_le.
  - intros _.
    assert (F2R (Z.pos mx) ex <= F2R (2 ^ 53) ex)%R by (apply F2R_le; lia).
    assert (F2R (2 ^ 52) ey <= F2R (Z.pos my) ey)%R by (apply F2R_le; lia).
    rewrite F2R_pow2 in * by lia.
    pose proof (bpow_le (53 + ex) (52 + ey) ltac:(lia)). lra.
Qed.

Lemma abs_le_abs (x y : float) :
  (abs x <=? abs y)%float = true ->
  finite_nonneg (Prim2SF (abs y)) ->
  finite_nonneg (Prim2SF (abs x)) /\
  (SF2R (Prim2SF (abs x)) <= SF2R (Prim2SF (abs y)))%R.
Proof.
  pose proof (Prim2SF_valid (abs x)) as Hvx.
  pose proof (Prim2SF_valid (abs y)) as Hvy.
  rewrite FloatAxioms.leb_spec. rewrite !FloatAxioms.abs_spec in *.
  destruct (Prim2SF x) as [sx|sx| |sx mx ex]; cbn [SFabs] in *;
    destruct (Prim2SF y) as [sy|sy| |sy my ey]; cbn [SFabs] in *;
    try done; intros Hle _.
  - split; [done|]. simpl.
    assert (F2R 0 ey <= F2R (Z.pos my) ey)%R by (apply F2R_le; lia).
    unfold F2R in *. lra.
  - split; [done|]. simpl. by apply SFleb_le_inv.
Qed.

(** The integrand on the specification level. *)
Lemma f_spec_antitone a b :
  finite_nonneg a -> finite_nonneg b ->
  valid_binary a = true -> valid_binary b = true ->
  (SF2R a <= SF2R b)%R -> (SF2R b <= 1)%R ->
  finite_nonneg (SF64sqrt (SF64sub SF_one (SF64mul a a))) /\
  (SF2R (SF64sqrt (SF64sub SF_one (SF64mul b b))) <=
   SF2R (SF64sqrt (SF64sub SF_one (SF64mul a a))))%R.
Proof.
  intros Ha Hb Hva Hvb Hab Hb1.
  pose proof (rounds_to_nonneg _ _ (rounds_to_self _ Ha Hva)) as Ha0.
  pose proof (mul_rounds _ _ Ha Ha Hva Hva) as Hra.
  pose proof (mul_rounds _ _ Hb Hb Hvb Hvb) as Hrb.
  destruct (rounds_to_le _ _ (2 ^ 52) (-52) Hrb) as [Hfb Hsb];
    [lia|lia| | |].
  { rewrite F2R_one. change 1%R with (bpow 0). apply bpow_lt. lia. }
  { rewrite F2R_one. nra. }
  rewrite F2R_one in Hsb.
  destruct (rounds_to_mono _ _ _ _ Hra Hrb) as [Hfa Hsab]; [nra|done|].
  destruct (sub_one_unit _ Hfa ltac:(lra)) as [Hda Hda1].
  destruct (sub_one_unit _ Hfb Hsb) as [Hdb Hdb1].
  destruct (rounds_to_mono _ _ _ _
              (sub_one_rounds _ Hfb Hsb)
              (sub_one_rounds _ Hfa ltac:(lra))) as [_ Hdle]; [lra|done|].
  destruct (sqrt_unit _ Hda Hda1) as [Hqa _].
  split; [done|].
  apply (rounds_to_mono _ _ _ _
           (sqrt_rounds_nonneg _ Hdb) (sqrt_rounds_nonneg _ Hda));
    [|done].
  by apply sqrt_le_1_alt.
Qed.

(** X17: f does not increase with the magnitude of its argument.  For
    |x| <= |y| <= 1 the double f(y) is at most the double f(x): squaring,
    subtracting from 1.0 and taking the square root all round
    monotonically. *)
Theorem f_antitone (x y : float) :
  (abs x <=? abs y)%float = true -> (abs y <=? 1)%float = true ->
  (f y <=? f x)%float = true.
Proof.
  intros Hxy Hy1.
  destruct (abs_le_one y Hy1) as [Hfy Hy].
  destruct (abs_le_abs x y Hxy Hfy) as [Hfx Hx].
  destruct (f_spec_antitone _ _ Hfx Hfy (Prim2SF_valid _) (Prim2SF_valid _)
              Hx Hy) as [Hqx Hle].
  destruct (radicand_unit _ Hfy (Prim2SF_valid _) Hy) as [Hry Hry1].
  destruct (sqrt_unit _ Hry Hry1) as [Hqy _].
  rewrite <- !f_spec, !f_abs in *.
  rewrite FloatAxioms.leb_spec.
  apply SFleb_le; try done; apply Prim2SF_valid.
Qed.

Lemma f_antitone_witness : (f 0.75 <=? f (-0.25))%float = true.
Proof.
  apply (f_antitone (-0.25) 0.75); vm_compute; reflexivity.
Defined.

(** X18: a thread adds its terms from the largest to the smallest.  For
    indices i <= j below N the term f(x_j) is at most the term f(x_i). *)
Theorem terms_nonincreasing (N i j : Z) :
  1 <= N < ULLONG_MOD -> 0 <= i <= j -> j < N ->
  (f (midpoint j (main_step_width N)) <=? f (midpoint i (main_step_width N)))%float
    = true.
Proof.
  intros HN Hij HjN.
  destruct (sample_bounds N j HN ltac:(lia)) as [Hxj Hxj1].
  destruct (sample_order N i j HN Hij HjN) as [Hxi Hle].
  destruct (f_spec_antitone _ _ Hxi Hxj (Prim2SF_valid _) (Prim2SF_valid _)
              Hle Hxj1) as [Hqi Hfle].
  destruct (integrand_unit N HN j ltac:(lia)) as [Hqj _].
  rewrite <- !f_spec in *.
  rewrite FloatAxioms.leb_spec.
  apply SFleb_le; try done; apply Prim2SF_valid.
Qed.

Lemma terms_nonincreasing_witness :
  (f (midpoint 5 (main_step_width 8)) <=? f (midpoint 2 (main_step_width 8)))%float
    = true.
Proof.
  apply (terms_nonincreasing 8 2 5); unfold ULLONG_MOD; lia.
Defined.

(** ** What is printed *)

Lemma is_finite_spec (p : float) :
  finite_nonneg (Prim2SF p) -> is_finite p = true /\ (0 <=? p)%float = true.
Proof.
  intros Hp. split.
  - unfold is_finite, is_infinity.
    rewrite (nonneg_class_not_nan p) by (by apply finite_nonneg_class).
    rewrite FloatAxioms.eqb_spec, FloatAxioms.abs_spec.
    change (Prim2SF infinity) with (S754_infinity false).
    by destruct (Prim2SF p) as [[|]|[|]| |[|] m e].
  - rewrite FloatAxioms.leb_spec. change (Prim2SF 0) with (S754_zero false).
    by apply SFleb_zero.
Qed.

(** X19: with N >= 1 and T >= 1 the program prints a number that is
    finite and not negative, whatever the schedule: no sample makes f
    yield NaN, every term is at most 1, and a running sum of such terms
    cannot overflow, because it stops growing at 2^53. *)
Theorem output_finite (N T : Z) sched code p :
  1 <= N < ULLONG_MOD -> 1 <= T <= INT_MAX ->
  main N T sched = Some (Returned code p) ->
  is_finite p = true /\ (0 <=? p)%float = true.
Proof.
  intros HN HT Hrun. assert (0 <= N < ULLONG_MOD) as HN' by lia.
  apply (main_outcome N T sched _ HN' HT) in Hrun. injection Hrun as -> ->.
  by apply is_finite_spec, pi_approx_of_finite.
Qed.

Lemma output_finite_witness :
  is_finite (pi_approx_of 2 2) = true /\ (0 <=? pi_approx_of 2 2)%float = true.
Proof.
  apply (output_finite 2 2 lockstep_2_2 0).
  - unfold ULLONG_MOD. lia.
  - unfold INT_MAX. lia.
  - vm_compute. reflexivity.
Defined.

(** ** The estimate is at most 4 *)

(** Below [2^53] sums of numbers bounded by integers are bounded by the
    sum of the integers, which is a double. *)
Lemma add_le_int s t (B l : Z) :
  0 <= B -> 0 <= l -> B + l <= 2 ^ 53 ->
  finite_nonneg s -> finite_nonneg t ->
  valid_binary s = true -> valid_binary t = true ->
  (SF2R s <= IZR B)%R -> (SF2R t <= IZR l)%R ->
  finite_nonneg (SF64add s t) /\ (SF2R (SF64add s t) <= IZR (B + l))%R.
Proof.
  intros HB Hl HBl Hs Ht Hvs Hvt HsB Htl.
  pose proof (add_rounds s t Hs Ht Hvs Hvt) as Hr.
  rewrite <- (F2R_int (B + l)).
  apply (rounds_to_le _ _ (B + l) 0 Hr); [lia|lia| |].
  - rewrite F2R_int. apply Rle_lt_trans with (bpow 53).
    + rewrite bpow_IZR by lia. apply IZR_le. lia.
    + apply bpow_lt. lia.
  - rewrite F2R_int, plus_IZR. lra.
Qed.

Section AtMostFour.

Variables (N T : Z).
Hypothesis HN : 1 <= N <= 2 ^ 53.
Hypothesis HT : 1 <= T <= INT_MAX.

Lemma N_below_2_64 : 1 <= N < ULLONG_MOD.
Proof. unfold ULLONG_MOD. lia. Qed.

(** A running sum over n indices is at most n. *)
Lemma midpoint_sum_le_count a (n : nat) :
  0 <= a -> a + Z.of_nat n <= N ->
  finite_nonneg
    (Prim2SF (midpoint_sum a (a + Z.of_nat n) (main_step_width N))) /\
  (SF2R (Prim2SF (midpoint_sum a (a + Z.of_nat n) (main_step_width N)))
     <= IZR (Z.of_nat n))%R.
Proof.
  intros Ha. induction n as [|n IH]; intros Hn.
  - rewrite midpoint_sum_empty by lia. rewrite Prim2SF_zero.
    split; [done|]. simpl. apply Rle_refl.
  - replace (a + Z.of_nat (S n)) with (a + Z.of_nat n + 1) by lia.
    rewrite midpoint_sum_snoc by lia. rewrite FloatAxioms.add_spec.
    destruct (IH ltac:(lia)) as [Hf Hle].
    destruct (integrand_unit N N_below_2_64 (a + Z.of_nat n) ltac:(lia))
      as [Hg Hg1].
    rewrite Nat2Z.inj_succ, <- Z.add_1_r.
    apply add_le_int; try done; try apply Prim2SF_valid; lia.
Qed.

Lemma partial_sum_le_count k :
  0 <= k < T ->
  finite_nonneg (Prim2SF (partial_sum N T k)) /\
  (SF2R (Prim2SF (partial_sum N T k))
     <= IZR (range_end N T k - range_start N T k))%R.
Proof.
  intros Hk. assert (0 <= N < ULLONG_MOD) as HN' by (unfold ULLONG_MOD; lia).
  pose proof (range_start_nonneg N T HN' HT k ltac:(lia)) as H0.
  pose proof (range_start_le N T HN' HT k ltac:(lia)) as Hle.
  pose proof (range_end_le_N N T HN' HT k Hk) as HeN.
  pose proof (midpoint_sum_le_count (range_start N T k)
                (Z.to_nat (range_end N T k - range_start N T k)) H0) as Hc.
  rewrite Z2Nat.id in Hc by lia.
  replace (range_start N T k + (range_end N T k - range_start N T k))
    with (range_end N T k) in Hc by lia.
  apply Hc. lia.
Qed.

(** After n joins [totalSum] is at most the number of indices handed to
    the first n threads. *)
Lemma total_sum_le_count (n : nat) :
  Z.of_nat n <= T ->
  finite_nonneg (Prim2SF (total_sum N T (Z.of_nat n))) /\
  (SF2R (Prim2SF (total_sum N T (Z.of_nat n)))
     <= IZR (range_start N T (Z.of_nat n)))%R.
Proof.
  assert (0 <= N < ULLONG_MOD) as HN' by (unfold ULLONG_MOD; lia).
  induction n as [|n IH]; intros Hn.
  - change (total_sum N T (Z.of_nat 0)) with 0%float. rewrite Prim2SF_zero.
    split; [done|]. simpl. rewrite range_start_0 by done. apply Rle_refl.
  - rewrite Nat2Z.inj_succ, <- Z.add_1_r, total_sum_snoc by lia.
    rewrite FloatAxioms.add_spec.
    destruct (IH ltac:(lia)) as [Hf Hle].
    destruct (partial_sum_le_count (Z.of_nat n) ltac:(lia)) as [Hg Hg1].
    pose proof (range_start_nonneg N T HN' HT (Z.of_nat n) ltac:(lia)).
    pose proof (range_start_le N T HN' HT (Z.of_nat n) ltac:(lia)).
    pose proof (range_end_le_N N T HN' HT (Z.of_nat n) ltac:(lia)).
    replace (range_start N T (Z.of_nat n + 1))
      with (range_start N T (Z.of_nat n) +
            (range_end N T (Z.of_nat n) - range_start N T (Z.of_nat n)))
      by (unfold range_end; lia).
    apply add_le_int; try done; try apply Prim2SF_valid; lia.
Qed.

Lemma pi_approx_of_le_four :
  finite_nonneg (Prim2SF (pi_approx_of N T)) /\
  (SF2R (Prim2SF (pi_approx_of N T)) <= 4)%R.
Proof.
  assert (0 <= N < ULLONG_MOD) as HN' by (unfold ULLONG_MOD; lia).
  pose proof (total_sum_le_count (Z.to_nat T)) as Ht.
  rewrite Z2Nat.id in Ht by lia. destruct (Ht ltac:(lia)) as [Hft Hlt].
  rewrite range_start_T in Hlt by done.
  destruct (step_bounds N N_below_2_64) as (Hfh & Hh0 & Hprod).
  destruct (of_ull_small N ltac:(lia)) as [_ HNR]. rewrite HNR in Hprod.
  pose proof (rounds_to_nonneg _ _
                (rounds_to_self _ Hft (Prim2SF_valid _))) as Ht0.
  unfold pi_approx_of.
  pose proof (mul_rounds _ _ Hfh Hft (Prim2SF_valid _) (Prim2SF_valid _))
    as Hr.
  rewrite <- FloatAxioms.mul_spec in Hr.
  destruct (rounds_to_le_one _ _ Hr) as [Hfi Hi]; [nra|].
  assert (finite_nonneg (Prim2SF 4)) as Hf4 by done.
  pose proof (mul_rounds _ _ Hf4 Hfi (Prim2SF_valid _) (Prim2SF_valid _))
    as Hr4.
  rewrite <- FloatAxioms.mul_spec in Hr4.
  assert (F2R (2 ^ 52) (-50) = 4)%R as H4.
  { rewrite F2R_pow2 by lia. change (52 + -50) with (0 + 1 + 1).
    rewrite !bpow_succ, bpow_0. lra. }
  rewrite <- H4.
  apply (rounds_to_le _ _ (2 ^ 52) (-50) Hr4); [lia|lia| |].
  { rewrite F2R_pow2 by lia. apply bpow_lt. lia. }
  change (Prim2SF 4) with (S754_finite false (2 ^ 52) (-50)).
  simpl SF2R at 1. change (Z.pos (2 ^ 52)) with (2 ^ 52).
  pose proof (rounds_to_nonneg _ _ Hr). rewrite H4. nra.
Qed.

End AtMostFour.

(** X20: the estimate is at most 4.  For N up to 2^53 every term is at
    most 1, a thread's sum is at most the number of its subintervals,
    [totalSum] is at most N, [step * totalSum] is at most 1, and the
    printed value is between 0 and 4, whatever T and the schedule are. *)
Theorem output_at_most_four (N T : Z) sched code p :
  1 <= N <= 2 ^ 53 -> 1 <= T <= INT_MAX ->
  main N T sched = Some (Returned code p) ->
  (0 <=? p)%float = true /\ (p <=? 4)%float = true.
Proof.
  intros HN HT Hrun.
  assert (0 <= N < ULLONG_MOD) as HN' by (unfold ULLONG_MOD; lia).
  apply (main_outcome N T sched _ HN' HT) in Hrun. injection Hrun as -> ->.
  destruct (pi_approx_of_le_four N T HN HT) as [Hf Hle].
  rewrite !FloatAxioms.leb_spec. change (Prim2SF 0) with (S754_zero false).
  split; [by apply SFleb_zero|].
  apply SFleb_le; [done|done|apply Prim2SF_valid|apply Prim2SF_valid|].
  change (Prim2SF 4) with (S754_finite false (2 ^ 52) (-50)).
  simpl SF2R at 2. change (Z.pos (2 ^ 52)) with (2 ^ 52).
  rewrite F2R_pow2 by lia. change (52 + -50) with (0 + 1 + 1).
  rewrite !bpow_succ, bpow_0. lra.
Qed.

Lemma output_at_most_four_witness :
  (0 <=? pi_approx_of 2 2)%float = true /\
  (pi_approx_of 2 2 <=? 4)%float = true.
Proof.
  apply (output_at_most_four 2 2 lockstep_2_2 0).
  - lia.
  - unfold INT_MAX. lia.
  - vm_compute. reflexivity.
Defined.

(** ** As many threads as subintervals *)

Section OneSubintervalPerThread.

Variable N : Z.
Hypothesis HN : 1 <= N <= INT_MAX.

Lemma range_start_one_each k : 0 <= k -> range_start N N k = k.
Proof.
  intros Hk. unfold range_start, chunk, remainder.
  rewrite ull_of_int_T by done.
  rewrite Z.div_same, Z.mod_same by lia. lia.
Qed.

Lemma N_is_ull : 1 <= N < ULLONG_MOD.
Proof. unfold INT_MAX, ULLONG_MOD in *. lia. Qed.

Lemma partial_sum_one_each k :
  0 <= k < N -> partial_sum N N k = f (midpoint k (main_step_width N)).
Proof.
  intros Hk. unfold partial_sum, range_end.
  rewrite !range_start_one_each by lia.
  rewrite midpoint_sum_snoc by lia. rewrite midpoint_sum_empty by lia.
  apply add_zero_l. apply integrand_nonneg_class; [apply N_is_ull|done].
Qed.

Lemma total_sum_one_each (n : nat) :
  Z.of_nat n <= N ->
  total_sum N N (Z.of_nat n) = midpoint_sum 0 (Z.of_nat n) (main_step_width N).
Proof.
  induction n as [|n IH]; intros Hn; [done|].
  rewrite Nat2Z.inj_succ, <- Z.add_1_r.
  rewrite total_sum_snoc, midpoint_sum_snoc by lia.
  rewrite partial_sum_one_each by lia. by rewrite IH by lia.
Qed.

Lemma pi_approx_of_one_each : pi_approx_of N N = pi_approx_of N 1.
Proof.
  unfold pi_approx_of. rewrite (total_sum_single_thread N N_is_ull).
  pose proof (total_sum_one_each (Z.to_nat N)) as Ht.
  rewrite Z2Nat.id in Ht by lia. by rewrite Ht by lia.
Qed.

End OneSubintervalPerThread.

(** X21: one subinterval per thread changes nothing.  With T = N the
    partition loop runs to its end, and then there are N records, thread
    k having been given the single index k; complete runs exist for T = N
    and for T = 1, and every complete run with T = N prints the very
    double that the run with one thread prints: each thread adds its term
    to 0.0, which is exact, and the main thread adds the terms in index
    order. *)
Theorem one_subinterval_per_thread (N : Z) :
  1 <= N <= INT_MAX ->
  (exists sched st,
     exec N N sched (initial N) = Some st /\ partition_done st) /\
  (forall sched st,
     exec N N sched (initial N) = Some st -> partition_done st ->
     length (threadData st) = Z.to_nat N /\
     forall k : nat, Z.of_nat k < N ->
       exists th d,
         threads st !! k = Some th /\ th <> Unstarted /\
         threadData st !! k = Some d /\
         start d = Z.of_nat k /\ end_ d = Z.of_nat k + 1) /\
  (forall sched st (k : nat) d,
     exec N N sched (initial N) = Some st ->
     Z.of_nat k < spawned N (pc st) -> threadData st !! k = Some d ->
     start d = Z.of_nat k /\ end_ d = Z.of_nat k + 1) /\
  (exists sched sched1 code code1 p p1,
     main N N sched = Some (Returned code p) /\
     main N 1 sched1 = Some (Returned code1 p1)) /\
  (forall sched sched1 code code1 p p1,
     main N N sched = Some (Returned code p) ->
     main N 1 sched1 = Some (Returned code1 p1) ->
     p = p1).
Proof.
  intros HN. pose proof (N_is_ull N HN) as HN1.
  assert (0 <= N < ULLONG_MOD) as HN' by lia.
  assert (1 <= 1 <= INT_MAX) as H1 by (unfold INT_MAX; lia).
  assert (forall sched st (k : nat) d,
     exec N N sched (initial N) = Some st ->
     Z.of_nat k < spawned N (pc st) -> threadData st !! k = Some d ->
     start d = Z.of_nat k /\ end_ d = Z.of_nat k + 1) as Hslot.
  { intros sched st k d Hrun Hk Hd.
    pose proof (reachable_Inv N N HN' HN _ _ Hrun) as Hinv.
    destruct (slot_after_spawn N N HN st k d Hinv Hk Hd) as (-> & -> & _).
    unfold range_end. rewrite !range_start_one_each by (done || lia). lia. }
  split; [|split; [|split; [done|split]]].
  - destruct (complete_run_exists N N HN' HN) as (st & o & Hrun & Hpc).
    exists (sequential_schedule N N), st. split; [done|].
    unfold partition_done. by rewrite Hpc.
  - intros sched st Hrun Hdone.
    pose proof (reachable_Inv N N HN' HN _ _ Hrun) as Hinv.
    split; [by destruct Hinv|]. intros k Hk.
    destruct (lookup_lt_is_Some_2 (threads st) k) as [th Hth].
    { destruct Hinv. lia. }
    destruct (lookup_lt_is_Some_2 (threadData st) k) as [d Hd].
    { destruct Hinv. lia. }
    exists th, d. split; [done|]. split; [|split; [done|]].
    + intros ->. apply (inv_spawned _ _ _ Hinv k); [|done].
      by rewrite partition_done_spawned.
    + apply (Hslot sched st k d Hrun); [|done].
      by rewrite partition_done_spawned.
  - eexists (sequential_schedule N N), (sequential_schedule N 1), _, _, _, _.
    split; by apply sequential_run.
  - intros sched sched1 code code1 p p1 Hrun Hrun1.
    apply (main_outcome N N _ _ HN' HN) in Hrun.
    apply (main_outcome N 1 _ _ HN' H1) in Hrun1.
    simplify_eq. by apply pi_approx_of_one_each.
Qed.

Lemma one_subinterval_per_thread_witness :
  (exists sched st,
     exec 3 3 sched (initial 3) = Some st /\ partition_done st) /\
  (forall sched st,
     exec 3 3 sched (initial 3) = Some st -> partition_done st ->
     length (threadData st) = Z.to_nat 3 /\
     forall k : nat, Z.of_nat k < 3 ->
       exists th d,
         threads st !! k = Some th /\ th <> Unstarted /\
         threadData st !! k = Some d /\
         start d = Z.of_nat k /\ end_ d = Z.of_nat k + 1) /\
  (forall sched st (k : nat) d,
     exec 3 3 sched (initial 3) = Some st ->
     Z.of_nat k < spawned 3 (pc st) -> threadData st !! k = Some d ->
     start d = Z.of_nat k /\ end_ d = Z.of_nat k + 1) /\
  (exists sched sched1 code code1 p p1,
     main 3 3 sched = Some (Returned code p) /\
     main 3 1 sched1 = Some (Returned code1 p1)) /\
  (forall sched sched1 code code1 p p1,
     main 3 3 sched = Some (Returned code p) ->
     main 3 1 sched1 = Some (Returned code1 p1) ->
     p = p1).
Proof.
  apply (one_subinterval_per_thread 3). unfold INT_MAX. lia.
Defined.
